(** * Doc2LMS: the QTI 1.2 conversion pipeline

    A shallow embedding of the parsing-and-compilation core of Doc2LMS
    (QuestionParsing.gs, ImageHandling.gs, AnswerKeyParsing.gs, Code.gs,
    Constants.gs, Utilities.gs, and of QTIExport.gs the item generators, the
    loop over the questions and the copying of the images), the properties
    of it that the specification states, and further properties of the code.

    Conventions of the embedding.
    - Text is a [string] of ASCII code units.  The JavaScript character
      classes ([\s], [\d], [\w], [.]) and [toUpperCase] are the ASCII
      ones; characters outside ASCII are outside the model.
    - A regular expression of the source is a function on strings that
      follows the expression from left to right.  Every expression of the
      pipeline is deterministic (a greedy repetition is always followed by a
      character outside its class), so no backtracking is needed; each
      function quotes the literal it embeds.
    - [Utilities.getUuid] is an oracle [nat -> N]: the 128-bit value of the
      k-th identifier minted in a run, printed as 32 hexadecimal digits.
    - The Google Document is a list of elements (paragraphs, list items or
      other), each a list of children (text runs, inline images, other).
    - [console.log] tracing is not modelled; [console.warn] is a list of
      warnings where a property mentions it.
    - A generated XML document is the record of the values that fill the
      holes of its template; the fixed text of the template is left out.
    - The Drive is what the code asks of it: whether [createFile] succeeds
      for a name and a blob. *)

From stdpp Require Import gmap strings list.
From Stdlib Require Import Ascii NArith DecimalString Lia.

(** ** Characters *)

Module Char.

Definition code (c : ascii) : N := N_of_ascii c.

Definition in_range (lo hi : N) (c : ascii) : bool :=
  ((lo <=? code c) && (code c <=? hi))%N.

(** [\d] *)
Definition is_digit (c : ascii) : bool := in_range 48 57 c.
Definition is_upper (c : ascii) : bool := in_range 65 90 c.
Definition is_lower (c : ascii) : bool := in_range 97 122 c.
(** [[A-Za-z]] *)
Definition is_alpha (c : ascii) : bool := is_upper c || is_lower c.
(** [[a-z0-9]] and [[a-zA-Z0-9_]], the latter being [\w] *)
Definition is_lower_alnum (c : ascii) : bool := is_lower c || is_digit c.
Definition is_word (c : ascii) : bool :=
  is_alpha c || is_digit c || (code c =? 95)%N.
(** [\s]: tab, line feed, vertical tab, form feed, carriage return, space *)
Definition is_space (c : ascii) : bool := in_range 9 13 c || (code c =? 32)%N.
(** the characters that [.] does not match *)
Definition is_line_terminator (c : ascii) : bool :=
  (code c =? 10)%N || (code c =? 13)%N.
Definition is_char (d c : ascii) : bool := Ascii.eqb c d.

Definition toUpper (c : ascii) : ascii :=
  if is_lower c then ascii_of_N (code c - 32) else c.
Definition toLower (c : ascii) : ascii :=
  if is_upper c then ascii_of_N (code c + 32) else c.

(** the i-th hexadecimal digit, lower case *)
Definition hex_digit (n : N) : ascii :=
  if (n <? 10)%N then ascii_of_N (48 + n) else ascii_of_N (87 + n).
Definition is_hex (c : ascii) : bool := is_digit c || in_range 97 102 c.

End Char.

(** ** Strings: the JavaScript string methods the pipeline uses *)

Module Str.

Definition dq : string := String (ascii_of_N 34) "".
Definition lf : string := String (ascii_of_N 10) "".

Fixpoint map (f : ascii -> ascii) (s : string) : string :=
  match s with
  | "" => ""
  | String c s' => String (f c) (map f s')
  end.

Definition toUpperCase : string -> string := map Char.toUpper.
Definition toLowerCase : string -> string := map Char.toLower.

Fixpoint filter (p : ascii -> bool) (s : string) : string :=
  match s with
  | "" => ""
  | String c s' => if p c then String c (filter p s') else filter p s'
  end.

Fixpoint drop_while (p : ascii -> bool) (s : string) : string :=
  match s with
  | "" => ""
  | String c s' => if p c then drop_while p s' else s
  end.

Fixpoint take_while (p : ascii -> bool) (s : string) : string :=
  match s with
  | "" => ""
  | String c s' => if p c then String c (take_while p s') else ""
  end.

Definition is_empty (s : string) : bool :=
  match s with "" => true | _ => false end.

Definition trimStart (s : string) : string := drop_while Char.is_space s.

Fixpoint trimEnd (s : string) : string :=
  match s with
  | "" => ""
  | String c s' =>
      let r := trimEnd s' in
      if Char.is_space c && is_empty r then "" else String c r
  end.

Definition trim (s : string) : string := trimEnd (trimStart s).

(** [s.substring(0, n)] *)
Fixpoint take (n : nat) (s : string) : string :=
  match n, s with
  | S n', String c s' => String c (take n' s')
  | _, _ => ""
  end.

(** [strip_prefix w s]: the rest of [s] after the literal [w] *)
Fixpoint strip_prefix (w s : string) : option string :=
  match w, s with
  | "", _ => Some s
  | String a w', String c s' =>
      if Char.is_char a c then strip_prefix w' s' else None
  | _, _ => None
  end.

(** the same, ignoring case (the [i] flag); [w] is given in upper case *)
Fixpoint strip_prefix_ci (w s : string) : option string :=
  match w, s with
  | "", _ => Some s
  | String a w', String c s' =>
      if Char.is_char a (Char.toUpper c) then strip_prefix_ci w' s' else None
  | _, _ => None
  end.

Definition starts_with (w s : string) : bool :=
  match strip_prefix w s with Some _ => true | None => false end.

(** [s.includes(w)] *)
Fixpoint includes (w s : string) : bool :=
  starts_with w s ||
  match s with
  | "" => false
  | String _ s' => includes w s'
  end.

Definition first_is (p : ascii -> bool) (s : string) : bool :=
  match s with
  | "" => false
  | String c _ => p c
  end.

Fixpoint last_is (p : ascii -> bool) (s : string) : bool :=
  match s with
  | "" => false
  | String c "" => p c
  | String _ s' => last_is p s'
  end.

Definition cons_head (c : ascii) (l : list string) : list string :=
  match l with
  | [] => [String c ""]
  | h :: t => String c h :: t
  end.

(** [s.split(/[...]/)] for a class of one-character separators *)
Fixpoint split (sep : ascii -> bool) (s : string) : list string :=
  match s with
  | "" => [""]
  | String c s' => if sep c then "" :: split sep s' else cons_head c (split sep s')
  end.

(** [s.split(/[...]+/)]: a run of separators separates once *)
Fixpoint split_runs (sep : ascii -> bool) (in_run : bool) (s : string) : list string :=
  match s with
  | "" => [""]
  | String c s' =>
      if sep c then
        if in_run then split_runs sep true s' else "" :: split_runs sep true s'
      else cons_head c (split_runs sep false s')
  end.

(** [s.replace(/[...]/g, r)] for a class of characters *)
Fixpoint replace_class (p : ascii -> bool) (r : string) (s : string) : string :=
  match s with
  | "" => ""
  | String c s' =>
      if p c then r +:+ replace_class p r s' else String c (replace_class p r s')
  end.

(** [s.replace(/[...]+/g, r)]: a run is replaced once *)
Fixpoint replace_runs (p : ascii -> bool) (r : string) (in_run : bool) (s : string) : string :=
  match s with
  | "" => ""
  | String c s' =>
      if p c then
        if in_run then replace_runs p r true s' else r +:+ replace_runs p r true s'
      else String c (replace_runs p r false s')
  end.

(** [s.replace(w, r)] with a string pattern: the first occurrence only *)
Fixpoint replace_first (w r s : string) : string :=
  match strip_prefix w s with
  | Some rest => r +:+ rest
  | None =>
      match s with
      | "" => ""
      | String c s' => String c (replace_first w r s')
      end
  end.

(** [parseInt(s, 10)] on a string of digits *)
Definition digit_value (c : ascii) : N := (Char.code c - 48)%N.
Fixpoint parseInt_acc (acc : N) (s : string) : N :=
  match s with
  | "" => acc
  | String c s' => parseInt_acc (10 * acc + digit_value c)%N s'
  end.
Definition parseInt (s : string) : N := parseInt_acc 0 s.

(** the decimal numeral of a number, as template literals print it *)
Definition of_N (n : N) : string := NilEmpty.string_of_uint (N.to_uint n).

(** [k] hexadecimal digits of [v], most significant first *)
Fixpoint hex_acc (k : nat) (v : N) (acc : string) : string :=
  match k with
  | O => acc
  | S k' => hex_acc k' (v / 16)%N (String (Char.hex_digit (v mod 16)%N) acc)
  end.
Definition hex (k : nat) (v : N) : string := hex_acc k v "".

End Str.

(** ** Regular-expression pieces

    A piece consumes a prefix of its input and returns the rest, or fails. *)

Module Re.

(** [\s*] *)
Definition ws (s : string) : string := Str.trimStart s.

(** [\s+] *)
Definition ws1 (s : string) : option string :=
  if Str.first_is Char.is_space s then Some (Str.trimStart s) else None.

(** one character of a class *)
Definition one (p : ascii -> bool) (s : string) : option (ascii * string) :=
  match s with
  | String c r => if p c then Some (c, r) else None
  | "" => None
  end.

(** an optional character of a class *)
Definition opt (p : ascii -> bool) (s : string) : string :=
  match s with
  | String c r => if p c then r else s
  | "" => s
  end.

(** [X+] for a class [X]: the run and the rest *)
Definition many1 (p : ascii -> bool) (s : string) : option (string * string) :=
  if Str.first_is p s then Some (Str.take_while p s, Str.drop_while p s) else None.

(** the capture of [.*]: up to the first line terminator *)
Definition rest_of_line (s : string) : string :=
  Str.take_while (fun c => negb (Char.is_line_terminator c)) s.

(** [$] *)
Definition eos (s : string) : bool := Str.is_empty s.

(** the position just before [s] is a word boundary, when the character
    before it was a word character or not ([prevw]) *)
Definition boundary (prevw : bool) (s : string) : bool :=
  xorb prevw (Str.first_is Char.is_word s).

(** [\bW\b] at the current position, followed by [k] *)
Definition word_here (w : string) (k : string -> bool) (prevw : bool) (s : string) : bool :=
  boundary prevw s &&
  match Str.strip_prefix w s with
  | Some r => boundary (Str.last_is Char.is_word w) r && k r
  | None => false
  end.

(** an unanchored expression is tried at every position, left to right *)
Fixpoint search_from (m : bool -> string -> bool) (prevw : bool) (s : string) : bool :=
  m prevw s ||
  match s with
  | "" => false
  | String c s' => search_from m (Char.is_word c) s'
  end.
Definition search (m : bool -> string -> bool) (s : string) : bool :=
  search_from m false s.

(** [.*] followed by [m]: [m] is tried at every position of the line *)
Fixpoint on_line (m : bool -> string -> bool) (prevw : bool) (s : string) : bool :=
  m prevw s ||
  match s with
  | "" => false
  | String c s' =>
      if Char.is_line_terminator c then false else on_line m (Char.is_word c) s'
  end.

Definition any (_ : string) : bool := true.

End Re.

(** ** Constants.gs *)

Inductive QuestionType :=
| MULTIPLE_CHOICE_SINGLE
| MULTIPLE_CHOICE_MULTI
| TRUE_FALSE
| FILL_IN_BLANK_TEXT
| FILL_IN_BLANK_NUMERIC
| ESSAY
| SHORT_ANSWER
| MATCHING
| ORDERING.

Global Instance QuestionType_eq_dec : EqDecision QuestionType.
Proof. solve_decision. Defined.

(** ** The document and the parsed model *)

Record Blob := {
  getContentType : string;
  getName : string;
  getBytes : string
}.

(** [getBlob] is [None] when reading the image data throws *)
Record InlineImage := {
  getBlob : option Blob;
  getWidth : N;
  getHeight : N
}.

Inductive ElementType := PARAGRAPH | LIST_ITEM | OTHER_ELEMENT.

Inductive Child :=
| TEXT (s : string)
| INLINE_IMAGE (image : InlineImage)
| OTHER_CHILD.

Record Element := {
  getType : ElementType;
  getChildren : list Child;
  getListId : option string
}.

Definition Body := list Element.

Record ImageMeta := {
  id : string;
  blob : Blob;
  contentType : string;
  originalName : string;
  width : N;
  height : N;
  filename : option string
}.

Record Opt := {
  letter : string;
  o_text : string;
  o_images : list ImageMeta
}.

Record Question := {
  number : N;
  type : QuestionType;
  text : string;
  options : list Opt;
  images : list ImageMeta;
  hasImages : bool
}.

Definition paragraph (s : string) : Element :=
  {| getType := PARAGRAPH; getChildren := [TEXT s]; getListId := None |}.

(** ** Utilities.gs: image file names *)

Definition generateImageFilename
    (questionNumber : N) (context imageId originalExtension : string) : string :=
  let baseName := "q" +:+ Str.of_N questionNumber +:+ "_" +:+ context +:+ "_" +:+ imageId in
  let extension :=
    Str.filter Char.is_lower_alnum
      (Str.toLowerCase (if Str.is_empty originalExtension then "png" else originalExtension)) in
  let sanitizedBase :=
    Str.replace_runs (Char.is_char "_") "_" false
      (Str.replace_class (fun c => negb (Char.is_word c)) "_" baseName) in
  sanitizedBase +:+ "." +:+ extension.

(** ** QuestionParsing.gs *)

Definition getExtensionFromMimeType (mimeTypeString : string) : string :=
  if Str.is_empty mimeTypeString then "png" else
  let lowerMime := Str.toLowerCase mimeTypeString in
  if Str.includes "png" lowerMime then "png"
  else if Str.includes "jpeg" lowerMime || Str.includes "jpg" lowerMime then "jpg"
  else if Str.includes "gif" lowerMime then "gif"
  else if Str.includes "bmp" lowerMime then "bmp"
  else
    match Str.split (Char.is_char "/") lowerMime with
    | [_; part] =>
        if Str.is_empty part then "png" else
        let ext := Str.take 4 (Str.filter Char.is_lower_alnum part) in
        if Str.is_empty ext then "png" else ext
    | _ => "png"
    end.

(** the token spliced into the text where an image stood *)
Definition placeholder (imageId : string) : string := "[IMG:" +:+ imageId +:+ "]".

(** [Utilities.getUuid().replace(/-/g, '')] for the k-th identifier *)
Definition uuid_string (v : N) : string := Str.hex 32 v.

Record ElementData := {
  e_text : string;
  e_images : list ImageMeta;
  isListItem : bool;
  listId : option string
}.

(** the loop over the children of a paragraph; [k] counts the identifiers
    minted so far.  An image whose data cannot be read is skipped, its
    identifier spent. *)
Fixpoint processChildren (uuid : nat -> N) (k : nat) (cs : list Child)
    (fullText : string) (imgs : list ImageMeta) : string * list ImageMeta * nat :=
  match cs with
  | [] => (fullText, imgs, k)
  | TEXT s :: cs' => processChildren uuid k cs' (fullText +:+ s) imgs
  | INLINE_IMAGE image :: cs' =>
      let imageId := uuid_string (uuid k) in
      match getBlob image with
      | Some b =>
          let meta := {|
            id := imageId;
            blob := b;
            contentType := getContentType b;
            originalName :=
              if Str.is_empty (getName b) then "image_" +:+ imageId else getName b;
            width := getWidth image;
            height := getHeight image;
            filename := None |} in
          processChildren uuid (S k) cs' (fullText +:+ placeholder imageId) (imgs ++ [meta])
      | None => processChildren uuid (S k) cs' fullText imgs
      end
  | OTHER_CHILD :: cs' => processChildren uuid k cs' fullText imgs
  end.

Definition processElement (uuid : nat -> N) (k : nat) (element : Element) : ElementData * nat :=
  match getType element with
  | OTHER_ELEMENT =>
      ({| e_text := ""; e_images := []; isListItem := false; listId := None |}, k)
  | PARAGRAPH =>
      let '(fullText, imgs, k') := processChildren uuid k (getChildren element) "" [] in
      ({| e_text := Str.trim fullText; e_images := imgs;
          isListItem := false; listId := None |}, k')
  | LIST_ITEM =>
      let '(fullText, imgs, k') := processChildren uuid k (getChildren element) "" [] in
      ({| e_text := Str.trim fullText; e_images := imgs;
          isListItem := true; listId := getListId element |}, k')
  end.

(** [/\bW\b/] *)
Definition has_word (w s : string) : bool := Re.search (Re.word_here w Re.any) s.

(** [/\bTRUE\b.*\bFALSE\b/] *)
Definition re_true_false (s : string) : bool :=
  Re.search (Re.word_here "TRUE" (Re.on_line (Re.word_here "FALSE" Re.any) true)) s.

(** [/^\s*MATCH\s/i] *)
Definition re_match_start (s : string) : bool :=
  match Str.strip_prefix_ci "MATCH" (Re.ws s) with
  | Some r => Str.first_is Char.is_space r
  | None => false
  end.

Definition letters_of (opts : list Opt) : list string := letter <$> opts.

Definition includes_letter (l : string) (ls : list string) : bool :=
  bool_decide (l ∈ ls).

(** The list-item arguments of the source function are never read and are
    left out. *)
Definition inferQuestionType (text : string) (initialOptions : list Opt) : QuestionType :=
  let upperText := Str.toUpperCase text in
  if re_true_false upperText || Str.includes "TRUE/FALSE" upperText then TRUE_FALSE
  else if has_word "MATCHING" upperText || re_match_start text then MATCHING
  else if has_word "ORDERING" upperText || has_word "ORDER" upperText
          || has_word "SEQUENCE" upperText then ORDERING
  else if Str.includes "___" text then FILL_IN_BLANK_TEXT
  else
    match initialOptions with
    | _ :: _ =>
        let optionLetters := letters_of initialOptions in
        if includes_letter "T" optionLetters && includes_letter "F" optionLetters
        then TRUE_FALSE
        else MULTIPLE_CHOICE_SINGLE
    | [] => SHORT_ANSWER
    end.

(** [/^\s*ANSWER\s+KEY\s*:?\s*$/i] *)
Definition re_answer_key (s : string) : bool :=
  default false (
    r ← Str.strip_prefix_ci "ANSWER" (Re.ws s);
    r ← Re.ws1 r;
    r ← Str.strip_prefix_ci "KEY" r;
    Some (Re.eos (Re.ws (Re.opt (Char.is_char ":") (Re.ws r))))).

(** [[.)-]] and [[.)]] *)
Definition is_question_mark (c : ascii) : bool :=
  Char.is_char "." c || Char.is_char ")" c || Char.is_char "-" c.
Definition is_option_mark (c : ascii) : bool :=
  Char.is_char "." c || Char.is_char ")" c.

(** [/^\s*(\d+)\s*[.)-]\s+/] followed by the capture of [.*]: the two
    captures *)
Definition questionStartMatch (s : string) : option (string * string) :=
  '(digits, r) ← Re.many1 Char.is_digit (Re.ws s);
  '(_, r) ← Re.one is_question_mark (Re.ws r);
  r ← Re.ws1 r;
  Some (digits, Re.rest_of_line r).

(** [/^\s*(?:(?:([A-Za-z])\s*[.)])|(?:\(\s*([A-Za-z])\s*\)))\s+/]
    followed by the capture of [.*]: the letter (first or second capture)
    and the third capture.  The two
    alternatives begin with different characters, so the second is tried
    only when the first character is not a letter. *)
Definition optionMatch (s : string) : option (ascii * string) :=
  let s := Re.ws s in
  '(l, r) ←
    match Re.one Char.is_alpha s with
    | Some (l, r) =>
        '(_, r) ← Re.one is_option_mark (Re.ws r);
        Some (l, r)
    | None =>
        '(_, r) ← Re.one (Char.is_char "(") s;
        '(l, r) ← Re.one Char.is_alpha (Re.ws r);
        '(_, r) ← Re.one (Char.is_char ")") (Re.ws r);
        Some (l, r)
    end;
  r ← Re.ws1 r;
  Some (l, Re.rest_of_line r).

(** [/^[.,;:!?]/] *)
Definition is_closing_punctuation (c : ascii) : bool :=
  Char.is_char "." c || Char.is_char "," c || Char.is_char ";" c
  || Char.is_char ":" c || Char.is_char "!" c || Char.is_char "?" c.

(** The state of the loop of [parseQuestions].  [currentOptions] of the
    source is the very array held by [currentQuestion.options], so it has
    no field of its own; [questionTypes] is the global map of Constants.gs;
    [minted] counts the identifiers drawn from the oracle. *)
Record ParseState := {
  questions : list Question;
  allImages : list ImageMeta;
  currentQuestion : option Question;
  accumulatedImages : list ImageMeta;
  currentQuestionNumber : N;
  questionTypes : gmap N QuestionType;
  minted : nat
}.

Definition initialState : ParseState := {|
  questions := [];
  allImages := [];
  currentQuestion := None;
  accumulatedImages := [];
  currentQuestionNumber := 0;
  questionTypes := ∅;
  minted := 0
|}.

Definition set_minted (k : nat) (st : ParseState) : ParseState := {|
  questions := questions st;
  allImages := allImages st;
  currentQuestion := currentQuestion st;
  accumulatedImages := accumulatedImages st;
  currentQuestionNumber := currentQuestionNumber st;
  questionTypes := questionTypes st;
  minted := k
|}.

Definition nonempty {A} (l : list A) : bool :=
  match l with [] => false | _ :: _ => true end.

(** the filter that links the accumulated images to a question *)
Definition linked (q : Question) (img : ImageMeta) : bool :=
  (negb (Str.is_empty (text q)) && Str.includes (placeholder (id img)) (text q))
  || existsb (fun opt => negb (Str.is_empty (o_text opt))
                         && Str.includes (placeholder (id img)) (o_text opt))
       (options q).

(** the finalization of a question, done where the next one starts and
    after the loop *)
Definition finalize (q : Question) (accumulated : list ImageMeta) : Question :=
  let imgs := List.filter (linked q) accumulated in
  {| number := number q; type := type q; text := text q; options := options q;
     images := imgs; hasImages := nonempty imgs |}.

Definition push_finalized (st : ParseState) (accumulated : list ImageMeta) : list Question :=
  match currentQuestion st with
  | Some q => questions st ++ [finalize q accumulated]
  | None => questions st
  end.

(** the file name given to an image of element [i] *)
Definition name_image (cur : option Question) (i : nat) (imgMeta : ImageMeta) : ImageMeta :=
  let fileExtension := getExtensionFromMimeType (contentType imgMeta) in
  {| id := id imgMeta; blob := blob imgMeta; contentType := contentType imgMeta;
     originalName := originalName imgMeta; width := width imgMeta; height := height imgMeta;
     filename := Some (generateImageFilename
       (match cur with Some q => number q | None => 0%N end)
       ("elem" +:+ Str.of_N (N.of_nat i) +:+ "_img" +:+ Str.take 4 (id imgMeta))
       (id imgMeta) fileExtension) |}.

(** the types that an option line does not override *)
Definition keeps_type (t : QuestionType) : bool :=
  match t with
  | MULTIPLE_CHOICE_SINGLE | MULTIPLE_CHOICE_MULTI | TRUE_FALSE | MATCHING | ORDERING => true
  | _ => false
  end.

(** an option line for the current question *)
Definition add_option (q : Question) (l : ascii) (rest : string)
    (accumulated : list ImageMeta) : Question :=
  let letter := String (Char.toUpper l) "" in
  let optionText := Str.trim rest in
  let optionImages :=
    List.filter (fun img => Str.includes (placeholder (id img)) optionText) accumulated in
  let currentOptions :=
    options q ++ [{| letter := letter; o_text := optionText; o_images := optionImages |}] in
  let type' :=
    if keeps_type (type q) then type q
    else
      let currentLetters := letters_of currentOptions in
      if includes_letter "T" currentLetters && includes_letter "F" currentLetters
      then TRUE_FALSE else MULTIPLE_CHOICE_SINGLE in
  {| number := number q; type := type'; text := text q; options := currentOptions;
     images := images q; hasImages := hasImages q |}.

(** a continuation line for the current question *)
Definition append_text (q : Question) (elementText : string) : Question :=
  let needsSpace :=
    negb (Str.is_empty (text q)) && negb (Str.last_is Char.is_space (text q))
    && negb (Str.first_is is_closing_punctuation elementText) in
  {| number := number q; type := type q;
     text := text q +:+ (if needsSpace then " " else "") +:+ elementText;
     options := options q; images := images q; hasImages := hasImages q |}.

Definition mark_images (b : bool) (q : Question) : Question :=
  {| number := number q; type := type q; text := text q; options := options q;
     images := images q; hasImages := if b then true else hasImages q |}.

(** the body of the loop for an element that is neither empty nor the
    answer-key header *)
Definition step (i : nat) (d : ElementData) (st : ParseState) : ParseState :=
  let elementText := e_text d in
  let named := name_image (currentQuestion st) i <$> e_images d in
  let accumulated := accumulatedImages st ++ named in
  let all := allImages st ++ named in
  match questionStartMatch elementText with
  | Some (digits, rest) =>
      let detectedNumber := Str.parseInt digits in
      let questionTextStart := Str.trim rest in
      let accumulated' :=
        List.filter (fun img => Str.includes (placeholder (id img)) elementText) accumulated in
      let inferredType := inferQuestionType questionTextStart [] in
      {| questions := push_finalized st accumulated;
         allImages := all;
         currentQuestion := Some {|
           number := detectedNumber; type := inferredType; text := questionTextStart;
           options := []; images := []; hasImages := nonempty accumulated' |};
         accumulatedImages := accumulated';
         currentQuestionNumber := detectedNumber;
         questionTypes := <[detectedNumber := inferredType]> (questionTypes st);
         minted := minted st |}
  | None =>
      match currentQuestion st with
      | Some q =>
          let '(q1, types) :=
            match optionMatch elementText with
            | Some (l, rest) =>
                let q1 := add_option q l rest accumulated in
                (q1, if keeps_type (type q) then questionTypes st
                     else <[currentQuestionNumber st := type q1]> (questionTypes st))
            | None =>
                (if Str.is_empty elementText then q else append_text q elementText,
                 questionTypes st)
            end in
          {| questions := questions st;
             allImages := all;
             currentQuestion := Some (mark_images (nonempty (e_images d)) q1);
             accumulatedImages := accumulated;
             currentQuestionNumber := currentQuestionNumber st;
             questionTypes := types;
             minted := minted st |}
      | None =>
          {| questions := questions st;
             allImages := all;
             currentQuestion := None;
             accumulatedImages := accumulated;
             currentQuestionNumber := currentQuestionNumber st;
             questionTypes := questionTypes st;
             minted := minted st |}
      end
  end.

(** the loop over the children of the body, from element [i] on; reaching
    the answer-key header leaves the loop *)
Fixpoint parseLoop (uuid : nat -> N) (i : nat) (els : list Element) (st : ParseState)
    : ParseState :=
  match els with
  | [] => st
  | child :: rest =>
      let '(d, k) := processElement uuid (minted st) child in
      let st := set_minted k st in
      if Str.is_empty (e_text d) && negb (nonempty (e_images d))
      then parseLoop uuid (S i) rest st
      else if re_answer_key (e_text d) then st
      else parseLoop uuid (S i) rest (step i d st)
  end.

(** What [parseQuestions] returns, with the global type map it leaves
    behind and the warning it may print. *)
Record Parsed := {
  p_questions : list Question;
  p_images : list ImageMeta;
  p_questionTypes : gmap N QuestionType;
  p_warnings : list string
}.

Definition parseQuestions (uuid : nat -> N) (body : Body) : Parsed :=
  let st := parseLoop uuid 0 body initialState in
  let qs := push_finalized st (accumulatedImages st) in
  {| p_questions := qs;
     p_images := allImages st;
     p_questionTypes := questionTypes st;
     p_warnings :=
       if nonempty qs then [] else ["No numbered questions were found in the document."] |}.

Definition scenarioA : Body :=
  paragraph <$> ["1. What is 2+2?"; "A. 3"; "B. 4"; "Answer Key"; "1. B"].

Definition no_uuid : nat -> N := fun _ => 0%N.

(** ** AnswerKeyParsing.gs *)

Record Pair := { premise : string; response : string }.

(** The answer data of a line, as JavaScript has it: a string (a letter),
    an array of strings (letters, literals or an ordered sequence), a
    number, or an array of pairs. *)
Inductive AnswerData :=
| AString (s : string)
| AStrings (l : list string)
| ANumber (literal : string)
| APairs (l : list Pair).

(** What [console.warn] is told. *)
Inductive Warning :=
| UnknownQuestionNumber (n : N) (lineText : string)
| ExpectedSingleLetter (n : N) (answerText : string)
| ExpectedMultipleLetters (n : N) (answerText : string)
| ParsedEmptyAnswers (n : N) (answerText : string)
| ExpectedNumericAnswer (n : N) (answerText : string)
| BadMatchingPair (pairStr : string) (n : N)
| NoValidMatchingPairs (n : N) (answerText : string)
| NoOrderingSequence (n : N) (answerText : string)
| DuplicateAnswer (n : N)
| AnswerKeyHeaderNotFound
| NoAnswerInMap (n : N).

(** the three patterns of [isAnswerKeyHeader]:
    [/^\s*ANSWER\s+KEY\s*:?\s*$/i], [/^\s*ANSWERS\s*:?\s*$/i] and
    [/^\s*KEY\s*:?\s*$/i] *)
Definition re_header_word (w : string) (s : string) : bool :=
  default false (
    r ← Str.strip_prefix_ci w (Re.ws s);
    Some (Re.eos (Re.ws (Re.opt (Char.is_char ":") (Re.ws r))))).

Definition isAnswerKeyHeader (text : string) : bool :=
  if Str.is_empty text then false else
  let t := Str.trim text in
  re_answer_key t || re_header_word "ANSWERS" t || re_header_word "KEY" t.

(** [/^[aA]nswer\s*[:\-]?\s*/i] and [/^[kK]ey\s*[:\-]?\s*/i], replaced by
    the empty string *)
Definition is_colon_or_dash (c : ascii) : bool :=
  Char.is_char ":" c || Char.is_char "-" c.
Definition strip_label (w : string) (s : string) : string :=
  match Str.strip_prefix_ci w s with
  | Some r => Re.ws (Re.opt is_colon_or_dash (Re.ws r))
  | None => s
  end.

(** The last replacement of the source removes zero-width characters,
    which are not ASCII. *)
Definition cleanAnswerKeyText (text : string) : string :=
  Str.replace_runs Char.is_space " " false
    (strip_label "KEY" (strip_label "ANSWER" (Str.trim text))).

(** [/^(\d+)\s*[.)-]\s*/] followed by the capture of [.*] *)
Definition answerLineMatch (s : string) : option (string * string) :=
  '(digits, r) ← Re.many1 Char.is_digit s;
  '(_, r) ← Re.one is_question_mark (Re.ws r);
  Some (digits, Re.rest_of_line (Re.ws r)).

(** [/^([A-Za-z])\b/] *)
Definition singleLetterMatch (s : string) : option ascii :=
  '(l, r) ← Re.one Char.is_alpha s;
  if Re.boundary true r then Some l else None.

(** [s.match(/[A-Za-z]/g)]: the letters, one string each *)
Fixpoint lettersMatch (s : string) : list string :=
  match s with
  | "" => []
  | String c s' =>
      if Char.is_alpha c then String c "" :: lettersMatch s' else lettersMatch s'
  end.

(** [[...new Set(l)]]: the first occurrence of each element, in order *)
Fixpoint unique (seen l : list string) : list string :=
  match l with
  | [] => []
  | x :: l' =>
      if bool_decide (x ∈ seen) then unique seen l' else x :: unique (x :: seen) l'
  end.

(** [Array.prototype.sort] with the default order, on strings *)
Fixpoint insert_sorted (x : string) (l : list string) : list string :=
  match l with
  | [] => [x]
  | y :: l' => if String.leb x y then x :: l else y :: insert_sorted x l'
  end.
Definition sort (l : list string) : list string := foldr insert_sorted [] l.

Definition is_comma_or_semicolon (c : ascii) : bool :=
  Char.is_char "," c || Char.is_char ";" c.

(** [s.split(/[,;]/).map(x => x.trim()).filter(x => x.length > 0)] *)
Definition splitAnswers (s : string) : list string :=
  List.filter (fun a => negb (Str.is_empty a))
    (Str.trim <$> Str.split is_comma_or_semicolon s).

(** [/^([A-Za-z]+)\s*[-=]\s*(\S+)/] on a trimmed pair *)
Definition is_dash_or_equals (c : ascii) : bool :=
  Char.is_char "-" c || Char.is_char "=" c.
Definition pairMatch (s : string) : option Pair :=
  '(p, r) ← Re.many1 Char.is_alpha s;
  '(_, r) ← Re.one is_dash_or_equals (Re.ws r);
  '(v, _) ← Re.many1 (fun c => negb (Char.is_space c)) (Re.ws r);
  Some {| premise := Str.trim p; response := Str.trim v |}.

(** the loop over the pairs of a matching answer, with its warnings *)
Fixpoint matchingPairs (n : N) (pairs : list string) : list Pair * list Warning :=
  match pairs with
  | [] => ([], [])
  | pairStr :: rest =>
      let '(ps, ws) := matchingPairs n rest in
      match pairMatch (Str.trim pairStr) with
      | Some p => (p :: ps, ws)
      | None => (ps, BadMatchingPair pairStr n :: ws)
      end
  end.

(** [parseFloat]: the longest prefix that is a decimal literal, after
    leading white space; [None] is NaN.  The literal stands for the number;
    its binary value is not computed. *)
Definition is_sign (c : ascii) : bool := Char.is_char "+" c || Char.is_char "-" c.
Definition is_exp (c : ascii) : bool := Char.is_char "e" c || Char.is_char "E" c.
Definition exponentPart (s : string) : string :=
  match s with
  | String e r =>
      if is_exp e then
        let sign := Str.take_while is_sign (Str.take 1 r) in
        let digits := Str.take_while Char.is_digit (Re.opt is_sign r) in
        if Str.is_empty digits then "" else String e (sign +:+ digits)
      else ""
  | "" => ""
  end.
Definition parseFloat (s : string) : option string :=
  let s := Re.ws s in
  let sign := Str.take_while is_sign (Str.take 1 s) in
  let s := Re.opt is_sign s in
  if Str.starts_with "Infinity" s then Some (sign +:+ "Infinity") else
  let int := Str.take_while Char.is_digit s in
  let s := Str.drop_while Char.is_digit s in
  let '(frac, s) :=
    match s with
    | String "." r => ("." +:+ Str.take_while Char.is_digit r, Str.drop_while Char.is_digit r)
    | _ => ("", s)
    end in
  if Str.is_empty int && negb (Str.first_is Char.is_digit (Re.opt (Char.is_char ".") frac))
  then None
  else Some (sign +:+ int +:+ frac +:+ exponentPart s).

Record ParsedLine := { l_number : N; l_answer : AnswerData }.

(** The decoding of the answer text of question [n] under a type: the
    answer data, or nothing where the source returns [null], and the
    warnings printed on the way. *)
Definition decodeAnswer (n : N) (ty : QuestionType) (answerText : string)
    : option AnswerData * list Warning :=
  match ty with
  | MULTIPLE_CHOICE_SINGLE | TRUE_FALSE =>
      match singleLetterMatch answerText with
      | Some l => (Some (AString (String (Char.toUpper l) "")), [])
      | None => (None, [ExpectedSingleLetter n answerText])
      end
  | MULTIPLE_CHOICE_MULTI =>
      match lettersMatch (Str.toUpperCase answerText) with
      | [] => (None, [ExpectedMultipleLetters n answerText])
      | multiMatch => (Some (AStrings (sort (unique [] multiMatch))), [])
      end
  | FILL_IN_BLANK_TEXT | SHORT_ANSWER | ESSAY =>
      let parsedAnswerData := splitAnswers answerText in
      (Some (AStrings parsedAnswerData),
       if nonempty parsedAnswerData then [] else [ParsedEmptyAnswers n answerText])
  | FILL_IN_BLANK_NUMERIC =>
      match parseFloat answerText with
      | Some num => (Some (ANumber num), [])
      | None => (None, [ExpectedNumericAnswer n answerText])
      end
  | MATCHING =>
      let '(parsedAnswerData, ws) :=
        matchingPairs n (Str.split is_comma_or_semicolon answerText) in
      if nonempty parsedAnswerData then (Some (APairs parsedAnswerData), ws)
      else (None, ws ++ [NoValidMatchingPairs n answerText])
  | ORDERING =>
      let sequence :=
        List.filter (fun a => negb (Str.is_empty a))
          (Str.trim <$>
            (if Str.includes "," answerText || Str.includes ";" answerText
             then Str.split is_comma_or_semicolon answerText
             else Str.split_runs Char.is_space false answerText)) in
      if nonempty sequence then (Some (AStrings sequence), [])
      else (None, [NoOrderingSequence n answerText])
  end.

(** [parseAnswerLine], reading the global type map *)
Definition parseAnswerLine (questionTypes : gmap N QuestionType) (lineText : string)
    : option ParsedLine * list Warning :=
  if Str.is_empty lineText || Str.is_empty (Str.trim lineText) then (None, []) else
  let cleanedText := cleanAnswerKeyText lineText in
  match answerLineMatch cleanedText with
  | None => (None, [])
  | Some (digits, rest) =>
      let questionNumber := Str.parseInt digits in
      let answerText := Str.trim rest in
      match questionTypes !! questionNumber with
      | None => (None, [UnknownQuestionNumber questionNumber lineText])
      | Some ty =>
          let '(parsedAnswerData, ws) := decodeAnswer questionNumber ty answerText in
          (a ← parsedAnswerData; Some {| l_number := questionNumber; l_answer := a |}, ws)
      end
  end.

(** [getText] of a paragraph or list item: its text runs *)
Fixpoint textOfChildren (cs : list Child) : string :=
  match cs with
  | [] => ""
  | TEXT s :: cs' => s +:+ textOfChildren cs'
  | _ :: cs' => textOfChildren cs'
  end.
Definition getText (e : Element) : string := textOfChildren (getChildren e).

(** one line of the answer-key section, after the header *)
Definition recordAnswer (questionTypes : gmap N QuestionType) (text : string)
    (acc : gmap N AnswerData * list Warning) : gmap N AnswerData * list Warning :=
  let '(answers, log) := acc in
  let '(parsedLine, ws) := parseAnswerLine questionTypes text in
  match parsedLine with
  | Some pl =>
      (<[l_number pl := l_answer pl]> answers,
       log ++ ws ++ (if bool_decide (is_Some (answers !! l_number pl))
                     then [DuplicateAnswer (l_number pl)] else []))
  | None => (answers, log ++ ws)
  end.

(** the loop of [parseAnswerKey] over the children of the body *)
Fixpoint answerKeyLoop (questionTypes : gmap N QuestionType) (els : list Element)
    (foundKey : bool) (acc : gmap N AnswerData * list Warning)
    : bool * (gmap N AnswerData * list Warning) :=
  match els with
  | [] => (foundKey, acc)
  | child :: rest =>
      match getType child with
      | OTHER_ELEMENT => answerKeyLoop questionTypes rest foundKey acc
      | _ =>
          let text := Str.trim (getText child) in
          if negb foundKey && isAnswerKeyHeader text
          then answerKeyLoop questionTypes rest true acc
          else if foundKey && negb (Str.is_empty text)
          then answerKeyLoop questionTypes rest foundKey (recordAnswer questionTypes text acc)
          else answerKeyLoop questionTypes rest foundKey acc
      end
  end.

Definition parseAnswerKey (questionTypes : gmap N QuestionType) (body : Body)
    : gmap N AnswerData * list Warning :=
  let '(foundKey, (answers, log)) := answerKeyLoop questionTypes body false (∅, []) in
  (answers, if foundKey then log else log ++ [AnswerKeyHeaderNotFound]).

(** ** Code.gs: the combiner *)

(** A question with the answer data attached ([None] is [null]).  The
    source makes a flat copy of the question with one more property. *)
Record QuestionAnswer := {
  question : Question;
  correctAnswer : option AnswerData
}.

Definition combineQuestionsAndAnswers (qs : list Question) (answerMap : gmap N AnswerData)
    : list QuestionAnswer * list Warning :=
  ((fun q => {| question := q; correctAnswer := answerMap !! number q |}) <$> qs,
   omap (fun q => match answerMap !! number q with
                  | None => Some (NoAnswerInMap (number q))
                  | Some _ => None
                  end) qs).

(** ** Utilities.gs: text for the generated documents *)

(** [sanitizeHtml]: [None] is [null] or [undefined].  The four chained
    replacements are written as the source has them. *)
Definition sanitizeHtml (text : option string) : string :=
  match text with
  | None => ""
  | Some t =>
      Str.replace_class (Char.is_char (ascii_of_N 34)) Str.dq
        (Str.replace_class (Char.is_char ">") ">"
          (Str.replace_class (Char.is_char "<") "<"
            (Str.replace_class (Char.is_char "&") "&" t)))
  end.

Definition QTI_RESOURCES_PATH : string := "resources/".

(** [/\[IMG:([^\]]+)\]/g]: the identifiers of the successive matches.
    [skip] characters belong to the match found before. *)
Definition not_bracket (c : ascii) : bool := negb (Char.is_char "]" c).
Definition placeholderAt (s : string) : option string :=
  r ← Str.strip_prefix "[IMG:" s;
  '(imageId, r) ← Re.many1 not_bracket r;
  if Str.first_is (Char.is_char "]") r then Some imageId else None.
Fixpoint placeholderIds (skip : nat) (s : string) : list string :=
  match s with
  | "" => []
  | String _ s' =>
      match skip with
      | S k => placeholderIds k s'
      | O =>
          match placeholderAt s with
          | Some imageId => imageId :: placeholderIds (String.length imageId + 5) s'
          | None => placeholderIds 0 s'
          end
      end
  end.

(** the last image of the list with a given identifier, as the map built
    by the source keeps it *)
Definition imageMeta_of (questionImages : list ImageMeta) (imageId : string) : option ImageMeta :=
  last (List.filter (fun img => negb (Str.is_empty (id img)) && String.eqb (id img) imageId)
          questionImages).

Definition attr (name value : string) : string :=
  name +:+ "=" +:+ Str.dq +:+ value +:+ Str.dq.

Definition imgTag (imageMeta : ImageMeta) (file : string) : string :=
  let sanitizedPath := sanitizeHtml (Some (QTI_RESOURCES_PATH +:+ file)) in
  "<img " +:+ attr "src" sanitizedPath +:+ " " +:+ attr "alt" ""
  +:+ (if negb (N.eqb (width imageMeta) 0) && negb (N.eqb (height imageMeta) 0)
       then " " +:+ attr "width" (Str.of_N (width imageMeta))
            +:+ " " +:+ attr "height" (Str.of_N (height imageMeta))
       else "")
  +:+ " />".

(** [replaceImagePlaceholdersWithHtml].  The file names of the pipeline
    hold no dollar sign, so the tag is inserted literally. *)
Definition replaceImagePlaceholdersWithHtml (text : string) (questionImages : list ImageMeta)
    : string :=
  if Str.is_empty text || negb (nonempty questionImages) then text else
  foldl (fun processedText imageId =>
           match imageMeta_of questionImages imageId with
           | Some imageMeta =>
               match filename imageMeta with
               | Some file =>
                   if Str.is_empty file then processedText
                   else Str.replace_first (placeholder imageId) (imgTag imageMeta file)
                          processedText
               | None => processedText
               end
           | None => processedText
           end)
        text (placeholderIds 0 text).

(** ** QTIExport.gs: the multiple-choice and true/false item *)

Record Choice := { choiceIdent : string; optionHtml : string }.

Inductive ConditionVar :=
| varequal (respident value : string)
| not_varequal (respident value : string)
| other.

Record RespCondition := { conditionvar : ConditionVar; setvar_SCORE : N }.

(** The holes of the item template: what the generated document says. *)
Record Item := {
  itemIdent : string;
  title : string;
  stemHtml : string;
  responseIdent : string;
  choices : list Choice;
  respconditions : list RespCondition
}.

(** JavaScript truthiness of the answer data and its strict equality with
    a letter *)
Definition numberIsZero (literal : string) : bool :=
  Str.is_empty (Str.filter (fun c => Char.in_range 49 57 c)
                  (Str.take_while (fun c => negb (is_exp c)) literal))
  && negb (Str.includes "Infinity" literal).
Definition truthy (a : option AnswerData) : bool :=
  match a with
  | None => false
  | Some (AString s) => negb (Str.is_empty s)
  | Some (ANumber x) => negb (numberIsZero x)
  | Some (AStrings _) | Some (APairs _) => true
  end.
Definition is_letter (a : option AnswerData) (l : string) : bool :=
  match a with
  | Some (AString s) => String.eqb s l
  | _ => false
  end.

Definition cdata (s : string) : string := "<![CDATA[" +:+ s +:+ "]]>".

Definition plainOpt (l t : string) : Opt := {| letter := l; o_text := t; o_images := [] |}.

(** the choice of an option at position [index] *)
Definition choiceOf (index : nat) (opt : Opt) : Choice :=
  {| choiceIdent :=
       "choice_" +:+ (if Str.is_empty (letter opt) then Str.of_N (N.of_nat (index + 1))
                      else letter opt);
     optionHtml :=
       cdata (replaceImagePlaceholdersWithHtml
                (if Str.is_empty (o_text opt) then "Option " +:+ letter opt else o_text opt)
                (o_images opt)) |}.

(** the identifier left by the loop over the options: that of the last
    option whose letter is the answer *)
Definition matchingChoice (correct : option AnswerData) (opts : list Opt) : option string :=
  last (omap (fun '(index, opt) =>
                if truthy correct && negb (Str.is_empty (letter opt))
                   && is_letter correct (letter opt)
                then Some (choiceIdent (choiceOf index opt)) else None)
             (imap pair opts)).

(** the identifier of the first option, the default *)
Definition firstChoice (opts : list Opt) : option string :=
  match opts with
  | [] => None
  | o :: _ => Some ("choice_" +:+ (if Str.is_empty (letter o) then "1" else letter o))
  end.

Definition QTI_createMultipleChoiceSingleItem (q : QuestionAnswer) (itemIdent : string) : Item :=
  let questionNumber :=
    if N.eqb (number (question q)) 0
    then nth 1 (Str.split (Char.is_char "_") itemIdent) "undefined"
    else Str.of_N (number (question q)) in
  let responseIdent := "response_" +:+ itemIdent in
  let stemText :=
    replaceImagePlaceholdersWithHtml
      (if Str.is_empty (text (question q)) then "Question " +:+ questionNumber
       else text (question q))
      (images (question q)) in
  let '(opts, correct) :=
    match options (question q) with
    | [] =>
        let opts :=
          if decide (type (question q) = TRUE_FALSE)
          then [plainOpt "T" "True"; plainOpt "F" "False"]
          else [plainOpt "A" "Option A"; plainOpt "B" "Option B"] in
        (opts,
         match correctAnswer q with
         | None => Some (AString (default "" (letter <$> head opts)))
         | a => a
         end)
    | opts => (opts, correctAnswer q)
    end in
  let correctChoiceIdentifier :=
    match matchingChoice correct opts with
    | Some c => Some c
    | None =>
        if truthy correct && nonempty opts then firstChoice opts
        else if nonempty opts then firstChoice opts
        else None
    end in
  {| itemIdent := itemIdent;
     title := "Question " +:+ questionNumber;
     stemHtml := cdata stemText;
     responseIdent := responseIdent;
     choices := imap choiceOf opts;
     respconditions :=
       match correctChoiceIdentifier with
       | Some c =>
           [ {| conditionvar := varequal responseIdent c; setvar_SCORE := 100 |};
             {| conditionvar := not_varequal responseIdent c; setvar_SCORE := 0 |} ]
       | None => [ {| conditionvar := other; setvar_SCORE := 0 |} ]
       end |}.

(** the text of the generated document *)
Definition lines (l : list string) : string := String.concat Str.lf l.

Definition choiceXml (c : Choice) : string :=
  "        <response_label " +:+ attr "ident" (choiceIdent c) +:+ " " +:+ attr "rshuffle" "No"
  +:+ ">" +:+ Str.lf
  +:+ "          <material><mattext " +:+ attr "texttype" "text/html" +:+ ">" +:+ optionHtml c
  +:+ "</mattext></material>" +:+ Str.lf
  +:+ "        </response_label>" +:+ Str.lf.

Definition respconditionXml (r : RespCondition) : list string :=
  match conditionvar r with
  | varequal respident value =>
      [ "    <respcondition " +:+ attr "continue" "No" +:+ ">";
        "      <conditionvar>";
        "        <varequal " +:+ attr "respident" respident +:+ ">" +:+ value +:+ "</varequal>";
        "      </conditionvar>";
        "      <setvar " +:+ attr "varname" "SCORE" +:+ " " +:+ attr "action" "Set" +:+ ">"
          +:+ Str.of_N (setvar_SCORE r) +:+ "</setvar> <!-- Assuming 100 points for correct -->";
        "    </respcondition>" ]
  | not_varequal respident value =>
      [ "    <!-- Optional: condition for incorrect response setting score to 0 -->";
        "    <respcondition " +:+ attr "continue" "No" +:+ ">";
        "        <conditionvar>";
        "           <not><varequal " +:+ attr "respident" respident +:+ ">" +:+ value
          +:+ "</varequal></not>";
        "        </conditionvar>";
        "        <setvar " +:+ attr "varname" "SCORE" +:+ " " +:+ attr "action" "Set" +:+ ">"
          +:+ Str.of_N (setvar_SCORE r) +:+ "</setvar>";
        "    </respcondition>" ]
  | other =>
      [ "    <!-- No correct answer identified, setting score to 0 -->";
        "    <respcondition " +:+ attr "continue" "No" +:+ ">";
        "        <conditionvar><other/></conditionvar>";
        "        <setvar " +:+ attr "varname" "SCORE" +:+ " " +:+ attr "action" "Set" +:+ ">"
          +:+ Str.of_N (setvar_SCORE r) +:+ "</setvar>";
        "    </respcondition>" ]
  end.

Definition itemXml (it : Item) : string :=
  lines (
    [ "<?xml " +:+ attr "version" "1.0" +:+ " " +:+ attr "encoding" "UTF-8" +:+ "?>";
      "<item " +:+ attr "ident" (itemIdent it) +:+ " " +:+ attr "title" (title it) +:+ ">";
      "  <itemmetadata>";
      "    <qtimetadata>";
      "      <qtimetadatafield><fieldlabel>qmd_itemtype</fieldlabel>"
        +:+ "<fieldentry>Multiple Choice</fieldentry></qtimetadatafield>";
      "    </qtimetadata>";
      "  </itemmetadata>";
      "  <presentation>";
      "    <material>";
      "      <mattext " +:+ attr "texttype" "text/html" +:+ ">" +:+ stemHtml it +:+ "</mattext>";
      "    </material>";
      "    <response_lid " +:+ attr "ident" (responseIdent it) +:+ " "
        +:+ attr "rcardinality" "Single" +:+ ">";
      "      <render_choice " +:+ attr "shuffle" "No" +:+ ">";
      String.concat "" (choiceXml <$> choices it);
      "      </render_choice>";
      "    </response_lid>";
      "  </presentation>";
      "  <resprocessing>";
      "    <outcomes>";
      "      <decvar " +:+ attr "varname" "SCORE" +:+ " " +:+ attr "vartype" "Decimal" +:+ " "
        +:+ attr "minvalue" "0" +:+ " " +:+ attr "maxvalue" "100" +:+ " "
        +:+ attr "defaultval" "0" +:+ "/>";
      "    </outcomes>";
      "    " ]
    ++ mjoin (respconditionXml <$> respconditions it)
    ++ [ "    ";
         "  </resprocessing>";
         "</item>" ]).

(** ** Code.gs: the orchestrator *)

(** What a [catch] receives: an [AppError] with its two messages, or a
    plain [Error]. *)
Inductive Exception :=
| AppError (internalMessage userMessage : string)
| Error (message : string).

Record ExportResult := {
  e_success : bool;
  e_fileUrl : string;
  e_message : string
}.

Record ConversionResult := {
  success : bool;
  fileUrl : option string;
  message : string
}.

(** What a run does to the outside: the project folder it creates, the
    export backend it calls, the alert it shows. *)
Inductive Event :=
| CreatedProjectFolder (name : string)
| CalledExport (combinedData : list QuestionAnswer) (allImages : list ImageMeta)
| Alert (title message : string).

Definition calledExport (e : Event) : bool :=
  match e with CalledExport _ _ => true | _ => false end.

(** the class of characters replaced in the name of the project folder:
    slash, backslash, question mark, percent, star, colon, bar, double
    quote, angle brackets *)
Definition is_unsafe_in_name (c : ascii) : bool :=
  Char.is_char "/" c || Char.is_char "\" c || Char.is_char "?" c || Char.is_char "%" c
  || Char.is_char "*" c || Char.is_char ":" c || Char.is_char "|" c
  || Char.is_char (ascii_of_N 34) c || Char.is_char "<" c || Char.is_char ">" c.

Section Orchestrator.

(** The export backend, [QTIExport_createQTIPackage]: it writes the
    package to the Drive and reports. *)
Variable QTIExport_createQTIPackage :
  list QuestionAnswer -> list ImageMeta -> string -> ExportResult.

(** the [try] block of [startConversion] *)
Definition conversion (uuid : nat -> N) (docName timestamp : string) (body : Body)
    : (Exception + ConversionResult) * list Event :=
  let safeDocName := Str.replace_class is_unsafe_in_name "-" docName in
  let folder := CreatedProjectFolder (safeDocName +:+ " - QTI 1.2 - " +:+ timestamp) in
  let parsed := parseQuestions uuid body in
  if negb (nonempty (p_questions parsed)) then
    (inl (AppError "Parsing Error" "No questions could be parsed from the document."),
     [folder])
  else
    let '(answerMap, _) := parseAnswerKey (p_questionTypes parsed) body in
    let '(combinedData, _) := combineQuestionsAndAnswers (p_questions parsed) answerMap in
    let exportResult := QTIExport_createQTIPackage combinedData (p_images parsed) docName in
    let events := [folder; CalledExport combinedData (p_images parsed)] in
    if negb (e_success exportResult) then
      (inl (Error ("QTI package creation failed. Reason: " +:+ e_message exportResult)),
       events)
    else
      (inr {| success := true;
              fileUrl := Some (e_fileUrl exportResult);
              message := "Conversion to QTI 1.2 completed successfully for "
                         +:+ Str.of_N (N.of_nat (length combinedData)) +:+ " questions." |},
       events).

(** [startConversion]: the [catch] turns an exception into an alert and a
    failure result. *)
Definition startConversion (uuid : nat -> N) (docName timestamp : string) (body : Body)
    : ConversionResult * list Event :=
  match conversion uuid docName timestamp body with
  | (inr r, events) => (r, events)
  | (inl e, events) =>
      let userMessage :=
        match e with
        | AppError _ userMessage => userMessage
        | Error m => "An unexpected error occurred: " +:+ m
        end in
      ({| success := false; fileUrl := None; message := "Error: " +:+ userMessage |},
       events ++ [Alert "QTI Conversion Error" userMessage])
  end.

End Orchestrator.

(** the whole pipeline up to the combiner *)
Definition pipeline (uuid : nat -> N) (body : Body) : list QuestionAnswer :=
  let parsed := parseQuestions uuid body in
  let '(answerMap, _) := parseAnswerKey (p_questionTypes parsed) body in
  fst (combineQuestionsAndAnswers (p_questions parsed) answerMap).

(** the identifier that [QTIExport_createQTIPackage] gives the item of the
    question at position [index] *)
Definition itemIdentifier (index : nat) (q : QuestionAnswer) : string :=
  "item_" +:+ Str.of_N (if N.eqb (number (question q)) 0 then N.of_nat (index + 1)
                        else number (question q)).

(** the conditions of an item that set SCORE to the full value *)
Definition fullScore (it : Item) : list ConditionVar :=
  conditionvar <$> List.filter (fun r => N.eqb (setvar_SCORE r) 100) (respconditions it).

(** ** ImageHandling.gs *)

(** [[a-z0-9.]], the characters that [sanitizeImageFilename] keeps *)
Definition is_filename_char (c : ascii) : bool :=
  Char.is_lower c || Char.is_digit c || Char.is_char "." c.

(** [s.replace(/_$/, "")] *)
Fixpoint drop_last_underscore (s : string) : string :=
  match s with
  | "" => ""
  | String c s' =>
      if Str.is_empty s' then (if Char.is_char "_" c then "" else s)
      else String c (drop_last_underscore s')
  end.

(** [s.replace(/^_|_$/g, "")]: an underscore at the start is removed, and
    one at the end of what follows *)
Definition trim_underscores (s : string) : string :=
  match s with
  | "" => ""
  | String c r => if Char.is_char "_" c then drop_last_underscore r else drop_last_underscore s
  end.

Definition sanitizeImageFilename (originalName : string) : string :=
  trim_underscores
    (Str.replace_runs (Char.is_char "_") "_" false
       (Str.replace_class (fun c => negb (is_filename_char c)) "_"
          (Str.toLowerCase originalName))).

(** ** QTIExport.gs: the images of the package *)

(** The name tried after [finalFilename] was found taken:
    [nameParts = finalFilename.split('.')], [ext = nameParts.pop() || 'png'],
    then the name parts joined again, the counter and the extension. *)
Definition withCounter (finalFilename : string) (counter : N) : string :=
  let nameParts := Str.split (Char.is_char ".") finalFilename in
  let popped := default "" (last nameParts) in
  let ext := if Str.is_empty popped then "png" else popped in
  String.concat "." (removelast nameParts) +:+ "_" +:+ Str.of_N counter +:+ "." +:+ ext.

(** The loop [while (seenFilenames.has(finalFilename))], for at most
    [fuel] rounds. *)
Fixpoint uniqueFilename (fuel : nat) (seenFilenames : list string)
    (finalFilename : string) (counter : N) : option string :=
  if bool_decide (finalFilename ∈ seenFilenames) then
    match fuel with
    | O => None
    | S fuel' =>
        uniqueFilename fuel' seenFilenames (withCounter finalFilename counter) (counter + 1)
    end
  else Some finalFilename.

(** [map.set(k, v)] on a map kept in the order of insertion *)
Definition mapSet (k v : string) (m : list (string * string)) : list (string * string) :=
  if existsb (fun e => String.eqb (fst e) k) m
  then (fun e => if String.eqb (fst e) k then (k, v) else e) <$> m
  else m ++ [(k, v)].

(** the file name of an image that passes the check of the loop: an
    identifier and a file name that are not empty *)
Definition validFilename (imgMeta : ImageMeta) : option string :=
  if Str.is_empty (id imgMeta) then None
  else match filename imgMeta with
       | Some f => if Str.is_empty f then None else Some f
       | None => None
       end.

(** What the loop has built: the map from identifiers to final names and
    the set of names seen, which are the names of the files created in the
    resources folder, in the order of their creation. *)
Record Copied := {
  imageFilenameMap : list (string * string);
  seenFilenames : list string
}.

Section CopyImages.

(** whether the Drive creates the file of a blob under a name; when it
    throws, the image is left out *)
Variable createFile : string -> Blob -> bool.

(** One image of the loop.  The rounds of the inner loop are bounded by the
    number of names seen: every round makes the name longer. *)
Definition copyImage (st : Copied) (imgMeta : ImageMeta) : Copied :=
  match validFilename imgMeta with
  | None => st
  | Some f =>
      match uniqueFilename (length (seenFilenames st)) (seenFilenames st) f 1 with
      | Some finalFilename =>
          if createFile finalFilename (blob imgMeta)
          then {| imageFilenameMap := mapSet (id imgMeta) finalFilename (imageFilenameMap st);
                  seenFilenames := seenFilenames st ++ [finalFilename] |}
          else st
      | None => st
      end
  end.

Definition QTI_processAndCopyImages (allImages : list ImageMeta) : Copied :=
  foldl copyImage {| imageFilenameMap := []; seenFilenames := [] |} allImages.

End CopyImages.

(** ** QTIExport.gs: the other items *)

(** [q.number || itemIdent.split('_')[1]], printed *)
Definition questionNumberOf (q : QuestionAnswer) (itemIdent : string) : string :=
  if N.eqb (number (question q)) 0
  then nth 1 (Str.split (Char.is_char "_") itemIdent) "undefined"
  else Str.of_N (number (question q)).

(** the stem with its image tokens replaced *)
Definition stemTextOf (q : QuestionAnswer) (itemIdent : string) : string :=
  replaceImagePlaceholdersWithHtml
    (if Str.is_empty (text (question q)) then "Question " +:+ questionNumberOf q itemIdent
     else text (question q))
    (images (question q)).

(** the blank shown after a stem that has none *)
Definition withBlank (stemText : string) : string :=
  if negb (Str.includes "_____" stemText) && negb (Str.includes "[blank]" stemText)
  then stemText +:+ " _____" else stemText.

(** The holes of the fill-in-the-blank template.  [fib_correctAnswers] are
    the values of the [varequal] elements; when there is none the template
    has the one condition [other] that sets SCORE to 0. *)
Record FibItem := {
  fib_itemIdent : string;
  fib_title : string;
  fib_stemHtml : string;
  fib_responseIdent : string;
  fib_correctAnswers : list string
}.

(** the answers of the loop over [q.correctAnswer]: the strings of an
    array that are not blank, trimmed and sanitized *)
Definition acceptedAnswers (correctAnswer : option AnswerData) : list string :=
  match correctAnswer with
  | Some (AStrings l) =>
      omap (fun ans =>
              if negb (Str.is_empty ans) && negb (Str.is_empty (Str.trim ans))
              then Some (sanitizeHtml (Some (Str.trim ans))) else None) l
  | _ => []
  end.

Definition QTI_createFillInBlankTextItem (q : QuestionAnswer) (itemIdent : string) : FibItem :=
  {| fib_itemIdent := itemIdent;
     fib_title := "Question " +:+ questionNumberOf q itemIdent;
     fib_stemHtml := cdata (withBlank (stemTextOf q itemIdent));
     fib_responseIdent := "response_" +:+ itemIdent;
     fib_correctAnswers := acceptedAnswers (correctAnswer q) |}.

(** The holes of the numeric template.  [num_correctAnswer] is the number
    of the [varequal] element, held as the literal it was read from. *)
Record NumericItem := {
  num_itemIdent : string;
  num_title : string;
  num_stemHtml : string;
  num_responseIdent : string;
  num_correctAnswer : option string
}.

Definition QTI_createFillInBlankNumericItem (q : QuestionAnswer) (itemIdent : string)
    : NumericItem :=
  {| num_itemIdent := itemIdent;
     num_title := "Question " +:+ questionNumberOf q itemIdent;
     num_stemHtml := cdata (withBlank (stemTextOf q itemIdent));
     num_responseIdent := "response_" +:+ itemIdent;
     num_correctAnswer :=
       match correctAnswer q with
       | Some (ANumber x) => Some x
       | _ => None
       end |}.

(** The holes of the essay template. *)
Record EssayItem := {
  essay_itemIdent : string;
  essay_title : string;
  essay_stemHtml : string;
  essay_responseIdent : string
}.

Definition QTI_createEssayItem (q : QuestionAnswer) (itemIdent : string) : EssayItem :=
  {| essay_itemIdent := itemIdent;
     essay_title := "Question " +:+ questionNumberOf q itemIdent;
     essay_stemHtml := cdata (stemTextOf q itemIdent);
     essay_responseIdent := "response_" +:+ itemIdent |}.

(** a [response_label] element: its identifier and its text *)
Record Label := { labelIdent : string; labelHtml : string }.

(** [opt.letter || opt.text], the key of an option in the maps of the
    matching and ordering items, and [opt.letter || index + 1] *)
Definition keyOf (opt : Opt) : string :=
  if Str.is_empty (letter opt) then o_text opt else letter opt.
Definition letterOrIndex (index : nat) (opt : Opt) : string :=
  if Str.is_empty (letter opt) then Str.of_N (N.of_nat (index + 1)) else letter opt.

(** the loop over the options: an option without a key is skipped; the
    others give a key with its identifier, and a label *)
Definition keyedLabels (prefix : string) (opts : list Opt) : list (string * Label) :=
  omap (fun '(index, opt) =>
          if Str.is_empty (keyOf opt) then None
          else Some (keyOf opt,
                     {| labelIdent := prefix +:+ letterOrIndex index opt;
                        labelHtml :=
                          cdata (replaceImagePlaceholdersWithHtml (o_text opt) (o_images opt)) |}))
       (imap pair opts).

(** [map.get(k)] for the map that the loop fills: the identifier set last
    for the key *)
Definition identOf (keyed : list (string * Label)) (k : string) : option string :=
  (fun e => labelIdent (snd e)) <$> last (List.filter (fun e => String.eqb (fst e) k) keyed).

(** [[a-zA-Z0-9]] *)
Definition is_alnum (c : ascii) : bool := Char.is_alpha c || Char.is_digit c.

(** the responses of the correct pairs: each value once, sorted, the empty
    one skipped.  An identifier is the value with every other character
    replaced by an underscore, which is not empty, so that the index the
    source falls back on is never used. *)
Definition uniqueResponses (pairs : list Pair) : list string :=
  List.filter (fun v => negb (Str.is_empty v)) (sort (unique [] (response <$> pairs))).
Definition responseIdentOf (responseVal : string) : string :=
  "response_" +:+ Str.replace_class (fun c => negb (is_alnum c)) "_" responseVal.

(** the pair of identifiers of a correct pair, when both sides are known *)
Definition pairIdents (keyed : list (string * Label)) (responses : list string) (p : Pair)
    : option string :=
  pIdent ← identOf keyed (premise p);
  if bool_decide (response p ∈ responses)
  then Some (pIdent +:+ "." +:+ responseIdentOf (response p)) else None.

(** The holes of the matching template. *)
Record MatchingItem := {
  match_itemIdent : string;
  match_title : string;
  match_stemHtml : string;
  match_responseIdent : string;
  match_premises : list Label;
  match_responses : list Label;
  match_correctPairs : string
}.

(** [None] is [null].  An answer that is an array of strings passes the
    guard, finds no pair and ends in [null] as well. *)
Definition QTI_createMatchingItem (q : QuestionAnswer) (itemIdent : string)
    : option MatchingItem :=
  match options (question q), correctAnswer q with
  | _ :: _, Some (APairs ((_ :: _) as pairs)) =>
      let keyed := keyedLabels "premise_" (options (question q)) in
      let responses := uniqueResponses pairs in
      let correctPairsString := String.concat " " (omap (pairIdents keyed responses) pairs) in
      if Str.is_empty correctPairsString then None
      else Some {|
        match_itemIdent := itemIdent;
        match_title := "Question " +:+ questionNumberOf q itemIdent;
        match_stemHtml := cdata (stemTextOf q itemIdent);
        match_responseIdent := "response_" +:+ itemIdent;
        match_premises := snd <$> keyed;
        match_responses :=
          (fun v => {| labelIdent := responseIdentOf v; labelHtml := cdata v |}) <$> responses;
        match_correctPairs := correctPairsString |}
  | _, _ => None
  end.

(** The holes of the ordering template. *)
Record OrderingItem := {
  order_itemIdent : string;
  order_title : string;
  order_stemHtml : string;
  order_responseIdent : string;
  order_choices : list Label;
  order_correctSequence : string
}.

(** An answer that is an array of pairs passes the guard, maps none of
    its items and ends in [null]. *)
Definition QTI_createOrderingItem (q : QuestionAnswer) (itemIdent : string)
    : option OrderingItem :=
  match options (question q), correctAnswer q with
  | _ :: _, Some (AStrings ((_ :: _) as sequence)) =>
      let keyed := keyedLabels "choice_" (options (question q)) in
      let correctSequenceIdents := omap (identOf keyed) sequence in
      if negb (Nat.eqb (length correctSequenceIdents) (length sequence)) then None
      else Some {|
        order_itemIdent := itemIdent;
        order_title := "Question " +:+ questionNumberOf q itemIdent;
        order_stemHtml := cdata (stemTextOf q itemIdent);
        order_responseIdent := "response_" +:+ itemIdent;
        order_choices := snd <$> keyed;
        order_correctSequence := String.concat " " correctSequenceIdents |}
  | _, _ => None
  end.

(** What [QTI_createItemXML] returns: the item of the generator for the
    type of the question, or nothing. *)
Inductive ItemDoc :=
| MultipleChoiceDoc (it : Item)
| FillInBlankDoc (it : FibItem)
| NumericDoc (it : NumericItem)
| EssayDoc (it : EssayItem)
| MatchingDoc (it : MatchingItem)
| OrderingDoc (it : OrderingItem).

Definition QTI_createItemXML (q : QuestionAnswer) (itemIdent : string) : option ItemDoc :=
  match type (question q) with
  | MULTIPLE_CHOICE_SINGLE | TRUE_FALSE =>
      Some (MultipleChoiceDoc (QTI_createMultipleChoiceSingleItem q itemIdent))
  | FILL_IN_BLANK_TEXT | SHORT_ANSWER =>
      Some (FillInBlankDoc (QTI_createFillInBlankTextItem q itemIdent))
  | FILL_IN_BLANK_NUMERIC => Some (NumericDoc (QTI_createFillInBlankNumericItem q itemIdent))
  | ESSAY => Some (EssayDoc (QTI_createEssayItem q itemIdent))
  | MATCHING => MatchingDoc <$> QTI_createMatchingItem q itemIdent
  | ORDERING => OrderingDoc <$> QTI_createOrderingItem q itemIdent
  | MULTIPLE_CHOICE_MULTI => None
  end.

(** the loop of [QTIExport_createQTIPackage] over the questions: the
    identifiers kept for the assessment and the manifest, each with the
    item written under it *)
Definition packageItems (questionsData : list QuestionAnswer) : list (string * ItemDoc) :=
  omap (fun '(index, q) =>
          let itemIdentifier := itemIdentifier index q in
          itemXml ← QTI_createItemXML q itemIdentifier;
          Some (itemIdentifier, itemXml))
       (imap pair questionsData).

(** * Vocabulary of the properties *)

(** ** Stems, items and answers *)

(** the stem matches none of the keyword rules of [inferQuestionType] *)
Definition noKeyword (text : string) : Prop :=
  let upperText := Str.toUpperCase text in
  re_true_false upperText = false /\
  Str.includes "TRUE/FALSE" upperText = false /\
  has_word "MATCHING" upperText = false /\
  re_match_start text = false /\
  has_word "ORDERING" upperText = false /\
  has_word "ORDER" upperText = false /\
  has_word "SEQUENCE" upperText = false /\
  Str.includes "___" text = false.

Definition hasLetter (l : string) (opts : list Opt) : Prop := l ∈ letters_of opts.

Definition trueFalseOptionsDoc : Body :=
  paragraph <$> ["1. The sky is blue."; "T. True"; "F. False"].

(** a question with a single option *)
Definition oneOptionDoc : Body := paragraph <$> ["1. Capital of France?"; "A. Paris"].

(** a text and what is put after it: a word at the end of the text stays
    a word *)
Definition wordKept (s u : string) : Prop :=
  Str.last_is Char.is_word s = false \/ Str.first_is Char.is_word u = false.

(** the stem of a draft continues the text that stood behind its marker *)
Definition continues (start t : string) : Prop :=
  exists u, t = start +:+ u /\ wordKept start u.

(** the type of a draft whose first line was given the type [t0], once it
    has the options [opts] *)
Definition typeFrom (t0 : QuestionType) (opts : list Opt) : QuestionType :=
  match opts with
  | [] => t0
  | _ :: _ => if keeps_type t0 then t0 else MULTIPLE_CHOICE_SINGLE
  end.

(** a draft started with some first line, whose type follows from the type
    of that line and from its options *)
Definition typedFromStart (q : Question) : Prop :=
  exists start, continues start (text q)
                /\ type q = typeFrom (inferQuestionType start []) (options q).

(** a matcher, or a continuation, that still matches when the text is
    continued *)
Definition lasting (M : bool -> string -> bool) : Prop :=
  forall pw s u, wordKept s u -> M pw s = true -> M pw (s +:+ u) = true.

Definition lastingRest (k : string -> bool) : Prop :=
  forall s u, wordKept s u -> k s = true -> k (s +:+ u) = true.

Definition oneOptionEntry : QuestionAnswer :=
  {| question := {| number := 1; type := MULTIPLE_CHOICE_SINGLE; text := "Pick";
                    options := [plainOpt "A" "first"]; images := []; hasImages := false |};
     correctAnswer := Some (AString "A") |}.

(** the two choices generated for an entry without options *)
Definition placeholderChoices (ty : QuestionType) : list Choice :=
  if decide (ty = TRUE_FALSE)
  then [ {| choiceIdent := "choice_T"; optionHtml := "<![CDATA[True]]>" |};
         {| choiceIdent := "choice_F"; optionHtml := "<![CDATA[False]]>" |} ]
  else [ {| choiceIdent := "choice_A"; optionHtml := "<![CDATA[Option A]]>" |};
         {| choiceIdent := "choice_B"; optionHtml := "<![CDATA[Option B]]>" |} ].

(** the scoring of an item whose correct choice is [c] *)
Definition scoring (it : Item) (c : Choice) : list RespCondition :=
  [ {| conditionvar := varequal (responseIdent it) (choiceIdent c); setvar_SCORE := 100 |};
    {| conditionvar := not_varequal (responseIdent it) (choiceIdent c); setvar_SCORE := 0 |} ].

Definition unansweredEntry : QuestionAnswer :=
  {| question := {| number := 2; type := TRUE_FALSE; text := "The sky is blue.";
                    options := []; images := []; hasImages := false |};
     correctAnswer := None |}.

(** the pair tokens of a payload and the pairs that the well-formed ones
    contribute *)
Definition pairTokens (payload : string) : list string :=
  Str.split is_comma_or_semicolon payload.

Definition pairsOf (tokens : list string) : list Pair :=
  omap (fun t => pairMatch (Str.trim t)) tokens.

Definition matchingTypes : gmap N QuestionType := {[ 2%N := MATCHING ]}.

Definition optionA : Opt := plainOpt "A" "3".

Definition optionB : Opt := plainOpt "B" "4".

Definition entryA : QuestionAnswer :=
  {| question := {| number := 1; type := MULTIPLE_CHOICE_SINGLE; text := "What is 2+2?";
                    options := [optionA; optionB]; images := []; hasImages := false |};
     correctAnswer := Some (AString "B") |}.

Definition answersHeaderDoc : Body :=
  paragraph <$> ["1. What is 2+2?"; "A. 3"; "B. 4"; "Answers"; "1. B"].

(** ** The block stream of the structural parser *)

(** the blocks that [processElement] makes of the elements, the counter of
    minted identifiers threaded through *)
Fixpoint blocks (uuid : nat -> N) (k : nat) (els : list Element) : list ElementData :=
  match els with
  | [] => []
  | e :: rest =>
      let '(d, k') := processElement uuid k e in
      d :: blocks uuid k' rest
  end.

Definition isEmptyBlock (d : ElementData) : bool :=
  Str.is_empty (e_text d) && negb (nonempty (e_images d)).

(** the loop of [parseQuestions] over blocks already made *)
Fixpoint blockLoop (i : nat) (ds : list ElementData) (st : ParseState) : ParseState :=
  match ds with
  | [] => st
  | d :: rest =>
      if isEmptyBlock d then blockLoop (S i) rest st
      else if re_answer_key (e_text d) then st
      else blockLoop (S i) rest (step i d st)
  end.

(** the blocks that the structural parser consumes: those that are not
    empty, up to the answer-key header *)
Fixpoint questionBlocks (ds : list ElementData) : list ElementData :=
  match ds with
  | [] => []
  | d :: rest =>
      if isEmptyBlock d then questionBlocks rest
      else if re_answer_key (e_text d) then []
      else d :: questionBlocks rest
  end.

(** the number of the leading-integer marker of a block, if it has one *)
Definition markerNumber (d : ElementData) : option N :=
  (fun m => Str.parseInt (fst m)) <$> questionStartMatch (e_text d).

Definition markerNumbers (ds : list ElementData) : list N :=
  omap markerNumber (questionBlocks ds).

(** the numbers of the drafts of a state, finalized or current *)
Definition draftNumbers (st : ParseState) : list N :=
  (number <$> questions st) ++ option_list (number <$> currentQuestion st).

(** [parseQuestions] on blocks *)
Definition parseBlocks (ds : list ElementData) : Parsed :=
  let st := blockLoop 0 ds initialState in
  let qs := push_finalized st (accumulatedImages st) in
  {| p_questions := qs;
     p_images := allImages st;
     p_questionTypes := questionTypes st;
     p_warnings :=
       if nonempty qs then [] else ["No numbered questions were found in the document."] |}.

Definition repeatedMarkerDoc : Body := paragraph <$> ["1. first"; "1. second"].

(** no block of the document has a leading integer marker *)
Definition noMarkers (uuid : nat -> N) (body : Body) : Prop :=
  Forall (fun d => questionStartMatch (e_text d) = None) (blocks uuid 0 body).

Definition preambleOnlyDoc : Body := paragraph <$> ["Quiz"; "Answer Key"; "1. B"].

Definition nullBackend (_ : list QuestionAnswer) (_ : list ImageMeta) (_ : string)
    : ExportResult :=
  {| e_success := true; e_fileUrl := "https://drive.example/file"; e_message := "" |}.

Definition noQuestionsDoc : Body := paragraph <$> ["Quiz"; "Read carefully"; "Answer Key"].

(** what the parser returns when it finds no question *)
Definition noQuestionsParsed : Parsed :=
  {| p_questions := []; p_images := []; p_questionTypes := ∅;
     p_warnings := ["No numbered questions were found in the document."] |}.

(** ** The lines of the answer key *)

Definition isTextElement (e : Element) : bool :=
  match getType e with OTHER_ELEMENT => false | _ => true end.

(** the trimmed texts of the paragraphs and list items of the body *)
Definition lineTexts (body : Body) : list string :=
  (fun e => Str.trim (getText e)) <$> List.filter isTextElement body.

(** what follows the first answer-key header *)
Fixpoint afterHeader (texts : list string) : list string :=
  match texts with
  | [] => []
  | t :: rest => if isAnswerKeyHeader t then rest else afterHeader rest
  end.

(** the lines of the answer-key section *)
Definition answerLines (body : Body) : list string :=
  List.filter (fun t => negb (Str.is_empty t)) (afterHeader (lineTexts body)).

(** the successfully decoded lines, in the order of the document, and
    those of them that carry the number [n] *)
Definition decodedLines (types : gmap N QuestionType) (lines : list string) : list ParsedLine :=
  omap (fun t => fst (parseAnswerLine types t)) lines.

Definition decodedFor (n : N) (l : list ParsedLine) : list ParsedLine :=
  List.filter (fun pl => N.eqb (l_number pl) n) l.

Definition recordAll (types : gmap N QuestionType) (lines : list string)
    (acc : gmap N AnswerData * list Warning) : gmap N AnswerData * list Warning :=
  foldl (fun acc t => recordAnswer types t acc) acc lines.

Definition mcTypes : gmap N QuestionType := {[ 1%N := MULTIPLE_CHOICE_SINGLE ]}.

Definition duplicateKeyDoc : Body :=
  paragraph <$> ["1. Pick"; "A. x"; "B. y"; "Answer Key"; "1. A"; "1. B"].

(** ** Texts up to image identifiers *)

(** a character of an image identifier, as minted or in upper case *)
Definition idchar (c : ascii) : bool :=
  Char.is_digit c || Char.in_range 97 102 c || Char.in_range 65 70 c.

Fixpoint allid (s : string) : bool :=
  match s with
  | "" => true
  | String c s' => idchar c && allid s'
  end.

(** an image token before a text *)
Definition token (i s : string) : string := "[IMG:" +:+ i +:+ "]" +:+ s.

(** Two texts are related when they are built of the same characters, of
    the class [C], and of image tokens at the same places, whose
    identifiers are related by [T]. *)
Inductive related (C : ascii -> bool) (T : string -> string -> Prop)
    : string -> string -> Prop :=
| rel_nil : related C T "" ""
| rel_char c s t : C c = true -> related C T s t -> related C T (String c s) (String c t)
| rel_token i j s t : T i j -> related C T s t -> related C T (token i s) (token j t).

(** two identifiers of the same length *)
Definition anyIds (i j : string) : Prop :=
  allid i = true /\ allid j = true /\ String.length i = String.length j.

Definition anyChar (c : ascii) : bool := true.

(** The same text up to image identifiers. *)
Definition sameText : string -> string -> Prop := related anyChar anyIds.

(** where a suffix of a text begins: outside a token, inside the opening
    of a token with [r] and the colon still to come, or inside the
    identifier *)
Inductive Pos := Out | Opening (r : string) | InId.

(** the two texts read in step, from a position on *)
Inductive aligned : Pos -> string -> string -> Prop :=
| al_nil : aligned Out "" ""
| al_char c s t : aligned Out s t -> aligned Out (String c s) (String c t)
| al_bracket s t : aligned (Opening "IMG") s t -> aligned Out (String "[" s) (String "[" t)
| al_opening c r s t :
    aligned (Opening r) s t -> aligned (Opening (String c r)) (String c s) (String c t)
| al_colon s t : aligned InId s t -> aligned (Opening "") (String ":" s) (String ":" t)
| al_id a b s t :
    idchar a = true -> idchar b = true -> aligned InId s t ->
    aligned InId (String a s) (String b t)
| al_close s t : aligned Out s t -> aligned InId (String "]" s) (String "]" t).

(** two optional results that agree: both fail, or both succeed with
    related values *)
Inductive agree {A} (R : A -> A -> Prop) : option A -> option A -> Prop :=
| agree_none : agree R None None
| agree_some a b : R a b -> agree R (Some a) (Some b).

(** a word without the character [d] *)
Fixpoint lacks (d : ascii) (w : string) : bool :=
  match w with
  | "" => true
  | String c w' => negb (Char.is_char d c) && lacks d w'
  end.

Fixpoint allChars (C : ascii -> bool) (s : string) : bool :=
  match s with
  | "" => true
  | String c s' => C c && allChars C s'
  end.

(** the result of a match that cuts a text: the same capture, related
    rests *)
Definition relatedRest (C : ascii -> bool) (T : string -> string -> Prop) {A}
    (x y : A * string) : Prop :=
  fst x = fst y /\ related C T (snd x) (snd y).

(** a matcher that answers the same on the two texts, wherever it is
    tried *)
Definition respects (M : bool -> string -> bool) : Prop :=
  forall q s t pw, aligned q s t -> M pw s = M pw t.

(** a word that cannot be read inside an identifier: its first character
    that is not an identifier character is not the closing bracket *)
Fixpoint blocked (w : string) : bool :=
  match w with
  | "" => false
  | String c w' => if idchar c then blocked w' else negb (Char.is_char "]" c)
  end.

(** two rests of texts read in step that begin outside an identifier *)
Definition outside (r r' : string) : Prop :=
  exists q, q <> InId /\ aligned q r r'.

Definition relBlock (C : ascii -> bool) (T : string -> string -> Prop)
    (d d' : ElementData) : Prop :=
  related C T (e_text d) (e_text d') /\ length (e_images d) = length (e_images d').

Definition relOpt (C : ascii -> bool) (T : string -> string -> Prop) (o o' : Opt) : Prop :=
  letter o = letter o' /\ related C T (o_text o) (o_text o').

Definition relQuestion (C : ascii -> bool) (T : string -> string -> Prop)
    (q q' : Question) : Prop :=
  number q = number q' /\ type q = type q' /\ related C T (text q) (text q')
  /\ Forall2 (relOpt C T) (options q) (options q').

(** the states of the loop in the two runs *)
Record relState (C : ascii -> bool) (T : string -> string -> Prop)
    (st st' : ParseState) : Prop := {
  rel_questions : Forall2 (relQuestion C T) (questions st) (questions st');
  rel_current : agree (relQuestion C T) (currentQuestion st) (currentQuestion st');
  rel_number : currentQuestionNumber st = currentQuestionNumber st';
  rel_types : questionTypes st = questionTypes st'
}.

Definition sameBlock : ElementData -> ElementData -> Prop := relBlock anyChar anyIds.

Definition sameQuestion : Question -> Question -> Prop := relQuestion anyChar anyIds.

(** the entries of the two runs: the same question up to identifiers,
    the same answer data *)
Definition sameEntry (e e' : QuestionAnswer) : Prop :=
  sameQuestion (question e) (question e') /\ correctAnswer e = correctAnswer e'.

(** ** Minted identifiers and images *)

(** the identifiers that a run mints for a document: one for each inline
    image of a paragraph or list item *)
Fixpoint countImages (cs : list Child) : nat :=
  match cs with
  | [] => 0
  | INLINE_IMAGE _ :: cs' => S (countImages cs')
  | _ :: cs' => countImages cs'
  end.

Definition mintedBy (e : Element) : nat :=
  match getType e with
  | OTHER_ELEMENT => 0
  | _ => countImages (getChildren e)
  end.

Fixpoint mintedIn (body : Body) : nat :=
  match body with
  | [] => 0
  | e :: rest => mintedBy e + mintedIn rest
  end.

(** the first [n] identifiers of a supply are pairwise distinct *)
Definition distinctIds (uuid : nat -> N) (n : nat) : Prop :=
  forall a b, a < n -> b < n -> uuid_string (uuid a) = uuid_string (uuid b) -> a = b.

(** a character that is not the opening bracket *)
Definition plainChar (c : ascii) : bool := negb (Char.is_char "[" c).

(** the text typed into an element: its text runs, one after the other *)
Fixpoint typedText (cs : list Child) : string :=
  match cs with
  | [] => ""
  | TEXT s :: cs' => s +:+ typedText cs'
  | _ :: cs' => typedText cs'
  end.

(** a text in which none of the first [n] identifiers of a supply occurs *)
Definition lacksIds (uuid : nat -> N) (n : nat) (s : string) : Prop :=
  forall k, k < n -> Str.includes (uuid_string (uuid k)) s = false.

(** no identifier of the supply occurs in the text typed into the
    document *)
Definition unseen (uuid : nat -> N) (n : nat) (body : Body) : Prop :=
  Forall (fun e => lacksIds uuid n (typedText (getChildren e))) body.

(** no identifier of one supply is an identifier of the other *)
Definition apart (uuid uuid' : nat -> N) (n : nat) : Prop :=
  forall a b, a < n -> b < n -> uuid_string (uuid a) <> uuid_string (uuid' b).

(** The identifiers that two runs mint for a document are fresh: those of
    a run are pairwise distinct, none occurs in the text typed into the
    document, and the second run mints none that the first one minted. *)
Record freshIds (uuid uuid' : nat -> N) (body : Body) : Prop := {
  fresh_distinct : distinctIds uuid (mintedIn body);
  fresh_distinct' : distinctIds uuid' (mintedIn body);
  fresh_unseen : unseen uuid (mintedIn body) body;
  fresh_unseen' : unseen uuid' (mintedIn body) body;
  fresh_apart : apart uuid uuid' (mintedIn body)
}.

(** a text that is a part of another *)
Definition within (x s : string) : Prop := exists a b, s = a +:+ x +:+ b.

(** a question whose stem and option texts hold no identifier of a
    supply *)
Definition cleanQuestion (uuid : nat -> N) (n : nat) (q : Question) : Prop :=
  lacksIds uuid n (text q) /\ Forall (fun o => lacksIds uuid n (o_text o)) (options q).

(** the k-th identifiers of two supplies *)
Definition corresponding (uuid uuid' : nat -> N) (n : nat) (i j : string) : Prop :=
  exists k, k < n /\ i = uuid_string (uuid k) /\ j = uuid_string (uuid' k).

(** the file names of an image in the two runs: none yet, or the names
    generated from the same question number, place and extension *)
Definition sameFilename (m m' : ImageMeta) : Prop :=
  match filename m, filename m' with
  | None, None => True
  | Some f, Some f' =>
      exists questionNumber context extension,
        f = generateImageFilename questionNumber (context +:+ Str.take 4 (id m)) (id m) extension
        /\ f' = generateImageFilename questionNumber (context +:+ Str.take 4 (id m')) (id m')
                  extension
  | _, _ => False
  end.

(** The metadata of one image in the two runs: corresponding identifiers,
    the same data and size, and names that differ through the identifier
    only. *)
Definition sameImage (uuid uuid' : nat -> N) (n : nat) (m m' : ImageMeta) : Prop :=
  corresponding uuid uuid' n (id m) (id m') /\ blob m = blob m'
  /\ width m = width m' /\ height m = height m'
  /\ contentType m = contentType m'
  /\ (originalName m = originalName m'
      \/ originalName m = "image_" +:+ id m /\ originalName m' = "image_" +:+ id m')
  /\ sameFilename m m'.

(** the images of a question in the two runs: the same images at the same
    places, and the same [hasImages] *)
Definition sameImagesOpt (uuid uuid' : nat -> N) (n : nat) (o o' : Opt) : Prop :=
  Forall2 (sameImage uuid uuid' n) (o_images o) (o_images o').

Definition sameImages (uuid uuid' : nat -> N) (n : nat) (q q' : Question) : Prop :=
  Forall2 (sameImage uuid uuid' n) (images q) (images q')
  /\ hasImages q = hasImages q'
  /\ Forall2 (sameImagesOpt uuid uuid' n) (options q) (options q').

(** the blocks of the two runs: texts related through corresponding
    identifiers, the same images, and no identifier of the other run in
    the text *)
Definition linkedBlock (uuid uuid' : nat -> N) (n : nat) (d d' : ElementData) : Prop :=
  related anyChar (corresponding uuid uuid' n) (e_text d) (e_text d')
  /\ Forall2 (sameImage uuid uuid' n) (e_images d) (e_images d')
  /\ lacksIds uuid' n (e_text d) /\ lacksIds uuid n (e_text d').

(** the images held by the states of the loop in the two runs *)
Record imagesState (uuid uuid' : nat -> N) (n : nat) (st st' : ParseState) : Prop := {
  img_questions : Forall2 (sameImages uuid uuid' n) (questions st) (questions st');
  img_current : agree (sameImages uuid uuid' n) (currentQuestion st) (currentQuestion st');
  img_accumulated :
    Forall2 (sameImage uuid uuid' n) (accumulatedImages st) (accumulatedImages st');
  img_all : Forall2 (sameImage uuid uuid' n) (allImages st) (allImages st')
}.

(** ** Documents with images *)

Definition picture : InlineImage :=
  {| getBlob := Some {| getContentType := "image/png"; getName := "fig.png"; getBytes := "" |};
     getWidth := 10; getHeight := 20 |}.

(** a paragraph whose text holds an image token typed by hand and ends
    its first line before the inline image *)
Definition typedTokenDoc : Body :=
  [ {| getType := PARAGRAPH;
       getChildren := [TEXT ("1. See [IMG:3f2504e04f8941d39a0c0305e82c3301]" +:+ Str.lf);
                       INLINE_IMAGE picture];
       getListId := None |} ].

Definition uuidA : nat -> N := fun _ => 0x3f2504e04f8941d39a0c0305e82c3301%N.

Definition uuidB : nat -> N := fun _ => 0x9b1deb4d3b7d4bad9bdd2b0d7b3dcb6d%N.

(** a question with a picture in its stem and one in its second option *)
Definition twoPicturesDoc : Body :=
  [ {| getType := PARAGRAPH;
       getChildren := [TEXT "1. Name the shape "; INLINE_IMAGE picture];
       getListId := None |};
    paragraph "A. circle";
    {| getType := PARAGRAPH;
       getChildren := [TEXT "B. like "; INLINE_IMAGE picture];
       getListId := None |};
    paragraph "Answer Key"; paragraph "1. B" ].

(** a question with a bracketed blank and a picture in its stem, and a
    picture in its second option *)
Definition blankPictureDoc : Body :=
  [ {| getType := PARAGRAPH;
       getChildren := [TEXT "1. The [blank] shape is "; INLINE_IMAGE picture];
       getListId := None |};
    paragraph "A. a circle";
    {| getType := PARAGRAPH;
       getChildren := [TEXT "B. like "; INLINE_IMAGE picture];
       getListId := None |};
    paragraph "Answer Key"; paragraph "1. B" ].

(** two supplies that count up from different seeds *)
Definition uuidUp : nat -> N := fun k => (0x3f2504e04f8941d39a0c0305e82c3301 + N.of_nat k)%N.

Definition uuidDown : nat -> N := fun k => (0x9b1deb4d3b7d4bad9bdd2b0d7b3dcb6d - N.of_nat k)%N.

Definition pictureDoc : Body :=
  [ {| getType := PARAGRAPH;
       getChildren := [TEXT "1. Name the shape "; INLINE_IMAGE picture];
       getListId := None |};
    paragraph "A. circle"; paragraph "B. square";
    paragraph "Answer Key"; paragraph "1. B" ].

(** ** File names *)

(** a character of the file name of an image: a letter, a digit, an
    underscore or a dot *)
Definition fileChar (c : ascii) : bool := Char.is_word c || Char.is_char "." c.

(** a file name of such characters that is not empty *)
Definition isFileName (f : string) : bool := allChars fileChar f && negb (Str.is_empty f).

(** a character of a sanitized name: kept, or the underscore *)
Definition is_safe_char (c : ascii) : bool := is_filename_char c || Char.is_char "_" c.

(** a name as [sanitizeImageFilename] leaves it *)
Definition sanitized (s : string) : bool :=
  allChars is_safe_char s && negb (Str.includes "__" s)
  && negb (Str.first_is (Char.is_char "_") s) && negb (Str.last_is (Char.is_char "_") s).

(** ** Parsed questions *)

(** the drafts of a state: the finalized questions, then the current one *)
Definition drafts (st : ParseState) : list Question :=
  questions st ++ option_list (currentQuestion st).

(** the types that [inferQuestionType] and the refinement of the loop can
    give a question *)
Definition inferable (t : QuestionType) : bool :=
  match t with
  | MULTIPLE_CHOICE_MULTI | FILL_IN_BLANK_NUMERIC | ESSAY => false
  | _ => true
  end.

(** one upper-case letter *)
Definition isUpperLetter (s : string) : bool :=
  match s with
  | String c "" => Char.is_upper c
  | _ => false
  end.

(** the last question of a list that carries the number [n] *)
Definition lastNumbered (n : N) (qs : list Question) : option Question :=
  last (List.filter (fun q => N.eqb (number q) n) qs).

(** what the type map says of the drafts of a state *)
Definition typesFollowDrafts (st : ParseState) : Prop :=
  (forall n, questionTypes st !! n = type <$> lastNumbered n (drafts st))
  /\ (forall q, currentQuestion st = Some q -> currentQuestionNumber st = number q).

(** ** Parsed images *)

(** the images that a question and its options carry *)
Definition imagesOf (q : Question) : list ImageMeta :=
  images q ++ mjoin (o_images <$> options q).

(** an image with a file name of letters, digits, underscores and dots *)
Definition named (m : ImageMeta) : bool :=
  match filename m with
  | Some f => isFileName f
  | None => false
  end.

(** where the images of a state are: those accumulated and those of the
    drafts are among all the images, which all have a file name *)
Record imagesKept (st : ParseState) : Prop := {
  kept_named : Forall (fun m => named m = true) (allImages st);
  kept_accumulated : accumulatedImages st ⊆ allImages st;
  kept_drafts : Forall (fun q => imagesOf q ⊆ allImages st) (drafts st)
}.

(** ** Answers of the key *)

Definition notEmpty (s : string) : bool := negb (Str.is_empty s).

(** the shape that the answer data of a question of a given type has *)
Definition fits (ty : QuestionType) (a : AnswerData) : bool :=
  match ty, a with
  | (MULTIPLE_CHOICE_SINGLE | TRUE_FALSE), AString l => isUpperLetter l
  | MULTIPLE_CHOICE_MULTI, AStrings ls => nonempty ls && forallb isUpperLetter ls
  | (FILL_IN_BLANK_TEXT | SHORT_ANSWER | ESSAY), AStrings ls => forallb notEmpty ls
  | FILL_IN_BLANK_NUMERIC, ANumber _ => true
  | MATCHING, APairs ps => nonempty ps
  | ORDERING, AStrings ls => nonempty ls && forallb notEmpty ls
  | _, _ => false
  end.

(** a list of strings in ascending order *)
Fixpoint ascending (l : list string) : bool :=
  match l with
  | x :: (y :: _) as t => String.leb x y && ascending t
  | _ => true
  end.

(** the answer of the last decoded line of the key for a number *)
Definition keyAnswer (types : gmap N QuestionType) (body : Body) (n : N) : option AnswerData :=
  l_answer <$> last (decodedFor n (decodedLines types (answerLines body))).

(** ** Runs *)

(** an alert shown to the user *)
Definition isAlert (e : Event) : bool :=
  match e with Alert _ _ => true | _ => false end.

(** ** Texts with image tokens *)

(** A text in pieces: runs without an opening bracket, and the tokens of
    images. *)
Inductive Segment :=
| Plain (s : string)
| Image (imageId : string).

(** the text of the pieces *)
Fixpoint textOf (segs : list Segment) : string :=
  match segs with
  | [] => ""
  | Plain s :: rest => s +:+ textOf rest
  | Image i :: rest => token i (textOf rest)
  end.

(** an identifier as the parser mints it: 32 hexadecimal digits *)
Definition isImageId (i : string) : bool := allid i && Nat.eqb (String.length i) 32.

(** a run without an opening bracket, or the token of a minted identifier *)
Definition wellFormed (seg : Segment) : bool :=
  match seg with
  | Plain s => allChars plainChar s
  | Image i => isImageId i
  end.

(** the tag that stands for the token of an identifier, when the images
    hold one of that identifier with a file name *)
Definition tagOf (questionImages : list ImageMeta) (imageId : string) : option string :=
  imageMeta ← imageMeta_of questionImages imageId;
  file ← filename imageMeta;
  if Str.is_empty file then None else Some (imgTag imageMeta file).

(** the text with every token that has a tag replaced by its tag *)
Fixpoint rendered (questionImages : list ImageMeta) (segs : list Segment) : string :=
  match segs with
  | [] => ""
  | Plain s :: rest => s +:+ rendered questionImages rest
  | Image i :: rest =>
      default (placeholder i) (tagOf questionImages i) +:+ rendered questionImages rest
  end.

(** the file names of the images are made of letters, digits, underscores
    and dots, as [generateImageFilename] makes them *)
Definition plainFiles (questionImages : list ImageMeta) : Prop :=
  Forall (fun m => forall f, filename m = Some f -> allChars fileChar f = true) questionImages.

(** the identifiers of the tokens, in order *)
Definition imageIds (segs : list Segment) : list string :=
  omap (fun seg => match seg with Image i => Some i | Plain _ => None end) segs.

(** the step of the loop over the tokens found *)
Definition replaceOne (questionImages : list ImageMeta) (processedText imageId : string)
    : string :=
  match tagOf questionImages imageId with
  | Some tag => Str.replace_first (placeholder imageId) tag processedText
  | None => processedText
  end.

(** a text that a search for the token of any image with a tag passes
    over *)
Definition passedOver (questionImages : list ImageMeta) (R : string) : Prop :=
  forall i tag r x, isImageId i = true -> tagOf questionImages i = Some tag ->
    Str.replace_first (placeholder i) r (R +:+ x) = R +:+ Str.replace_first (placeholder i) r x.

(** ** Copied images *)

(** what the loop keeps: the names seen are pairwise distinct, and the
    names of the map are among them *)
Definition copiedOnce (st : Copied) : Prop :=
  NoDup (seenFilenames st)
  /\ forall e, e ∈ imageFilenameMap st -> snd e ∈ seenFilenames st.

(** the entry of a valid image in the map *)
Definition ownEntry (imgMeta : ImageMeta) : option (string * string) :=
  f ← validFilename imgMeta; Some (id imgMeta, f).

(** sample images with their file names *)
Definition figure : ImageMeta :=
  {| id := uuid_string 5;
     blob := {| getContentType := "image/png"; getName := "fig.png"; getBytes := "" |};
     contentType := "image/png"; originalName := "fig.png"; width := 10; height := 20;
     filename := Some "q1_elem0_img0000_05.png" |}.

Definition secondFigure : ImageMeta :=
  {| id := uuid_string 6;
     blob := {| getContentType := "image/png"; getName := "fig2.png"; getBytes := "" |};
     contentType := "image/png"; originalName := "fig2.png"; width := 10; height := 20;
     filename := Some "q1_elem1_img0000_06.png" |}.

(** ** Keys of options *)

(** the keys of the options that have one *)
Definition keysOf (opts : list Opt) : list string :=
  List.filter (fun k => negb (Str.is_empty k)) (keyOf <$> opts).

(** sample entries of the two types *)
Definition orderingEntry : QuestionAnswer :=
  {| question := {| number := 4; type := ORDERING; text := "Put in order";
                    options := [plainOpt "A" "one"; plainOpt "B" "two"; plainOpt "C" "three"];
                    images := []; hasImages := false |};
     correctAnswer := Some (AStrings ["C"; "A"; "B"]) |}.

Definition matchingEntry : QuestionAnswer :=
  {| question := {| number := 2; type := MATCHING; text := "Match the terms";
                    options := [plainOpt "A" "dog"; plainOpt "B" "cat"];
                    images := []; hasImages := false |};
     correctAnswer := Some (APairs [ {| premise := "A"; response := "1" |};
                                     {| premise := "Z"; response := "9" |};
                                     {| premise := "B"; response := "2" |} ]) |}.

(** ** Items of the package *)

(** the identifier and the item written for the question at a position,
    when the generator of its type returns one *)
Definition itemAt (index : nat) (q : QuestionAnswer) : option (string * ItemDoc) :=
  pair (itemIdentifier index q) <$> QTI_createItemXML q (itemIdentifier index q).

(** * Properties *)

(** ** The embedding on sample inputs *)

Example split_ex : Str.split (fun c => Char.is_char "," c || Char.is_char ";" c) "a,b;;c," = ["a"; "b"; ""; "c"; ""].
Proof. reflexivity. Qed.

Example of_N_ex : Str.of_N 0 = "0" /\ Str.of_N 120 = "120".
Proof. split; reflexivity. Qed.

Example includes_ex : Str.includes "___" "The sky is ___ ." = true /\ Str.includes "" "" = true.
Proof. split; reflexivity. Qed.

Example trim_ex : Str.trim "  1. a b  " = "1. a b".
Proof. reflexivity. Qed.

Example split_runs_ex : Str.split_runs Char.is_space false "a  b c " = ["a"; "b"; "c"; ""].
Proof. reflexivity. Qed.

Example hex_ex : Str.hex 4 43981 = "abcd" /\ Str.hex 4 10 = "000a".
Proof. split; reflexivity. Qed.

Example parse_scenarioA :
  p_questions (parseQuestions no_uuid scenarioA) =
  [ {| number := 1; type := MULTIPLE_CHOICE_SINGLE; text := "What is 2+2?";
       options := [ {| letter := "A"; o_text := "3"; o_images := [] |};
                    {| letter := "B"; o_text := "4"; o_images := [] |} ];
       images := []; hasImages := false |} ].
Proof. reflexivity. Qed.

Example answers_scenarioA :
  let p := parseQuestions no_uuid scenarioA in
  let '(answers, log) := parseAnswerKey (p_questionTypes p) scenarioA in
  answers = {[ 1%N := AString "B" ]} /\ log = [].
Proof. vm_compute. split; reflexivity. Qed.

(** ** Strings *)

Lemma append_cons (c : ascii) (s t : string) : String c s +:+ t = String c (s +:+ t).
Proof. reflexivity. Qed.

Lemma append_empty_l (s : string) : "" +:+ s = s.
Proof. reflexivity. Qed.

Lemma append_empty_r (s : string) : s +:+ "" = s.
Proof. induction s as [|c s IH]; [reflexivity | now rewrite append_cons, IH]. Qed.

Lemma append_assoc (a b c : string) : (a +:+ b) +:+ c = a +:+ (b +:+ c).
Proof. induction a as [|x a IH]; [reflexivity | now rewrite !append_cons, IH]. Qed.

Lemma is_char_true (d c : ascii) : Char.is_char d c = true -> c = d.
Proof. unfold Char.is_char. apply Ascii.eqb_eq. Qed.

(** replacing each occurrence of a character by that character changes
    nothing *)
Lemma replace_class_same (d : ascii) (s : string) :
  Str.replace_class (Char.is_char d) (String d "") s = s.
Proof.
  induction s as [|c s IH]; simpl; [reflexivity|].
  destruct (Char.is_char d c) eqn:E; rewrite IH; [|reflexivity].
  now rewrite (is_char_true _ _ E).
Qed.

(** ** sanitizeHtml *)

(** C10: on every string, [sanitizeHtml] returns its argument unchanged:
    each of its four replacements puts back the character it finds. *)
Theorem sanitizeHtml_identity (s : string) : sanitizeHtml (Some s) = s.
Proof.
  unfold sanitizeHtml, Str.dq.
  now rewrite !replace_class_same.
Qed.

(** the XML-special characters come out as they went in *)
Example sanitizeHtml_special :
  sanitizeHtml (Some ("a & b < c > " +:+ Str.dq)) = "a & b < c > " +:+ Str.dq.
Proof. reflexivity. Qed.

(** ** Type inference *)

(** [inferQuestionType] on a stem without keywords and a single option A:
    multiple choice, not short answer *)
Lemma inferQuestionType_single_option :
  noKeyword "Pick one" /\
  inferQuestionType "Pick one" [plainOpt "A" "first"] = MULTIPLE_CHOICE_SINGLE /\
  inferQuestionType "Pick one" [plainOpt "A" "first"] <> SHORT_ANSWER.
Proof. unfold noKeyword. repeat split; try reflexivity. discriminate. Qed.

(** the options T and F need not be the only ones *)
Example inferQuestionType_T_F_among_others :
  inferQuestionType "Pick one" [plainOpt "A" "x"; plainOpt "T" "y"; plainOpt "F" "z"]
  = TRUE_FALSE.
Proof. reflexivity. Qed.

Lemma includes_letter_spec (l : string) (opts : list Opt) :
  includes_letter l (letters_of opts) = true <-> hasLetter l opts.
Proof. unfold includes_letter, hasLetter. apply bool_decide_eq_true. Qed.

(** [inferQuestionType] on a stem that matches none of the keyword rules,
    for any list of options: TRUE_FALSE exactly when the option letters
    include both T and F, MULTIPLE_CHOICE_SINGLE exactly when there is at
    least one option and the letters do not include both, and SHORT_ANSWER
    exactly when there is no option.  The parser itself calls the function
    with no option. *)
Lemma inferQuestionType_structural (text : string) (opts : list Opt) :
  noKeyword text ->
  (inferQuestionType text opts = TRUE_FALSE <->
     hasLetter "T" opts /\ hasLetter "F" opts) /\
  (inferQuestionType text opts = MULTIPLE_CHOICE_SINGLE <->
     opts <> [] /\ ~ (hasLetter "T" opts /\ hasLetter "F" opts)) /\
  (inferQuestionType text opts = SHORT_ANSWER <-> opts = []).
Proof.
  intros (H1 & H2 & H3 & H4 & H5 & H6 & H7 & H8).
  unfold inferQuestionType. cbv zeta in *.
  rewrite H1, H2, H3, H4, H5, H6, H7, H8. simpl.
  assert (Hnil : ~ hasLetter "T" []) by (unfold hasLetter; simpl; apply not_elem_of_nil).
  destruct opts as [|o opts].
  - repeat split; try discriminate; try tauto; intros [? ?]; tauto.
  - destruct (includes_letter "T" (letters_of (o :: opts))) eqn:ET;
    destruct (includes_letter "F" (letters_of (o :: opts))) eqn:EF; simpl;
    rewrite <- !includes_letter_spec, ET, EF;
    repeat split; try discriminate; try tauto; try (intros [? ?]; discriminate);
    try (intros [_ H]; exfalso; apply H; split; reflexivity);
    try (intros [? ?]; discriminate).
Qed.

(** the refinement inside the loop of [parseQuestions]: the first option
    makes the question multiple choice, and the test of the letters T and
    F is guarded by the type not being multiple choice *)
Example parseQuestions_T_F_options :
  (fun q => (type q, letters_of (options q)))
    <$> p_questions (parseQuestions no_uuid trueFalseOptionsDoc)
  = [(MULTIPLE_CHOICE_SINGLE, ["T"; "F"])].
Proof. reflexivity. Qed.

(** ** The multiple-choice item of the QTI 1.2 backend *)

(** C5, as the specification states it, fails: an entry with exactly one
    option has fewer than two options, and the item generated for it has
    that one choice only. *)
Lemma single_option_not_padded :
  length (options (question oneOptionEntry)) < 2 /\
  choices (QTI_createMultipleChoiceSingleItem oneOptionEntry "item_1")
  = [ {| choiceIdent := "choice_A"; optionHtml := "<![CDATA[first]]>" |} ] /\
  ~ 2 <= length (choices (QTI_createMultipleChoiceSingleItem oneOptionEntry "item_1")).
Proof. repeat split; simpl; lia. Qed.

Lemma matchingChoice_no_answer (opts : list Opt) : matchingChoice None opts = None.
Proof.
  unfold matchingChoice.
  replace (omap _ (imap pair opts)) with (@nil string); [reflexivity|].
  generalize (@pair nat Opt) as f.
  induction opts as [|o opts IH]; intros f; simpl; [reflexivity|].
  destruct (f 0 o). simpl. apply IH.
Qed.

(** C5, amended: the generator always yields an item.  For an entry
    without options the choices are two placeholders (T and F for a
    true/false entry, A and B otherwise); for an entry with options the
    choices are those options, one choice each, a single option staying
    single; and when the entry has no answer data the scoring condition
    that sets SCORE to 100 binds to the first choice. *)
Theorem mc_item_of_incomplete_entry (q : QuestionAnswer) (ident : string) :
  let it := QTI_createMultipleChoiceSingleItem q ident in
  (options (question q) = [] -> choices it = placeholderChoices (type (question q))) /\
  (options (question q) <> [] -> choices it = imap choiceOf (options (question q))) /\
  (correctAnswer q = None ->
     exists c, head (choices it) = Some c /\ respconditions it = scoring it c).
Proof.
  unfold QTI_createMultipleChoiceSingleItem.
  destruct (options (question q)) as [|o opts] eqn:Eo.
  - split; [|split]; [| intros H; contradiction |].
    + intros _. unfold placeholderChoices.
      destruct (decide (type (question q) = TRUE_FALSE)); reflexivity.
    + intros Hc. rewrite Hc.
      destruct (decide (type (question q) = TRUE_FALSE)); simpl; eexists; split; reflexivity.
  - split; [|split]; [intros H; discriminate | intros _; reflexivity |].
    intros Hc. rewrite Hc. rewrite matchingChoice_no_answer.
    exists (choiceOf 0 o). split; [reflexivity|].
    simpl. unfold scoring. simpl. destruct (Str.is_empty (letter o)); reflexivity.
Qed.

Lemma mc_item_of_incomplete_entry_witness :
  options (question unansweredEntry) = [] /\ correctAnswer unansweredEntry = None /\
  choices (QTI_createMultipleChoiceSingleItem unansweredEntry "item_2")
  = placeholderChoices TRUE_FALSE /\
  exists c, head (choices (QTI_createMultipleChoiceSingleItem unansweredEntry "item_2")) = Some c
            /\ respconditions (QTI_createMultipleChoiceSingleItem unansweredEntry "item_2")
               = scoring (QTI_createMultipleChoiceSingleItem unansweredEntry "item_2") c.
Proof.
  destruct (mc_item_of_incomplete_entry unansweredEntry "item_2") as (H1 & _ & H3).
  split; [reflexivity|]. split; [reflexivity|]. split.
  - apply H1. reflexivity.
  - apply H3. reflexivity.
Defined.

(** ** Matching answers *)

Lemma matchingPairs_fst (n : N) (tokens : list string) :
  fst (matchingPairs n tokens) = pairsOf tokens.
Proof.
  induction tokens as [|t tokens IH]; simpl; [reflexivity|].
  destruct (matchingPairs n tokens) as [ps ws]. simpl in IH. subst ps.
  destruct (pairMatch (Str.trim t)); reflexivity.
Qed.

(** a malformed token between two lists of tokens leaves their pairs as
    they are *)
Lemma pairsOf_skips (before after : list string) (bad : string) :
  pairMatch (Str.trim bad) = None ->
  pairsOf (before ++ bad :: after) = pairsOf before ++ pairsOf after.
Proof.
  intros H. unfold pairsOf. rewrite omap_app. simpl. now rewrite H.
Qed.

Lemma cons_head_app (c : ascii) (l1 l2 : list string) :
  l1 <> [] -> Str.cons_head c (l1 ++ l2) = Str.cons_head c l1 ++ l2.
Proof. destruct l1; [congruence | reflexivity]. Qed.

Lemma split_nonempty (sep : ascii -> bool) (s : string) : Str.split sep s <> [].
Proof.
  destruct s as [|c s]; simpl; [discriminate|].
  destruct (sep c); [discriminate|].
  destruct (Str.split sep s); discriminate.
Qed.

(** splitting at a separator: the tokens before it, then the tokens
    after it *)
Lemma split_at_separator (sep : ascii -> bool) (a b : string) (c : ascii) :
  sep c = true ->
  Str.split sep (a +:+ String c b) = Str.split sep a ++ Str.split sep b.
Proof.
  intros Hc. induction a as [|x a IH].
  - change ("" +:+ String c b) with (String c b). simpl. now rewrite Hc.
  - rewrite append_cons. simpl. destruct (sep x).
    + now rewrite IH.
    + rewrite IH. apply cons_head_app, split_nonempty.
Qed.

Lemma nonempty_nil {A} (l : list A) : nonempty l = false <-> l = [].
Proof. destruct l; simpl; split; congruence. Qed.

(** C7: a line that carries the number of a MATCHING question is decoded
    by splitting its payload on commas and semicolons; each token of the
    form letters, a dash or an equals sign, a value contributes one pair;
    a malformed token is skipped and the pairs of the other tokens stay;
    the line yields no answer record exactly when no pair is left. *)
Theorem matching_line_decoding
    (types : gmap N QuestionType) (lineText digits rest : string) :
  Str.is_empty (Str.trim lineText) = false ->
  answerLineMatch (cleanAnswerKeyText lineText) = Some (digits, rest) ->
  types !! Str.parseInt digits = Some MATCHING ->
  let payload := Str.trim rest in
  let pairs := pairsOf (pairTokens payload) in
  (fst (parseAnswerLine types lineText) =
     if nonempty pairs
     then Some {| l_number := Str.parseInt digits; l_answer := APairs pairs |}
     else None) /\
  (fst (parseAnswerLine types lineText) = None <-> pairs = []) /\
  (forall a b bad sep,
     is_comma_or_semicolon sep = true ->
     pairTokens bad = [bad] ->
     pairMatch (Str.trim bad) = None ->
     payload = a +:+ String sep (bad +:+ String sep b) ->
     pairs = pairsOf (pairTokens a) ++ pairsOf (pairTokens b)).
Proof.
  intros Hne Hm Hty payload pairs.
  assert (Hfst : fst (parseAnswerLine types lineText) =
     if nonempty pairs
     then Some {| l_number := Str.parseInt digits; l_answer := APairs pairs |}
     else None).
  { unfold parseAnswerLine.
    assert (Str.is_empty lineText = false) as ->.
    { destruct lineText; [discriminate Hne | reflexivity]. }
    rewrite Hne. simpl. rewrite Hm, Hty. unfold decodeAnswer.
    fold payload. fold (pairTokens payload).
    pose proof (matchingPairs_fst (Str.parseInt digits) (pairTokens payload)) as Hp.
    destruct (matchingPairs (Str.parseInt digits) (pairTokens payload)) as [ps ws].
    simpl in Hp. fold pairs in Hp. subst ps.
    destruct (nonempty pairs); reflexivity. }
  split; [exact Hfst|]. split.
  - rewrite Hfst. destruct pairs; simpl; split; congruence.
  - intros a b bad sep Hsep Hbad Hnone Hpay.
    subst pairs. rewrite Hpay. unfold pairTokens in *.
    rewrite split_at_separator by exact Hsep.
    rewrite split_at_separator by exact Hsep.
    rewrite Hbad. unfold pairsOf. rewrite !omap_app. simpl. now rewrite Hnone.
Qed.

Lemma matching_line_decoding_witness :
  fst (parseAnswerLine matchingTypes "2. A=1, junk, C - 3") =
  Some {| l_number := 2;
          l_answer := APairs [ {| premise := "A"; response := "1" |};
                               {| premise := "C"; response := "3" |} ] |}.
Proof.
  apply (matching_line_decoding matchingTypes "2. A=1, junk, C - 3" "2" "A=1, junk, C - 3");
    reflexivity.
Defined.

(** ** Scenario A, end to end *)

(** C1: for the five blocks of scenario A the pipeline produces exactly one
    entry, of type MULTIPLE_CHOICE_SINGLE, with the letter B as its correct
    answer; the item generated for it has one condition that sets SCORE to
    100, and that condition binds the response to the choice identifier of
    option B. *)
Theorem scenarioA_end_to_end (uuid : nat -> N) :
  pipeline uuid scenarioA = [entryA] /\
  type (question entryA) = MULTIPLE_CHOICE_SINGLE /\
  correctAnswer entryA = Some (AString "B") /\
  let it := QTI_createMultipleChoiceSingleItem entryA (itemIdentifier 0 entryA) in
  choices it = [choiceOf 0 optionA; choiceOf 1 optionB] /\
  fullScore it = [varequal (responseIdent it) (choiceIdent (choiceOf 1 optionB))] /\
  choiceIdent (choiceOf 1 optionB) = "choice_B".
Proof. vm_compute. repeat split. Qed.

(** ** The answer-key header in the structural parser *)

(** C2 at the failing input: the block Answers is a header for the
    answer-key parser, but the structural parser takes it for a continuation
    of the stem and the answer line after it for a second question. *)
Theorem answers_header_not_recognized (uuid : nat -> N) :
  isAnswerKeyHeader "Answers" = true /\
  isAnswerKeyHeader "Key" = true /\
  re_answer_key "Answers" = false /\
  re_answer_key "Key" = false /\
  p_questions (parseQuestions uuid answersHeaderDoc) =
  [ {| number := 1; type := MULTIPLE_CHOICE_SINGLE; text := "What is 2+2? Answers";
       options := [optionA; optionB]; images := []; hasImages := false |};
    {| number := 1; type := SHORT_ANSWER; text := "B";
       options := []; images := []; hasImages := false |} ].
Proof. vm_compute. repeat split. Qed.

(** ** The block stream *)

Lemma step_set_minted (i k : nat) (d : ElementData) (st : ParseState) :
  step i d (set_minted k st) = set_minted k (step i d st).
Proof.
  unfold step, set_minted, push_finalized; simpl.
  destruct (questionStartMatch (e_text d)) as [[digits rest]|]; [reflexivity|].
  destruct (currentQuestion st); [|reflexivity].
  destruct (optionMatch (e_text d)) as [[l rest]|]; reflexivity.
Qed.

Lemma set_minted_twice (j k : nat) (st : ParseState) :
  set_minted j (set_minted k st) = set_minted j st.
Proof. reflexivity. Qed.

Lemma blockLoop_set_minted (ds : list ElementData) (i k : nat) (st : ParseState) :
  blockLoop i ds (set_minted k st) = set_minted k (blockLoop i ds st).
Proof.
  revert i st. induction ds as [|d ds IH]; intros i st; simpl; [reflexivity|].
  destruct (isEmptyBlock d); [apply IH|].
  destruct (re_answer_key (e_text d)); [reflexivity|].
  rewrite step_set_minted. apply IH.
Qed.

(** the loop over the elements is the loop over their blocks, up to the
    counter of minted identifiers *)
Lemma parseLoop_blocks (uuid : nat -> N) (els : list Element) (i : nat) (st : ParseState) :
  exists k, parseLoop uuid i els st = set_minted k (blockLoop i (blocks uuid (minted st) els) st).
Proof.
  revert i st. induction els as [|e els IH]; intros i st; simpl.
  - exists (minted st). now destruct st.
  - destruct (processElement uuid (minted st) e) as [d k] eqn:E. simpl.
    fold (isEmptyBlock d).
    destruct (isEmptyBlock d).
    + destruct (IH (S i) (set_minted k st)) as [k' Hk']. exists k'.
      rewrite Hk'. simpl. rewrite blockLoop_set_minted. apply set_minted_twice.
    + destruct (re_answer_key (e_text d)).
      * exists k. reflexivity.
      * destruct (IH (S i) (step i d (set_minted k st))) as [k' Hk']. exists k'.
        rewrite Hk'. rewrite step_set_minted. simpl.
        rewrite blockLoop_set_minted. apply set_minted_twice.
Qed.

Lemma parseQuestions_blocks (uuid : nat -> N) (body : Body) :
  parseQuestions uuid body = parseBlocks (blocks uuid 0 body).
Proof.
  unfold parseQuestions, parseBlocks.
  destruct (parseLoop_blocks uuid body 0 initialState) as [k Hk].
  rewrite Hk. reflexivity.
Qed.

Lemma finalize_number (q : Question) (acc : list ImageMeta) :
  number (finalize q acc) = number q.
Proof. reflexivity. Qed.

Lemma push_finalized_numbers (st : ParseState) (acc : list ImageMeta) :
  number <$> push_finalized st acc = draftNumbers st.
Proof.
  unfold push_finalized, draftNumbers.
  destruct (currentQuestion st) as [q|]; simpl.
  - now rewrite fmap_app.
  - now rewrite app_nil_r.
Qed.

(** a block adds the number of its marker to the drafts, and nothing else *)
Lemma step_draftNumbers (i : nat) (d : ElementData) (st : ParseState) :
  draftNumbers (step i d st) = draftNumbers st ++ option_list (markerNumber d).
Proof.
  unfold step, markerNumber.
  destruct (questionStartMatch (e_text d)) as [[digits rest]|]; simpl.
  - unfold draftNumbers at 1. simpl. now rewrite push_finalized_numbers.
  - rewrite app_nil_r. destruct (currentQuestion st) as [q|] eqn:Eq; [|unfold draftNumbers; simpl; now rewrite Eq].
    unfold draftNumbers. rewrite Eq.
    destruct (optionMatch (e_text d)) as [[l r]|]; simpl; [reflexivity|].
    destruct (Str.is_empty (e_text d)); reflexivity.
Qed.

Lemma blockLoop_draftNumbers (ds : list ElementData) (i : nat) (st : ParseState) :
  draftNumbers (blockLoop i ds st) = draftNumbers st ++ markerNumbers ds.
Proof.
  revert i st. induction ds as [|d ds IH]; intros i st; unfold markerNumbers; simpl.
  - now rewrite app_nil_r.
  - destruct (isEmptyBlock d); [apply IH|].
    destruct (re_answer_key (e_text d)); [simpl; now rewrite app_nil_r|].
    rewrite IH, step_draftNumbers. simpl. rewrite <- app_assoc. f_equal.
    unfold markerNumbers. destruct (markerNumber d); reflexivity.
Qed.

(** the numbers of the parsed questions are the numbers of the markers, in
    the order of the document *)
Lemma parsed_numbers (uuid : nat -> N) (body : Body) :
  number <$> p_questions (parseQuestions uuid body) = markerNumbers (blocks uuid 0 body).
Proof.
  rewrite parseQuestions_blocks. unfold parseBlocks. simpl.
  rewrite push_finalized_numbers, blockLoop_draftNumbers. reflexivity.
Qed.

(** ** Drafts and markers *)

(** C8 at the failing input: a document that repeats the marker number 1
    has one distinct marker, yet two drafts are finalized and both carry
    the number 1. *)
Lemma repeated_marker_two_drafts :
  markerNumbers (blocks no_uuid 0 repeatedMarkerDoc) = [1%N; 1%N] /\
  length (remove_dups (markerNumbers (blocks no_uuid 0 repeatedMarkerDoc))) = 1 /\
  length (p_questions (parseQuestions no_uuid repeatedMarkerDoc)) = 2 /\
  number <$> p_questions (parseQuestions no_uuid repeatedMarkerDoc) = [1%N; 1%N] /\
  ~ NoDup (number <$> p_questions (parseQuestions no_uuid repeatedMarkerDoc)).
Proof.
  repeat split; try reflexivity.
  intros H. vm_compute in H. inversion H as [|x l Hx _]; subst.
  apply Hx. left.
Qed.

(** the numbers of the finalized drafts are, in the order of the
    document, the numbers of the markers of the blocks that the parser
    consumes, repetitions included *)
Lemma drafts_follow_markers (uuid : nat -> N) (body : Body) :
  number <$> p_questions (parseQuestions uuid body) = markerNumbers (blocks uuid 0 body) /\
  length (p_questions (parseQuestions uuid body)) = length (markerNumbers (blocks uuid 0 body)).
Proof.
  pose proof (parsed_numbers uuid body) as H.
  split; [exact H|]. rewrite <- H. now rewrite length_fmap.
Qed.

(** ** A document without questions *)

Lemma questionBlocks_sublist (P : ElementData -> Prop) (ds : list ElementData) :
  Forall P ds -> Forall P (questionBlocks ds).
Proof.
  induction 1 as [|d ds Hd _ IH]; simpl; [constructor|].
  destruct (isEmptyBlock d); [exact IH|].
  destruct (re_answer_key (e_text d)); [constructor | now constructor].
Qed.

Lemma noMarkers_numbers (ds : list ElementData) :
  Forall (fun d => questionStartMatch (e_text d) = None) ds -> markerNumbers ds = [].
Proof.
  intros H. apply questionBlocks_sublist in H. unfold markerNumbers.
  induction H as [|d l Hd _ IH]; simpl; [reflexivity|].
  unfold markerNumber at 1. now rewrite Hd.
Qed.

Lemma noMarkers_no_questions (uuid : nat -> N) (body : Body) :
  noMarkers uuid body -> p_questions (parseQuestions uuid body) = [].
Proof.
  intros H. apply noMarkers_numbers in H.
  rewrite <- parsed_numbers in H. now apply fmap_nil_inv in H.
Qed.

(** C4, as the specification states it, fails: on a document without
    markers the parser does not fail, it returns the empty list of
    questions with a warning; the error that ends the run is raised by
    [startConversion]. *)
Lemma parser_returns_without_markers :
  noMarkers no_uuid noQuestionsDoc /\
  parseQuestions no_uuid noQuestionsDoc = noQuestionsParsed /\
  fst (conversion nullBackend no_uuid "Quiz" "Jan 1 2025 10:00" noQuestionsDoc)
  = inl (AppError "Parsing Error" "No questions could be parsed from the document.").
Proof.
  split; [|split; reflexivity].
  unfold noMarkers. simpl. repeat constructor.
Qed.

(** C4, amended: for a document without any leading integer marker the
    parser itself does not fail: it returns no question and warns.  The
    run then fails with the fatal parsing error that [startConversion]
    raises, which the user is alerted of, and the export backend is not
    called. *)
Theorem no_markers_aborts_run
    (backend : list QuestionAnswer -> list ImageMeta -> string -> ExportResult)
    (uuid : nat -> N) (docName timestamp : string) (body : Body) :
  noMarkers uuid body ->
  p_questions (parseQuestions uuid body) = [] /\
  p_warnings (parseQuestions uuid body) = ["No numbered questions were found in the document."] /\
  fst (conversion backend uuid docName timestamp body)
  = inl (AppError "Parsing Error" "No questions could be parsed from the document.") /\
  let '(result, events) := startConversion backend uuid docName timestamp body in
  success result = false /\
  message result = "Error: No questions could be parsed from the document." /\
  last events = Some (Alert "QTI Conversion Error"
                        "No questions could be parsed from the document.") /\
  existsb calledExport events = false.
Proof.
  intros H. pose proof (noMarkers_no_questions uuid body H) as Hq.
  split; [exact Hq|]. split.
  { unfold parseQuestions in *. simpl in *. now rewrite Hq. }
  unfold startConversion, conversion. rewrite Hq. simpl.
  repeat split.
Qed.

Lemma no_markers_aborts_run_witness :
  noMarkers no_uuid noQuestionsDoc /\
  success (fst (startConversion nullBackend no_uuid "Quiz" "Jan 1 2025 10:00" noQuestionsDoc))
  = false /\
  existsb calledExport
    (snd (startConversion nullBackend no_uuid "Quiz" "Jan 1 2025 10:00" noQuestionsDoc)) = false.
Proof.
  assert (H : noMarkers no_uuid noQuestionsDoc).
  { unfold noMarkers. simpl. repeat constructor. }
  split; [exact H|].
  pose proof (no_markers_aborts_run nullBackend no_uuid "Quiz" "Jan 1 2025 10:00"
                noQuestionsDoc H) as (_ & _ & _ & Hr).
  destruct (startConversion nullBackend no_uuid "Quiz" "Jan 1 2025 10:00" noQuestionsDoc)
    as [result events].
  destruct Hr as (Hs & _ & _ & He). split; [exact Hs | exact He].
Defined.

(** with a question in the document the backend is called *)
Example scenarioA_calls_backend :
  existsb calledExport
    (snd (startConversion nullBackend no_uuid "Quiz" "Jan 1 2025 10:00" scenarioA)) = true.
Proof. reflexivity. Qed.

(** markers behind the answer-key header do not count: the run is aborted
    as well *)
Example markers_after_header_abort :
  p_questions (parseQuestions no_uuid preambleOnlyDoc) = [] /\
  success (fst (startConversion nullBackend no_uuid "Quiz" "Jan 1 2025 10:00" preambleOnlyDoc))
  = false.
Proof. split; reflexivity. Qed.

(** ** Duplicate answer lines *)

Lemma answerKeyLoop_found (types : gmap N QuestionType) (els : list Element)
    (acc : gmap N AnswerData * list Warning) :
  answerKeyLoop types els true acc =
  (true, recordAll types (List.filter (fun t => negb (Str.is_empty t)) (lineTexts els)) acc).
Proof.
  revert acc. induction els as [|e els IH]; intros acc; [reflexivity|].
  unfold lineTexts in *. simpl. unfold isTextElement at 1.
  destruct (getType e); simpl; try apply IH;
    destruct (Str.is_empty (Str.trim (getText e))); simpl; apply IH.
Qed.

Lemma answerKeyLoop_lines (types : gmap N QuestionType) (els : list Element)
    (acc : gmap N AnswerData * list Warning) :
  snd (answerKeyLoop types els false acc) = recordAll types (answerLines els) acc.
Proof.
  revert acc. induction els as [|e els IH]; intros acc; [reflexivity|].
  unfold answerLines, lineTexts in *. simpl. unfold isTextElement at 1.
  destruct (getType e); simpl; try apply IH;
    destruct (isAnswerKeyHeader (Str.trim (getText e))); simpl; try apply IH;
    rewrite answerKeyLoop_found; reflexivity.
Qed.

Lemma decodedFor_cons (n : N) (pl : ParsedLine) (l : list ParsedLine) :
  decodedFor n (pl :: l) =
  if N.eqb (l_number pl) n then pl :: decodedFor n l else decodedFor n l.
Proof. reflexivity. Qed.

Lemma recordAll_cons (types : gmap N QuestionType) (t : string) (lines : list string)
    (acc : gmap N AnswerData * list Warning) :
  recordAll types (t :: lines) acc = recordAll types lines (recordAnswer types t acc).
Proof. reflexivity. Qed.

Lemma decodedLines_cons (types : gmap N QuestionType) (t : string) (lines : list string) :
  decodedLines types (t :: lines) =
  match fst (parseAnswerLine types t) with
  | Some pl => pl :: decodedLines types lines
  | None => decodedLines types lines
  end.
Proof. reflexivity. Qed.

(** after the lines are recorded, the entry of [n] is the answer of the
    last decoded line for [n], or the entry there was *)
Lemma recordAll_lookup (types : gmap N QuestionType) (lines : list string)
    (answers : gmap N AnswerData) (log : list Warning) (n : N) :
  fst (recordAll types lines (answers, log)) !! n =
  match last (decodedFor n (decodedLines types lines)) with
  | Some pl => Some (l_answer pl)
  | None => answers !! n
  end.
Proof.
  revert answers log. induction lines as [|t lines IH]; intros answers log; [reflexivity|].
  rewrite recordAll_cons, decodedLines_cons. unfold recordAnswer.
  destruct (parseAnswerLine types t) as [[pl|] ws]; cbn [fst snd]; [|apply IH].
  rewrite IH, decodedFor_cons.
  destruct (N.eqb_spec (l_number pl) n) as [->|Hne].
  - rewrite last_cons.
    destruct (last (decodedFor n _)); [reflexivity|]. apply lookup_insert_eq.
  - destruct (last (decodedFor n _)); [reflexivity|]. now apply lookup_insert_ne.
Qed.

Lemma recordAll_log_grows (types : gmap N QuestionType) (lines : list string)
    (acc : gmap N AnswerData * list Warning) (w : Warning) :
  w ∈ snd acc -> w ∈ snd (recordAll types lines acc).
Proof.
  revert acc. induction lines as [|t lines IH]; intros [answers log] Hw; [exact Hw|].
  rewrite recordAll_cons. apply IH. unfold recordAnswer.
  destruct (parseAnswerLine types t) as [[pl|] ws]; simpl in *;
    rewrite elem_of_app; now left.
Qed.

(** a decoded line for a number that has an entry already is warned of *)
Lemma recordAll_warns (types : gmap N QuestionType) (lines : list string)
    (answers : gmap N AnswerData) (log : list Warning) (n : N) :
  (is_Some (answers !! n) /\ 1 <= length (decodedFor n (decodedLines types lines)))
  \/ 2 <= length (decodedFor n (decodedLines types lines)) ->
  DuplicateAnswer n ∈ snd (recordAll types lines (answers, log)).
Proof.
  revert answers log. induction lines as [|t lines IH]; intros answers log H.
  - simpl in H. destruct H as [[_ H]|H]; lia.
  - rewrite recordAll_cons. rewrite decodedLines_cons in H. unfold recordAnswer.
    destruct (parseAnswerLine types t) as [[pl|] ws] eqn:E; cbn [fst snd] in *;
      [|now apply IH].
    rewrite decodedFor_cons in H.
    destruct (N.eqb_spec (l_number pl) n) as [Heq|Hne]; simpl in H.
    + destruct (answers !! l_number pl) as [a|] eqn:Ea.
      * apply (recordAll_log_grows types lines (_, _)). simpl.
        try rewrite bool_decide_eq_true_2 by eauto.
        rewrite !elem_of_app. right. right. rewrite Heq.
        apply list_elem_of_singleton. reflexivity.
      * apply IH. left. split.
        -- rewrite Heq. rewrite lookup_insert_eq. eauto.
        -- destruct H as [[[a Ha] _]|H]; [rewrite Heq in Ea; congruence | lia].
    + apply IH. rewrite lookup_insert_ne by exact Hne. exact H.
Qed.

(** C6: when the answer-key section has two or more successfully decoded
    lines for one question number, the answer map holds the answer of the
    last of them for that number, and the overwrite has been warned
    of. *)
Theorem duplicate_answers_last_wins
    (types : gmap N QuestionType) (body : Body) (n : N) :
  2 <= length (decodedFor n (decodedLines types (answerLines body))) ->
  fst (parseAnswerKey types body) !! n
  = l_answer <$> last (decodedFor n (decodedLines types (answerLines body)))
  /\ DuplicateAnswer n ∈ snd (parseAnswerKey types body).
Proof.
  intros H. unfold parseAnswerKey.
  pose proof (answerKeyLoop_lines types body (∅, [])) as Hl.
  destruct (answerKeyLoop types body false (∅, [])) as [found [answers log]].
  simpl in Hl.
  pose proof (recordAll_lookup types (answerLines body) ∅ [] n) as Hlook.
  pose proof (recordAll_warns types (answerLines body) ∅ [] n (or_intror H)) as Hwarn.
  rewrite <- Hl in Hlook, Hwarn. simpl in Hlook, Hwarn.
  split.
  - simpl. rewrite Hlook.
    destruct (last (decodedFor n _)) as [pl|] eqn:El; [reflexivity|].
    apply last_None in El. rewrite El in H. simpl in H. lia.
  - simpl. destruct found; [exact Hwarn|]. rewrite elem_of_app. now left.
Qed.

Lemma duplicate_answers_last_wins_witness :
  2 <= length (decodedFor 1 (decodedLines mcTypes (answerLines duplicateKeyDoc))) /\
  fst (parseAnswerKey mcTypes duplicateKeyDoc) !! 1%N = Some (AString "B") /\
  DuplicateAnswer 1 ∈ snd (parseAnswerKey mcTypes duplicateKeyDoc).
Proof.
  assert (H : 2 <= length (decodedFor 1 (decodedLines mcTypes (answerLines duplicateKeyDoc)))).
  { vm_compute. lia. }
  split; [exact H|].
  destruct (duplicate_answers_last_wins mcTypes duplicateKeyDoc 1%N H) as [H1 H2].
  split; [|exact H2]. rewrite H1. reflexivity.
Defined.

(** ** Two runs over one document *)

Lemma idchar_facts (c : ascii) :
  idchar c = true ->
  Char.is_space c = false /\ Char.is_line_terminator c = false /\ Char.is_word c = true
  /\ c <> "]"%char /\ c <> ":"%char /\ c <> "["%char /\ idchar (Char.toUpper c) = true.
Proof.
  destruct c as [[] [] [] [] [] [] [] []]; vm_compute; intros H; try discriminate H;
    repeat split; discriminate.
Qed.

Lemma token_cons (i s : string) :
  token i s = String "[" (String "I" (String "M" (String "G" (String ":" (i +:+ String "]" s))))).
Proof. reflexivity. Qed.

Lemma token_app (i s u : string) : token i s +:+ u = token i (s +:+ u).
Proof. unfold token. now rewrite !append_assoc. Qed.

Lemma is_char_sym (a b : ascii) : Char.is_char a b = Char.is_char b a.
Proof. apply Ascii.eqb_sym. Qed.

Lemma is_char_false (d c : ascii) : c <> d -> Char.is_char d c = false.
Proof. intros H. apply Ascii.eqb_neq. exact H. Qed.

Lemma trimEnd_ids (i s : string) :
  allid i = true ->
  Str.trimEnd (i +:+ String "]" s) = i +:+ String "]" (Str.trimEnd s).
Proof.
  induction i as [|a i IH]; intros Hi; simpl in *.
  - reflexivity.
  - apply andb_true_iff in Hi as [Ha Hi]. rewrite !append_cons. simpl.
    destruct (idchar_facts a Ha) as (-> & _). rewrite (IH Hi). reflexivity.
Qed.

Lemma trimEnd_token (i s : string) :
  allid i = true -> Str.trimEnd (token i s) = token i (Str.trimEnd s).
Proof.
  intros Hi. rewrite !token_cons. simpl. now rewrite trimEnd_ids.
Qed.

Lemma rest_of_line_cons (c : ascii) (s : string) :
  Re.rest_of_line (String c s) =
  if negb (Char.is_line_terminator c) then String c (Re.rest_of_line s) else "".
Proof. reflexivity. Qed.

Lemma rest_of_line_ids (i s : string) :
  allid i = true ->
  Re.rest_of_line (i +:+ String "]" s) = i +:+ String "]" (Re.rest_of_line s).
Proof.
  induction i as [|a i IH]; intros Hi; simpl in *.
  - reflexivity.
  - apply andb_true_iff in Hi as [Ha Hi]. rewrite !append_cons, rest_of_line_cons.
    destruct (idchar_facts a Ha) as (_ & -> & _). simpl. now rewrite (IH Hi).
Qed.

Lemma rest_of_line_token (i s : string) :
  allid i = true -> Re.rest_of_line (token i s) = token i (Re.rest_of_line s).
Proof.
  intros Hi. rewrite !token_cons, !rest_of_line_cons. simpl.
  now rewrite rest_of_line_ids.
Qed.

Lemma strip_prefix_ci_cons (a c : ascii) (w s : string) :
  Str.strip_prefix_ci (String a w) (String c s) =
  if Char.is_char a (Char.toUpper c) then Str.strip_prefix_ci w s else None.
Proof. reflexivity. Qed.

(** *** Text operations keep related texts related *)

Section Related.

Variable C : ascii -> bool.
Variable T : string -> string -> Prop.
Hypothesis T_ids : forall i j, T i j -> anyIds i j.

Local Abbreviation relatedRest := (relatedRest C T).

Lemma related_sameText (s t : string) : related C T s t -> sameText s t.
Proof.
  induction 1 as [|c s t _ _ IH|i j s t Hij _ IH].
  - constructor.
  - now apply rel_char.
  - apply rel_token; [now apply T_ids | exact IH].
Qed.

Lemma related_refl (s : string) : allChars C s = true -> related C T s s.
Proof.
  induction s as [|c s IH]; simpl; intros H; [constructor|].
  apply andb_true_iff in H as [Hc Hs]. apply rel_char; auto.
Qed.

Lemma related_app (s t u v : string) :
  related C T s t -> related C T u v -> related C T (s +:+ u) (t +:+ v).
Proof.
  induction 1 as [|c s t Hc _ IH|i j s t Hij _ IH]; intros Huv.
  - exact Huv.
  - rewrite !append_cons. apply rel_char; [exact Hc | now apply IH].
  - rewrite !token_app. apply rel_token; [exact Hij | now apply IH].
Qed.

Lemma related_empty (s t : string) : related C T s t -> Str.is_empty s = Str.is_empty t.
Proof. destruct 1; reflexivity. Qed.

Lemma related_first_is (p : ascii -> bool) (s t : string) :
  related C T s t -> Str.first_is p s = Str.first_is p t.
Proof. destruct 1; reflexivity. Qed.

Lemma related_drop_while (p : ascii -> bool) (s t : string) :
  p "["%char = false -> related C T s t ->
  Str.take_while p s = Str.take_while p t /\
  related C T (Str.drop_while p s) (Str.drop_while p t).
Proof.
  intros Hp. induction 1 as [|c s t Hc H IH|i j s t Hij H IH].
  - split; constructor.
  - simpl. destruct (p c).
    + destruct IH as [-> IH]. split; [reflexivity | exact IH].
    + split; [reflexivity | now apply rel_char].
  - rewrite !token_cons. simpl. rewrite Hp. rewrite <- !token_cons.
    split; [reflexivity | now apply rel_token].
Qed.

Lemma related_ws (s t : string) : related C T s t -> related C T (Re.ws s) (Re.ws t).
Proof. intros H. now apply related_drop_while. Qed.

Lemma related_trimEnd (s t : string) :
  related C T s t -> related C T (Str.trimEnd s) (Str.trimEnd t).
Proof.
  induction 1 as [|c s t Hc H IH|i j s t Hij H IH].
  - constructor.
  - simpl. rewrite (related_empty _ _ IH).
    destruct (Char.is_space c && Str.is_empty (Str.trimEnd t)); [constructor|].
    now apply rel_char.
  - destruct (T_ids _ _ Hij) as (Hi & Hj & _).
    rewrite !trimEnd_token by assumption. now apply rel_token.
Qed.

Lemma related_trim (s t : string) : related C T s t -> related C T (Str.trim s) (Str.trim t).
Proof. intros H. unfold Str.trim. now apply related_trimEnd, related_ws. Qed.

Lemma related_rest_of_line (s t : string) :
  related C T s t -> related C T (Re.rest_of_line s) (Re.rest_of_line t).
Proof.
  induction 1 as [|c s t Hc H IH|i j s t Hij H IH].
  - constructor.
  - rewrite !rest_of_line_cons.
    destruct (negb (Char.is_line_terminator c)); [now apply rel_char | constructor].
  - destruct (T_ids _ _ Hij) as (Hi & Hj & _).
    rewrite !rest_of_line_token by assumption. now apply rel_token.
Qed.

Lemma related_ws1 (s t : string) :
  related C T s t -> agree (related C T) (Re.ws1 s) (Re.ws1 t).
Proof.
  intros H. unfold Re.ws1. rewrite (related_first_is _ _ _ H).
  destruct (Str.first_is Char.is_space t); constructor.
  now apply related_ws.
Qed.

Lemma related_one (p : ascii -> bool) (s t : string) :
  p "["%char = false -> related C T s t -> agree relatedRest (Re.one p s) (Re.one p t).
Proof.
  intros Hp. destruct 1 as [|c s t Hc H|i j s t Hij H].
  - constructor.
  - simpl. destruct (p c); constructor. split; [reflexivity | exact H].
  - rewrite !token_cons. simpl. rewrite Hp. constructor.
Qed.

Lemma related_opt (p : ascii -> bool) (s t : string) :
  p "["%char = false -> related C T s t -> related C T (Re.opt p s) (Re.opt p t).
Proof.
  intros Hp H. destruct H as [|c s t Hc H|i j s t Hij H].
  - constructor.
  - simpl. destruct (p c); [exact H | now apply rel_char].
  - rewrite !token_cons. simpl. rewrite Hp. rewrite <- !token_cons. now apply rel_token.
Qed.

Lemma related_many1 (p : ascii -> bool) (s t : string) :
  p "["%char = false -> related C T s t -> agree relatedRest (Re.many1 p s) (Re.many1 p t).
Proof.
  intros Hp H. unfold Re.many1. rewrite (related_first_is _ _ _ H).
  destruct (Str.first_is p t); constructor.
  destruct (related_drop_while p s t Hp H) as [H1 H2]. split; assumption.
Qed.

Lemma related_strip_prefix_ci (w s t : string) :
  lacks "[" w = true -> related C T s t ->
  agree (related C T) (Str.strip_prefix_ci w s) (Str.strip_prefix_ci w t).
Proof.
  revert s t. induction w as [|a w IH]; intros s t Hw H.
  - destruct s, t; simpl; now constructor.
  - simpl in Hw. apply andb_true_iff in Hw as [Ha Hw].
    destruct H as [|c s t Hc H|i j s t Hij H].
    + constructor.
    + rewrite !strip_prefix_ci_cons.
      destruct (Char.is_char a (Char.toUpper c)); [now apply IH | constructor].
    + rewrite !token_cons, !strip_prefix_ci_cons.
      change (Char.toUpper "[") with "["%char. rewrite is_char_sym.
      apply negb_true_iff in Ha. rewrite Ha. constructor.
Qed.

(** the expressions of the structural parser that capture text *)
Lemma questionStartMatch_related (s t : string) :
  related C T s t -> agree relatedRest (questionStartMatch s) (questionStartMatch t).
Proof.
  intros H. unfold questionStartMatch.
  destruct (related_many1 Char.is_digit _ _ eq_refl (related_ws _ _ H))
    as [|[d r] [d' r'] [Hd Hr]]; simpl in *; [constructor|]. subst d'.
  destruct (related_one is_question_mark _ _ eq_refl (related_ws _ _ Hr))
    as [|[c u] [c' u'] [Hc Hu]]; simpl in *; [constructor|].
  destruct (related_ws1 _ _ Hu) as [|v v' Hv]; simpl; constructor.
  split; [reflexivity | now apply related_rest_of_line].
Qed.

Lemma optionMatch_related (s t : string) :
  related C T s t -> agree relatedRest (optionMatch s) (optionMatch t).
Proof.
  intros H. unfold optionMatch.
  assert (Hm : agree relatedRest
    match Re.one Char.is_alpha (Re.ws s) with
    | Some (l, r) => '(_, r) ← Re.one is_option_mark (Re.ws r); Some (l, r)
    | None =>
        '(_, r) ← Re.one (Char.is_char "(") (Re.ws s);
        '(l, r) ← Re.one Char.is_alpha (Re.ws r);
        '(_, r) ← Re.one (Char.is_char ")") (Re.ws r);
        Some (l, r)
    end
    match Re.one Char.is_alpha (Re.ws t) with
    | Some (l, r) => '(_, r) ← Re.one is_option_mark (Re.ws r); Some (l, r)
    | None =>
        '(_, r) ← Re.one (Char.is_char "(") (Re.ws t);
        '(l, r) ← Re.one Char.is_alpha (Re.ws r);
        '(_, r) ← Re.one (Char.is_char ")") (Re.ws r);
        Some (l, r)
    end).
  { pose proof (related_ws _ _ H) as Hw.
    destruct (related_one Char.is_alpha _ _ eq_refl Hw) as [|[l r] [l' r'] [Hl Hr]];
      simpl in *.
    - destruct (related_one (Char.is_char "(") _ _ eq_refl Hw)
        as [|[c u] [c' u'] [Hc Hu]]; simpl in *; [constructor|].
      destruct (related_one Char.is_alpha _ _ eq_refl (related_ws _ _ Hu))
        as [|[l r] [l' r'] [Hl Hr]]; simpl in *; [constructor|]. subst l'.
      destruct (related_one (Char.is_char ")") _ _ eq_refl (related_ws _ _ Hr))
        as [|[d v] [d' v'] [Hd Hv]]; simpl in *; constructor. split; simpl; auto.
    - subst l'.
      destruct (related_one is_option_mark _ _ eq_refl (related_ws _ _ Hr))
        as [|[d v] [d' v'] [Hd Hv]]; simpl in *; constructor. split; simpl; auto. }
  destruct Hm as [|[l r] [l' r'] [Hl Hr]]; simpl in *; [constructor|]. subst l'.
  destruct (related_ws1 _ _ Hr) as [|v v' Hv]; simpl; constructor.
  split; [reflexivity | now apply related_rest_of_line].
Qed.

End Related.

(** *** Reading two texts in step *)

Lemma aligned_ids (i j s t : string) :
  allid i = true -> allid j = true -> String.length i = String.length j ->
  aligned Out s t -> aligned InId (i +:+ String "]" s) (j +:+ String "]" t).
Proof.
  revert j. induction i as [|a i IH]; intros [|b j] Hi Hj Hl Hs; simpl in *; try discriminate.
  - now apply al_close.
  - apply andb_true_iff in Hi as [Ha Hi]. apply andb_true_iff in Hj as [Hb Hj].
    rewrite !append_cons. apply al_id; auto.
Qed.

Lemma sameText_aligned (s t : string) : sameText s t -> aligned Out s t.
Proof.
  induction 1 as [|c s t _ _ IH|i j s t (Hi & Hj & Hl) _ IH].
  - constructor.
  - now apply al_char.
  - rewrite !token_cons. apply al_bracket. do 3 apply al_opening. apply al_colon.
    now apply aligned_ids.
Qed.

Lemma aligned_sym (q : Pos) (s t : string) : aligned q s t -> aligned q t s.
Proof.
  induction 1;
    [apply al_nil | apply al_char | apply al_bracket | apply al_opening | apply al_colon
    | apply al_id | apply al_close]; assumption.
Qed.

Lemma aligned_first_word (q : Pos) (s t : string) :
  aligned q s t -> Str.first_is Char.is_word s = Str.first_is Char.is_word t.
Proof.
  destruct 1 as [| | | | |a b s t Ha Hb _|]; try reflexivity. simpl.
  destruct (idchar_facts a Ha) as (_ & _ & -> & _).
  now destruct (idchar_facts b Hb) as (_ & _ & -> & _).
Qed.

Lemma aligned_nonempty (q : Pos) (s t : string) :
  aligned q s t ->
  Str.is_empty s = Str.is_empty t /\ (q <> Out -> Str.is_empty s = false).
Proof. destruct 1; simpl; split; try reflexivity; intros H; congruence. Qed.

(** *** Searches do not see the identifiers *)

Lemma search_from_cons (M : bool -> string -> bool) (pw : bool) (c : ascii) (s : string) :
  Re.search_from M pw (String c s) = M pw (String c s) || Re.search_from M (Char.is_word c) s.
Proof. reflexivity. Qed.

Lemma search_respects (M : bool -> string -> bool) :
  respects M ->
  forall q s t pw, aligned q s t -> Re.search_from M pw s = Re.search_from M pw t.
Proof.
  intros HM q s t pw H. revert pw.
  induction H as [|c s t H IH|s t H IH|c r s t H IH|s t H IH|a b s t Ha Hb H IH|s t H IH];
    intros pw.
  - reflexivity.
  - rewrite !search_from_cons, IH. f_equal. apply (HM Out). now constructor.
  - rewrite !search_from_cons, IH. f_equal. apply (HM Out). now constructor.
  - rewrite !search_from_cons, IH. f_equal. apply (HM (Opening (String c r))). now constructor.
  - rewrite !search_from_cons, IH. f_equal. apply (HM (Opening "")). now constructor.
  - rewrite !search_from_cons.
    destruct (idchar_facts a Ha) as (_ & _ & -> & _).
    destruct (idchar_facts b Hb) as (_ & _ & -> & _).
    rewrite IH. f_equal. apply (HM InId). now constructor.
  - rewrite !search_from_cons, IH. f_equal. apply (HM InId). now constructor.
Qed.

Lemma on_line_cons (M : bool -> string -> bool) (pw : bool) (c : ascii) (s : string) :
  Re.on_line M pw (String c s) =
  M pw (String c s) ||
  (if Char.is_line_terminator c then false else Re.on_line M (Char.is_word c) s).
Proof. reflexivity. Qed.

Lemma on_line_respects (M : bool -> string -> bool) :
  respects M ->
  forall q s t pw, aligned q s t -> Re.on_line M pw s = Re.on_line M pw t.
Proof.
  intros HM q s t pw H. revert pw.
  induction H as [|c s t H IH|s t H IH|c r s t H IH|s t H IH|a b s t Ha Hb H IH|s t H IH];
    intros pw.
  - reflexivity.
  - rewrite !on_line_cons, IH. f_equal. apply (HM Out). now constructor.
  - rewrite !on_line_cons, IH. f_equal. apply (HM Out). now constructor.
  - rewrite !on_line_cons, IH. f_equal. apply (HM (Opening (String c r))). now constructor.
  - rewrite !on_line_cons, IH. f_equal. apply (HM (Opening "")). now constructor.
  - rewrite !on_line_cons.
    destruct (idchar_facts a Ha) as (_ & -> & -> & _).
    destruct (idchar_facts b Hb) as (_ & -> & -> & _).
    rewrite IH. f_equal. apply (HM InId). now constructor.
  - rewrite !on_line_cons, IH. f_equal. apply (HM InId). now constructor.
Qed.

Lemma strip_prefix_cons (a c : ascii) (w s : string) :
  Str.strip_prefix (String a w) (String c s) =
  if Char.is_char a c then Str.strip_prefix w s else None.
Proof. reflexivity. Qed.

Lemma strip_prefix_in_id (w s t : string) :
  blocked w = true -> aligned InId s t -> Str.strip_prefix w s = None.
Proof.
  revert s t. induction w as [|c w IH]; intros s t Hw H; [discriminate|].
  simpl in Hw. inversion H as [| | | | |a b s' t' Ha Hb H'|s' t' H']; subst.
  - rewrite strip_prefix_cons. destruct (idchar c) eqn:Ec.
    + rewrite (IH _ _ Hw H'). now destruct (Char.is_char c a).
    + rewrite is_char_false; [reflexivity|]. intros ->. congruence.
  - rewrite strip_prefix_cons. destruct (idchar c) eqn:Ec.
    + destruct (idchar_facts c Ec) as (_ & _ & _ & Hc & _).
      rewrite is_char_false; [reflexivity|]. congruence.
    + apply negb_true_iff in Hw. rewrite is_char_sym, Hw. reflexivity.
Qed.

Lemma strip_prefix_outside (w : string) (q : Pos) (s t : string) :
  lacks ":" w = true -> q <> InId -> aligned q s t ->
  agree outside (Str.strip_prefix w s) (Str.strip_prefix w t).
Proof.
  revert q s t. induction w as [|c w IH]; intros q s t Hw Hq H.
  - destruct s, t; simpl; constructor; exists q; auto.
  - simpl in Hw. apply andb_true_iff in Hw as [Hc Hw].
    inversion H as [|x s' t' H'|s' t' H'|x r s' t' H'|s' t' H'| |]; subst;
      try congruence; try constructor; rewrite ?strip_prefix_cons.
    + destruct (Char.is_char c x); [|constructor]. now apply (IH Out).
    + destruct (Char.is_char c "["); [|constructor]. now apply (IH (Opening "IMG")).
    + destruct (Char.is_char c x); [|constructor]. now apply (IH (Opening r)).
    + apply negb_true_iff in Hc. rewrite is_char_sym, Hc. constructor.
Qed.

Lemma word_here_respects (w : string) (k : string -> bool) :
  lacks ":" w = true -> blocked w = true ->
  (forall r r', outside r r' -> k r = k r') ->
  respects (Re.word_here w k).
Proof.
  intros Hl Hb Hk q s t pw H. unfold Re.word_here, Re.boundary.
  rewrite (aligned_first_word _ _ _ H). f_equal.
  destruct q.
  - destruct (strip_prefix_outside w Out s t Hl ltac:(discriminate) H) as [|r r' Hr];
      [reflexivity|].
    rewrite (Hk _ _ Hr). destruct Hr as (q' & _ & Hr).
    now rewrite (aligned_first_word _ _ _ Hr).
  - destruct (strip_prefix_outside w (Opening r) s t Hl ltac:(discriminate) H) as [|r0 r' Hr];
      [reflexivity|].
    rewrite (Hk _ _ Hr). destruct Hr as (q' & _ & Hr).
    now rewrite (aligned_first_word _ _ _ Hr).
  - now rewrite (strip_prefix_in_id w s t Hb H),
      (strip_prefix_in_id w t s Hb (aligned_sym _ _ _ H)).
Qed.

Lemma any_outside (r r' : string) : outside r r' -> Re.any r = Re.any r'.
Proof. reflexivity. Qed.

Lemma has_word_same (w s t : string) :
  lacks ":" w = true -> blocked w = true -> sameText s t -> has_word w s = has_word w t.
Proof.
  intros Hl Hb H. unfold has_word, Re.search.
  apply (search_respects _ (word_here_respects w Re.any Hl Hb any_outside) Out).
  now apply sameText_aligned.
Qed.

Lemma re_true_false_same (s t : string) :
  sameText s t -> re_true_false s = re_true_false t.
Proof.
  intros H. unfold re_true_false, Re.search.
  apply (search_respects _) with (q := Out); [|now apply sameText_aligned].
  apply word_here_respects; [reflexivity | reflexivity |].
  intros r r' (q & _ & Hr).
  apply (on_line_respects _) with (q := q); [|exact Hr].
  apply word_here_respects; [reflexivity | reflexivity | apply any_outside].
Qed.

Lemma includes_cons (w : string) (c : ascii) (s : string) :
  Str.includes w (String c s) = Str.starts_with w (String c s) || Str.includes w s.
Proof. reflexivity. Qed.

Lemma starts_with_aligned (w : string) (q : Pos) (s t : string) :
  lacks ":" w = true -> blocked w = true -> aligned q s t ->
  Str.starts_with w s = Str.starts_with w t.
Proof.
  intros Hl Hb H. unfold Str.starts_with. destruct q.
  - now destruct (strip_prefix_outside w Out s t Hl ltac:(discriminate) H).
  - now destruct (strip_prefix_outside w (Opening r) s t Hl ltac:(discriminate) H).
  - now rewrite (strip_prefix_in_id w s t Hb H),
      (strip_prefix_in_id w t s Hb (aligned_sym _ _ _ H)).
Qed.

Lemma includes_aligned (w : string) (q : Pos) (s t : string) :
  lacks ":" w = true -> blocked w = true -> aligned q s t ->
  Str.includes w s = Str.includes w t.
Proof.
  intros Hl Hb H.
  induction H as [|c s t H IH|s t H IH|c r s t H IH|s t H IH|a b s t Ha Hb' H IH|s t H IH].
  - reflexivity.
  - rewrite !includes_cons, IH. f_equal. apply (starts_with_aligned w Out); auto.
    now constructor.
  - rewrite !includes_cons, IH. f_equal. apply (starts_with_aligned w Out); auto.
    now constructor.
  - rewrite !includes_cons, IH. f_equal.
    apply (starts_with_aligned w (Opening (String c r))); auto. now constructor.
  - rewrite !includes_cons, IH. f_equal. apply (starts_with_aligned w (Opening "")); auto.
    now constructor.
  - rewrite !includes_cons, IH. f_equal. apply (starts_with_aligned w InId); auto.
    now constructor.
  - rewrite !includes_cons, IH. f_equal. apply (starts_with_aligned w InId); auto.
    now constructor.
Qed.

Lemma includes_same (w s t : string) :
  lacks ":" w = true -> blocked w = true -> sameText s t ->
  Str.includes w s = Str.includes w t.
Proof. intros Hl Hb H. apply (includes_aligned w Out); auto. now apply sameText_aligned. Qed.

Lemma last_is_cons (p : ascii -> bool) (c : ascii) (s : string) :
  Str.last_is p (String c s) = if Str.is_empty s then p c else Str.last_is p s.
Proof. destruct s; reflexivity. Qed.

Lemma last_is_aligned (p : ascii -> bool) (q : Pos) (s t : string) :
  aligned q s t -> Str.last_is p s = Str.last_is p t.
Proof.
  induction 1 as [|c s t H IH|s t H IH|c r s t H IH|s t H IH|a b s t Ha Hb H IH|s t H IH];
    rewrite ?last_is_cons; try reflexivity;
    destruct (aligned_nonempty _ _ _ H) as [He Hq]; rewrite <- ?He.
  - destruct (Str.is_empty s); [reflexivity | exact IH].
  - rewrite Hq by discriminate. exact IH.
  - rewrite Hq by discriminate. exact IH.
  - rewrite Hq by discriminate. exact IH.
  - rewrite Hq by discriminate. exact IH.
  - destruct (Str.is_empty s); [reflexivity | exact IH].
Qed.

Lemma last_is_same (p : ascii -> bool) (s t : string) :
  sameText s t -> Str.last_is p s = Str.last_is p t.
Proof. intros H. apply (last_is_aligned p Out). now apply sameText_aligned. Qed.

(** *** Upper case *)

Lemma toUpperCase_ids (i s : string) :
  Str.toUpperCase (i +:+ String "]" s)
  = Str.toUpperCase i +:+ String "]" (Str.toUpperCase s).
Proof.
  unfold Str.toUpperCase.
  induction i as [|a i IH]; simpl; [reflexivity|].
  rewrite !append_cons. simpl. now rewrite IH.
Qed.

Lemma allid_toUpperCase (i : string) : allid i = true -> allid (Str.toUpperCase i) = true.
Proof.
  unfold Str.toUpperCase.
  induction i as [|a i IH]; simpl; [reflexivity|]. intros H.
  apply andb_true_iff in H as [Ha Hi]. apply andb_true_iff. split; [|auto].
  now destruct (idchar_facts a Ha) as (_ & _ & _ & _ & _ & _ & ->).
Qed.

Lemma length_toUpperCase (i : string) :
  String.length (Str.toUpperCase i) = String.length i.
Proof.
  unfold Str.toUpperCase. induction i as [|a i IH]; simpl; [reflexivity | now rewrite IH].
Qed.

Lemma toUpperCase_token (i s : string) :
  Str.toUpperCase (token i s) = token (Str.toUpperCase i) (Str.toUpperCase s).
Proof.
  rewrite !token_cons. unfold Str.toUpperCase. simpl. f_equal. f_equal. f_equal. f_equal.
  f_equal. apply toUpperCase_ids.
Qed.

Lemma sameText_toUpperCase (s t : string) :
  sameText s t -> sameText (Str.toUpperCase s) (Str.toUpperCase t).
Proof.
  induction 1 as [|c s t _ H IH|i j s t (Hi & Hj & Hl) H IH].
  - constructor.
  - simpl. now apply rel_char.
  - rewrite !toUpperCase_token.
    apply rel_token; [|exact IH].
    repeat split; auto using allid_toUpperCase. now rewrite !length_toUpperCase.
Qed.

(** *** The decisions of the structural parser *)

Lemma re_answer_key_same (s t : string) :
  sameText s t -> re_answer_key s = re_answer_key t.
Proof.
  intros H. unfold re_answer_key.
  destruct (related_strip_prefix_ci _ _ "ANSWER" _ _ eq_refl (related_ws _ _ _ _ H))
    as [|r r' Hr]; cbn [mbind option_bind]; [reflexivity|].
  destruct (related_ws1 _ _ _ _ Hr) as [|u u' Hu]; cbn [mbind option_bind]; [reflexivity|].
  destruct (related_strip_prefix_ci _ _ "KEY" _ _ eq_refl Hu) as [|v v' Hv];
    cbn [mbind option_bind]; [reflexivity|].
  unfold Re.eos. cbn [default from_option id].
  apply (related_empty anyChar anyIds), related_ws, related_opt; [reflexivity|].
  now apply related_ws.
Qed.

Lemma re_match_start_same (s t : string) :
  sameText s t -> re_match_start s = re_match_start t.
Proof.
  intros H. unfold re_match_start.
  destruct (related_strip_prefix_ci _ _ "MATCH" _ _ eq_refl (related_ws _ _ _ _ H))
    as [|r r' Hr]; [reflexivity|].
  now apply (related_first_is anyChar anyIds).
Qed.

(** the type inferred for a stem does not depend on the identifiers in
    it *)
Lemma inferQuestionType_same (s t : string) (opts opts' : list Opt) :
  sameText s t -> letters_of opts = letters_of opts' ->
  inferQuestionType s opts = inferQuestionType t opts'.
Proof.
  intros H Ho. unfold inferQuestionType.
  pose proof (sameText_toUpperCase _ _ H) as Hu.
  rewrite (re_true_false_same _ _ Hu).
  rewrite (includes_same "TRUE/FALSE" _ _ eq_refl eq_refl Hu).
  rewrite (has_word_same "MATCHING" _ _ eq_refl eq_refl Hu).
  rewrite (re_match_start_same _ _ H).
  rewrite (has_word_same "ORDERING" _ _ eq_refl eq_refl Hu).
  rewrite (has_word_same "ORDER" _ _ eq_refl eq_refl Hu).
  rewrite (has_word_same "SEQUENCE" _ _ eq_refl eq_refl Hu).
  rewrite (includes_same "___" _ _ eq_refl eq_refl H).
  rewrite Ho.
  destruct opts, opts'; try discriminate Ho; reflexivity.
Qed.

(** *** Minted identifiers *)

Lemma hex_digit_idchar (n : N) : (n < 16)%N -> idchar (Char.hex_digit n) = true.
Proof.
  intros H.
  assert (Hall : forallb (fun k => idchar (Char.hex_digit (N.of_nat k))) (seq 0 16) = true)
    by reflexivity.
  rewrite List.forallb_forall in Hall. specialize (Hall (N.to_nat n)).
  rewrite N2Nat.id in Hall. apply Hall. apply List.in_seq. lia.
Qed.

Lemma allid_app (i j : string) : allid i = true -> allid j = true -> allid (i +:+ j) = true.
Proof.
  induction i as [|a i IH]; simpl; intros Hi Hj; [exact Hj|].
  apply andb_true_iff in Hi as [Ha Hi]. rewrite ?append_cons. simpl.
  now rewrite Ha, IH.
Qed.

Lemma string_length_app (i j : string) :
  String.length (i +:+ j) = String.length i + String.length j.
Proof. induction i as [|a i IH]; [reflexivity|]. rewrite append_cons. simpl. now rewrite IH. Qed.

Lemma hex_acc_spec (k : nat) (v : N) (acc : string) :
  exists i, Str.hex_acc k v acc = i +:+ acc /\ allid i = true /\ String.length i = k.
Proof.
  revert v acc. induction k as [|k IH]; intros v acc; simpl.
  - exists "". repeat split.
  - destruct (IH (v / 16)%N (String (Char.hex_digit (v mod 16)%N) acc)) as (i & -> & Hi & Hl).
    exists (i +:+ String (Char.hex_digit (v mod 16)%N) ""). split; [|split].
    + now rewrite append_assoc.
    + apply allid_app; [exact Hi|]. simpl. rewrite hex_digit_idchar; [reflexivity|].
      apply N.mod_lt. discriminate.
    + rewrite string_length_app, Hl. simpl. lia.
Qed.

Lemma uuid_string_id (v : N) :
  allid (uuid_string v) = true /\ String.length (uuid_string v) = 32.
Proof.
  unfold uuid_string, Str.hex. destruct (hex_acc_spec 32 v "") as (i & -> & Hi & Hl).
  now rewrite append_empty_r.
Qed.

Lemma uuid_strings_anyIds (v w : N) : anyIds (uuid_string v) (uuid_string w).
Proof.
  destruct (uuid_string_id v) as [Hv Lv]. destruct (uuid_string_id w) as [Hw Lw].
  split; [exact Hv|]. split; [exact Hw | congruence].
Qed.

Lemma nonempty_length {A B} (l : list A) (l' : list B) :
  length l = length l' -> nonempty l = nonempty l'.
Proof. destruct l, l'; simpl; congruence. Qed.

(** *** Blocks, questions and states of two runs *)

Section Runs.

Variable C : ascii -> bool.
Variable T : string -> string -> Prop.
Hypothesis T_ids : forall i j, T i j -> anyIds i j.
Hypothesis C_space : C " " = true.

Local Abbreviation relBlock := (relBlock C T).
Local Abbreviation relOpt := (relOpt C T).
Local Abbreviation relQuestion := (relQuestion C T).
Local Abbreviation relState := (relState C T).

Lemma relQuestion_finalize (q q' : Question) (acc acc' : list ImageMeta) :
  relQuestion q q' -> relQuestion (finalize q acc) (finalize q' acc').
Proof. intros H. exact H. Qed.

Lemma push_finalized_related (st st' : ParseState) (acc acc' : list ImageMeta) :
  relState st st' ->
  Forall2 relQuestion (push_finalized st acc) (push_finalized st' acc').
Proof.
  intros [Hq Hc _ _]. unfold push_finalized.
  destruct Hc as [|q q' H]; [exact Hq|].
  apply Forall2_app; [exact Hq|]. constructor; [|constructor].
  now apply relQuestion_finalize.
Qed.

Lemma letters_of_related (os os' : list Opt) :
  Forall2 relOpt os os' -> letters_of os = letters_of os'.
Proof.
  unfold letters_of. induction 1 as [|o o' os os' [Hl _] _ IH]; [reflexivity|].
  rewrite !fmap_cons. now rewrite Hl, IH.
Qed.

Lemma add_option_related (q q' : Question) (l : ascii) (rest rest' : string)
    (acc acc' : list ImageMeta) :
  relQuestion q q' -> related C T rest rest' ->
  relQuestion (add_option q l rest acc) (add_option q' l rest' acc').
Proof.
  intros (Hn & Ht & Hx & Ho) Hr.
  assert (Hopts : Forall2 relOpt
    (options q ++ [{| letter := String (Char.toUpper l) ""; o_text := Str.trim rest;
                      o_images := List.filter
                        (fun img => Str.includes (placeholder (id img)) (Str.trim rest)) acc |}])
    (options q' ++ [{| letter := String (Char.toUpper l) ""; o_text := Str.trim rest';
                       o_images := List.filter
                         (fun img => Str.includes (placeholder (id img)) (Str.trim rest')) acc' |}])).
  { apply Forall2_app; [exact Ho|]. constructor; [|constructor].
    split; [reflexivity | now apply related_trim]. }
  unfold add_option, relQuestion. simpl.
  rewrite <- Ht, (letters_of_related _ _ Hopts). auto.
Qed.

Lemma append_text_related (q q' : Question) (s s' : string) :
  relQuestion q q' -> related C T s s' ->
  relQuestion (append_text q s) (append_text q' s').
Proof.
  intros (Hn & Ht & Hx & Ho) Hs. unfold append_text, relQuestion. simpl.
  repeat split; auto.
  rewrite (related_empty _ _ _ _ Hx), (last_is_same _ _ _ (related_sameText _ _ T_ids _ _ Hx)),
    (related_first_is _ _ _ _ _ Hs).
  apply related_app; [exact Hx|]. apply related_app; [|exact Hs].
  destruct (_ && _); [|constructor]. apply rel_char; [exact C_space | constructor].
Qed.

Lemma mark_images_related (b b' : bool) (q q' : Question) :
  relQuestion q q' -> relQuestion (mark_images b q) (mark_images b' q').
Proof. intros H. exact H. Qed.

(** a step of the loop keeps the states of the two runs related *)
Lemma step_related (i : nat) (d d' : ElementData) (st st' : ParseState) :
  relBlock d d' -> relState st st' -> relState (step i d st) (step i d' st').
Proof.
  intros [Ht Hi] Hst. unfold step.
  destruct (questionStartMatch_related _ _ T_ids _ _ Ht)
    as [|[digits rest] [digits' rest'] [Hd Hr]].
  - destruct Hst as [Hq Hc Hn Hty].
    destruct Hc as [|q q' Hqq]; [constructor; simpl; auto; constructor|].
    destruct (optionMatch_related _ _ T_ids _ _ Ht) as [|[l r] [l' r'] [Hl Hr]].
    + rewrite (related_empty _ _ _ _ Ht).
      destruct (Str.is_empty (e_text d')); constructor;
        cbn [questions currentQuestion currentQuestionNumber questionTypes]; auto;
        constructor; apply mark_images_related; auto using append_text_related.
    + cbn [fst snd] in Hl, Hr. subst l'.
      pose proof (add_option_related q q' l r r'
        (accumulatedImages st ++ (name_image (Some q) i <$> e_images d))
        (accumulatedImages st' ++ (name_image (Some q') i <$> e_images d')) Hqq Hr) as Ha.
      constructor; cbn [questions currentQuestion currentQuestionNumber questionTypes]; auto.
      * constructor. apply mark_images_related. exact Ha.
      * destruct Hqq as (_ & Hqt & _). rewrite Hqt, Hn, Hty.
        destruct Ha as (_ & Hat & _). rewrite Hat. reflexivity.
  - cbn [fst snd] in Hd, Hr. subst digits'.
    pose proof (related_trim _ _ T_ids _ _ Hr) as Htr.
    pose proof (related_sameText _ _ T_ids _ _ Htr) as Hsame.
    constructor; cbn [questions currentQuestion currentQuestionNumber questionTypes].
    + now apply push_finalized_related.
    + constructor. unfold relQuestion. cbn [number type text options].
      repeat split; auto using inferQuestionType_same.
    + reflexivity.
    + rewrite (inferQuestionType_same _ _ [] [] Hsame eq_refl).
      now destruct Hst as [_ _ _ ->].
Qed.

(** the two runs take the same branch of the loop at every block *)
Lemma loop_branch_related (d d' : ElementData) :
  relBlock d d' ->
  isEmptyBlock d = isEmptyBlock d' /\ re_answer_key (e_text d) = re_answer_key (e_text d').
Proof.
  intros [Ht Hi]. unfold isEmptyBlock.
  rewrite (related_empty _ _ _ _ Ht), (nonempty_length _ _ Hi).
  split; [reflexivity|]. apply re_answer_key_same. now apply (related_sameText C T).
Qed.

Lemma blockLoop_related (ds ds' : list ElementData) :
  Forall2 relBlock ds ds' ->
  forall i st st', relState st st' -> relState (blockLoop i ds st) (blockLoop i ds' st').
Proof.
  induction 1 as [|d d' ds ds' Hd _ IH]; intros i st st' Hst; simpl; [exact Hst|].
  destruct (loop_branch_related _ _ Hd) as [-> ->].
  destruct (isEmptyBlock d'); [now apply IH|].
  destruct (re_answer_key (e_text d')); [exact Hst|].
  apply IH. now apply step_related.
Qed.

Lemma initialState_related : relState initialState initialState.
Proof. constructor; simpl; auto; constructor. Qed.

Lemma parseBlocks_related (ds ds' : list ElementData) :
  Forall2 relBlock ds ds' ->
  Forall2 relQuestion (p_questions (parseBlocks ds)) (p_questions (parseBlocks ds'))
  /\ p_questionTypes (parseBlocks ds) = p_questionTypes (parseBlocks ds').
Proof.
  intros H. unfold parseBlocks. simpl.
  pose proof (blockLoop_related _ _ H 0 _ _ initialState_related) as Hst.
  split; [now apply push_finalized_related | now destruct Hst].
Qed.

End Runs.

(** *** Any two supplies of identifiers *)

Lemma anyIds_ids (i j : string) : anyIds i j -> anyIds i j.
Proof. exact (fun H => H). Qed.

Lemma sameText_refl (s : string) : sameText s s.
Proof. apply related_refl. induction s as [|c s IH]; [reflexivity | exact IH]. Qed.

Lemma placeholder_same (v w : N) :
  sameText (placeholder (uuid_string v)) (placeholder (uuid_string w)).
Proof.
  change (sameText (token (uuid_string v) "") (token (uuid_string w) "")).
  apply rel_token; [apply uuid_strings_anyIds | constructor].
Qed.

Lemma processChildren_same (uuid uuid' : nat -> N) (cs : list Child) :
  forall k k' acc acc' imgs imgs',
    sameText acc acc' -> length imgs = length imgs' ->
    sameText (processChildren uuid k cs acc imgs).1.1 (processChildren uuid' k' cs acc' imgs').1.1
    /\ length (processChildren uuid k cs acc imgs).1.2
       = length (processChildren uuid' k' cs acc' imgs').1.2.
Proof.
  induction cs as [|c cs IH]; intros k k' acc acc' imgs imgs' Ha Hi; simpl.
  - split; assumption.
  - destruct c as [s|image|].
    + apply IH; [|exact Hi]. apply related_app; [exact Ha | apply sameText_refl].
    + destruct (getBlob image).
      * apply IH.
        -- apply related_app; [exact Ha | apply placeholder_same].
        -- rewrite !length_app. simpl. lia.
      * now apply IH.
    + now apply IH.
Qed.

Lemma processElement_same (uuid uuid' : nat -> N) (k k' : nat) (e : Element) :
  sameBlock (processElement uuid k e).1 (processElement uuid' k' e).1.
Proof.
  unfold processElement, sameBlock, relBlock.
  pose proof (processChildren_same uuid uuid' (getChildren e) k k' "" "" [] []
                (rel_nil _ _) eq_refl) as [H1 H2].
  destruct (getType e); simpl.
  - destruct (processChildren uuid k (getChildren e) "" []) as [[t i] n].
    destruct (processChildren uuid' k' (getChildren e) "" []) as [[t' i'] n'].
    simpl in *. split; [now apply related_trim; [apply anyIds_ids|] | exact H2].
  - destruct (processChildren uuid k (getChildren e) "" []) as [[t i] n].
    destruct (processChildren uuid' k' (getChildren e) "" []) as [[t' i'] n'].
    simpl in *. split; [now apply related_trim; [apply anyIds_ids|] | exact H2].
  - split; [constructor | reflexivity].
Qed.

Lemma blocks_same (uuid uuid' : nat -> N) (body : Body) (k k' : nat) :
  Forall2 sameBlock (blocks uuid k body) (blocks uuid' k' body).
Proof.
  revert k k'. induction body as [|e body IH]; intros k k'; simpl; [constructor|].
  pose proof (processElement_same uuid uuid' k k' e) as H.
  destruct (processElement uuid k e) as [d n]. destruct (processElement uuid' k' e) as [d' n'].
  constructor; [exact H | apply IH].
Qed.

(** the questions and the type map of two runs over one document *)
Lemma parse_same (uuid uuid' : nat -> N) (body : Body) :
  Forall2 sameQuestion (p_questions (parseQuestions uuid body))
                       (p_questions (parseQuestions uuid' body))
  /\ p_questionTypes (parseQuestions uuid body) = p_questionTypes (parseQuestions uuid' body).
Proof.
  rewrite !parseQuestions_blocks.
  apply (parseBlocks_related anyChar anyIds anyIds_ids eq_refl).
  apply blocks_same.
Qed.

(** a text without an opening bracket is the same up to identifiers as
    itself only, and texts that are the same have the same length *)
Lemma sameText_plain (s t : string) : lacks "[" s = true -> sameText s t -> s = t.
Proof.
  intros Hs H. induction H as [|c s t _ _ IH|i j s t _ _ _].
  - reflexivity.
  - simpl in Hs. apply andb_true_iff in Hs as [_ Hs]. now rewrite IH.
  - rewrite token_cons in Hs. discriminate Hs.
Qed.

Lemma sameText_length (s t : string) : sameText s t -> String.length s = String.length t.
Proof.
  induction 1 as [|c s t _ _ IH|i j s t (_ & _ & Hl) _ IH]; simpl;
    [reflexivity | now rewrite IH |].
  unfold token. rewrite !string_length_app, Hl, IH. reflexivity.
Qed.

Lemma sameQuestions_fields (qs qs' : list Question) :
  Forall2 sameQuestion qs qs' ->
  number <$> qs = number <$> qs' /\
  (fun q => letters_of (options q)) <$> qs = (fun q => letters_of (options q)) <$> qs' /\
  type <$> qs = type <$> qs'.
Proof.
  induction 1 as [|q q' l l' (Hn & Ht & _ & Ho) _ (IH1 & IH2 & IH3)]; [auto|].
  rewrite !fmap_cons, Hn, Ht, (letters_of_related _ _ _ _ Ho), IH1, IH2, IH3. auto.
Qed.

Lemma pipeline_same (uuid uuid' : nat -> N) (body : Body) :
  Forall2 sameEntry (pipeline uuid body) (pipeline uuid' body).
Proof.
  destruct (parse_same uuid uuid' body) as [Hq Hty].
  unfold pipeline. rewrite <- Hty.
  destruct (parseAnswerKey (p_questionTypes (parseQuestions uuid body)) body) as [answers log].
  cbn [fst combineQuestionsAndAnswers].
  induction Hq as [|q q' l l' Hqq _ IH]; rewrite ?fmap_cons; constructor; auto.
  split; cbn [question correctAnswer]; [exact Hqq|]. now destruct Hqq as (-> & _).
Qed.

(** *** Tokens in a text *)

Lemma starts_with_cons (a c : ascii) (w s : string) :
  Str.starts_with (String a w) (String c s) = Char.is_char a c && Str.starts_with w s.
Proof. unfold Str.starts_with. rewrite strip_prefix_cons. now destruct (Char.is_char a c). Qed.

Lemma is_char_refl (c : ascii) : Char.is_char c c = true.
Proof. apply Ascii.eqb_refl. Qed.

(** an identifier before the closing bracket is read off a text that
    begins with an identifier of the same length exactly when the two are
    equal *)
Lemma starts_with_ids (a b s : string) :
  allid a = true -> allid b = true -> String.length a = String.length b ->
  Str.starts_with (a +:+ "]") (b +:+ String "]" s) = String.eqb a b.
Proof.
  revert b. induction a as [|x a IH]; intros [|y b] Ha Hb Hl; simpl in *; try discriminate.
  - reflexivity.
  - apply andb_true_iff in Ha as [Hx Ha]. apply andb_true_iff in Hb as [Hy Hb].
    rewrite !append_cons, starts_with_cons, IH by (auto; lia).
    unfold Char.is_char. now rewrite Ascii.eqb_sym.
Qed.

Lemma includes_skip (p x s : string) :
  Str.first_is (Char.is_char "[") p = true -> allChars plainChar x = true ->
  Str.includes p (x +:+ s) = Str.includes p s.
Proof.
  intros Hp. induction x as [|c x IH]; intros Hx; [reflexivity|].
  simpl in Hx. apply andb_true_iff in Hx as [Hc Hx].
  rewrite append_cons, includes_cons, (IH Hx).
  destruct p as [|a p]; [discriminate|]. simpl in Hp. apply is_char_true in Hp. subst a.
  rewrite starts_with_cons. unfold plainChar in Hc. apply negb_true_iff in Hc.
  now rewrite Hc.
Qed.

Lemma allid_plain (i : string) : allid i = true -> allChars plainChar i = true.
Proof.
  induction i as [|c i IH]; simpl; [reflexivity|]. intros H.
  apply andb_true_iff in H as [Hc Hi]. rewrite (IH Hi), andb_true_r.
  destruct (idchar_facts c Hc) as (_ & _ & _ & _ & _ & Hb & _).
  unfold plainChar. now rewrite is_char_false.
Qed.

Lemma allChars_app (C : ascii -> bool) (x y : string) :
  allChars C x = true -> allChars C y = true -> allChars C (x +:+ y) = true.
Proof.
  induction x as [|c x IH]; intros Hx Hy; [exact Hy|].
  simpl in Hx. apply andb_true_iff in Hx as [Hc Hx]. rewrite append_cons. simpl.
  now rewrite Hc, IH.
Qed.

(** the token of [a] is found in a text that begins with the token of [b]
    when the two are equal, or further on *)
Lemma includes_token (a b s : string) :
  allid a = true -> allid b = true -> String.length a = String.length b ->
  Str.includes (placeholder a) (token b s)
  = String.eqb a b || Str.includes (placeholder a) s.
Proof.
  intros Ha Hb Hl. rewrite token_cons, includes_cons. f_equal.
  - change (placeholder a)
      with (String "[" (String "I" (String "M" (String "G" (String ":" (a +:+ "]")))))).
    rewrite !starts_with_cons, !is_char_refl. simpl. now apply starts_with_ids.
  - change (String "I" (String "M" (String "G" (String ":" (b +:+ String "]" s)))))
      with ("IMG:" +:+ (b +:+ String "]" s)).
    rewrite (includes_skip _ "IMG:") by reflexivity.
    change (b +:+ String "]" s) with (b +:+ ("]" +:+ s)). rewrite <- append_assoc.
    apply includes_skip; [reflexivity|].
    apply allChars_app; [now apply allid_plain | reflexivity].
Qed.

(** the images found by two runs over a document with two pictures *)
Example runs_over_twoPicturesDoc :
  (fun q => (hasImages q, length (images q), (fun o => length (o_images o)) <$> options q))
    <$> p_questions (parseQuestions uuidUp twoPicturesDoc) = [(true, 2, [0; 1])] /\
  (fun q => (hasImages q, length (images q), (fun o => length (o_images o)) <$> options q))
    <$> p_questions (parseQuestions uuidDown twoPicturesDoc) = [(true, 2, [0; 1])].
Proof. vm_compute. repeat split. Qed.

(** an identifier that stands already in the typed text is not fresh:
    when the first supply mints the identifier of the token typed into
    the document, the two runs give the same stem, yet [hasImages] and the
    image list of the question differ *)
Example hasImages_depends_on_ids :
  text <$> p_questions (parseQuestions uuidA typedTokenDoc)
  = text <$> p_questions (parseQuestions uuidB typedTokenDoc) /\
  hasImages <$> p_questions (parseQuestions uuidA typedTokenDoc) = [true] /\
  hasImages <$> p_questions (parseQuestions uuidB typedTokenDoc) = [false] /\
  (fun q => length (images q)) <$> p_questions (parseQuestions uuidA typedTokenDoc) = [1] /\
  (fun q => length (images q)) <$> p_questions (parseQuestions uuidB typedTokenDoc) = [0].
Proof. vm_compute. repeat split. Qed.

(** two runs over a document with an inline image *)
Example runs_over_pictureDoc :
  text <$> p_questions (parseQuestions uuidA pictureDoc)
  = ["Name the shape [IMG:3f2504e04f8941d39a0c0305e82c3301]"] /\
  text <$> p_questions (parseQuestions uuidB pictureDoc)
  = ["Name the shape [IMG:9b1deb4d3b7d4bad9bdd2b0d7b3dcb6d]"] /\
  correctAnswer <$> pipeline uuidA pictureDoc = [Some (AString "B")].
Proof. vm_compute. repeat split. Qed.

(** ** File names *)

Lemma allChars_filter (p : ascii -> bool) (s : string) : allChars p (Str.filter p s) = true.
Proof.
  induction s as [|c s IH]; [reflexivity|]. simpl.
  destruct (p c) eqn:E; [simpl; now rewrite E | exact IH].
Qed.

Lemma allChars_take (p : ascii -> bool) (n : nat) (s : string) :
  allChars p s = true -> allChars p (Str.take n s) = true.
Proof.
  revert s. induction n as [|n IH]; intros [|c s] H; try reflexivity.
  simpl in *. apply andb_true_iff in H as [Hc Hs]. now rewrite Hc, IH.
Qed.

Lemma length_take (n : nat) (s : string) : String.length (Str.take n s) <= n.
Proof.
  revert s. induction n as [|n IH]; intros [|c s]; simpl; try lia.
  specialize (IH s). lia.
Qed.

(** X1: the extension got from a MIME type is never empty, has at most four
    characters, and these are lower-case letters and digits *)
Theorem extension_is_safe (mimeTypeString : string) :
  let ext := getExtensionFromMimeType mimeTypeString in
  Str.is_empty ext = false /\ String.length ext <= 4
  /\ allChars Char.is_lower_alnum ext = true.
Proof.
  unfold getExtensionFromMimeType. cbv zeta.
  repeat match goal with
         | |- context [if ?b then _ else _] =>
             lazymatch b with
             | Str.is_empty (Str.take _ _) => fail
             | _ => destruct b; [repeat split; simpl; lia|]
             end
         end.
  destruct (Str.split _ _) as [|a [|part [|? ?]]]; try (repeat split; simpl; lia).
  destruct (Str.is_empty part); [repeat split; simpl; lia|].
  destruct (Str.is_empty (Str.take 4 _)) eqn:E; [repeat split; simpl; lia|].
  split; [exact E|]. split; [apply length_take|].
  apply allChars_take, allChars_filter.
Qed.

(** *** generateImageFilename *)

Lemma allChars_replace_class (p q : ascii -> bool) (r s : string) :
  allChars q r = true -> (forall c, p c = false -> q c = true) ->
  allChars q (Str.replace_class p r s) = true.
Proof.
  intros Hr Hq. induction s as [|c s IH]; [reflexivity|]. simpl.
  destruct (p c) eqn:E; [now apply allChars_app|]. simpl. now rewrite (Hq c E).
Qed.

Lemma allChars_replace_runs (p q : ascii -> bool) (r : string) (b : bool) (s : string) :
  allChars q r = true -> allChars q s = true ->
  allChars q (Str.replace_runs p r b s) = true.
Proof.
  intros Hr. revert b. induction s as [|c s IH]; intros b Hs; [reflexivity|].
  simpl in *. apply andb_true_iff in Hs as [Hc Hs].
  destruct (p c); [destruct b; [now apply IH | apply allChars_app; auto]|].
  simpl. now rewrite Hc, IH.
Qed.

(** after the runs of underscores are collapsed no two underscores are
    adjacent; a run that was under way leaves none at the start *)
Lemma collapsed_underscores (b : bool) (s : string) :
  let t := Str.replace_runs (Char.is_char "_") "_" b s in
  Str.includes "__" t = false
  /\ (b = true -> Str.first_is (Char.is_char "_") t = false).
Proof.
  revert b. induction s as [|c s IH]; intros b; simpl; [split; [reflexivity | auto]|].
  destruct (Char.is_char "_" c) eqn:E.
  - destruct (IH true) as [H1 H2]. destruct b; [split; [exact H1 | exact H2]|].
    split; [|discriminate]. change ("_" +:+ ?x) with (String "_" x).
    rewrite includes_cons, H1, orb_false_r.
    specialize (H2 eq_refl).
    destruct (Str.replace_runs (Char.is_char "_") "_" true s) as [|d t]; [reflexivity|].
    simpl in H2. rewrite !starts_with_cons, is_char_refl. simpl. now rewrite H2.
  - destruct (IH false) as [H1 _]. split; [|intros _; simpl; exact E].
    rewrite includes_cons, H1, orb_false_r, starts_with_cons. now rewrite E.
Qed.

(** X2: the file name of an image is a base of letters, digits and single
    underscores, a dot, and an extension of lower-case letters and digits:
    it holds one dot and no separator of a path *)
Theorem image_filename_shape (questionNumber : N) (context imageId originalExtension : string) :
  exists base ext,
    generateImageFilename questionNumber context imageId originalExtension
    = base +:+ "." +:+ ext
    /\ allChars Char.is_word base = true /\ Str.includes "__" base = false
    /\ allChars Char.is_lower_alnum ext = true.
Proof.
  unfold generateImageFilename. cbv zeta. eexists _, _. split; [reflexivity|].
  split; [|split].
  - apply allChars_replace_runs; [reflexivity|].
    apply allChars_replace_class; [reflexivity|].
    intros c H. now apply negb_false_iff in H.
  - apply collapsed_underscores.
  - apply allChars_filter.
Qed.

Lemma word_fileChar (c : ascii) : Char.is_word c = true -> fileChar c = true.
Proof. unfold fileChar. now intros ->. Qed.

Lemma lower_alnum_fileChar (c : ascii) : Char.is_lower_alnum c = true -> fileChar c = true.
Proof.
  destruct c as [[] [] [] [] [] [] [] []]; vm_compute; intros H; try discriminate H;
    reflexivity.
Qed.

Lemma allChars_impl (p q : ascii -> bool) (s : string) :
  (forall c, p c = true -> q c = true) -> allChars p s = true -> allChars q s = true.
Proof.
  intros Hpq. induction s as [|c s IH]; [reflexivity|]. simpl. intros H.
  apply andb_true_iff in H as [Hc Hs]. now rewrite (Hpq c Hc), IH.
Qed.

Lemma is_empty_app (a : string) (c : ascii) (b : string) :
  Str.is_empty (a +:+ String c b) = false.
Proof. now destruct a. Qed.

Lemma generateImageFilename_isFileName
    (questionNumber : N) (context imageId originalExtension : string) :
  isFileName (generateImageFilename questionNumber context imageId originalExtension) = true.
Proof.
  unfold isFileName, generateImageFilename. cbv zeta.
  change ("." +:+ ?x) with (String "." x). rewrite is_empty_app, andb_true_r.
  apply allChars_app.
  - apply (allChars_impl Char.is_word); [apply word_fileChar|].
    apply allChars_replace_runs; [reflexivity|].
    apply allChars_replace_class; [reflexivity|].
    intros c H. now apply negb_false_iff in H.
  - simpl. apply (allChars_impl Char.is_lower_alnum); [apply lower_alnum_fileChar|].
    apply allChars_filter.
Qed.

(** *** sanitizeImageFilename *)

Lemma drop_last_underscore_cons (c : ascii) (s : string) :
  drop_last_underscore (String c s) =
  if Str.is_empty s then (if Char.is_char "_" c then "" else String c s)
  else String c (drop_last_underscore s).
Proof. reflexivity. Qed.

Lemma allChars_drop_last (p : ascii -> bool) (s : string) :
  allChars p s = true -> allChars p (drop_last_underscore s) = true.
Proof.
  induction s as [|c s IH]; [reflexivity|]. intros H. rewrite drop_last_underscore_cons.
  simpl in H. apply andb_true_iff in H as [Hc Hs].
  destruct (Str.is_empty s); [destruct (Char.is_char "_" c); simpl; [reflexivity|]|];
    simpl; rewrite Hc; auto.
Qed.

Lemma starts_with_nil (c : ascii) (w : string) : Str.starts_with (String c w) "" = false.
Proof. reflexivity. Qed.

Lemma starts_with_drop_last (s : string) :
  Str.starts_with "__" (drop_last_underscore s) = true -> Str.starts_with "__" s = true.
Proof.
  destruct s as [|a [|b [|c s]]].
  - intros H. exact H.
  - rewrite drop_last_underscore_cons. cbn [Str.is_empty].
    destruct (Char.is_char "_" a) eqn:Ea; [intros H; discriminate H|].
    rewrite starts_with_cons, Ea. intros H. discriminate H.
  - rewrite !drop_last_underscore_cons. cbn [Str.is_empty].
    rewrite !starts_with_cons.
    destruct (Char.is_char "_" b) eqn:Eb.
    + rewrite starts_with_nil, andb_false_r. intros H. discriminate H.
    + rewrite starts_with_cons, Eb. intros H. exact H.
  - rewrite !drop_last_underscore_cons. cbn [Str.is_empty].
    rewrite !starts_with_cons. intros H. exact H.
Qed.

Lemma includes_drop_last (s : string) :
  Str.includes "__" s = false -> Str.includes "__" (drop_last_underscore s) = false.
Proof.
  induction s as [|c s IH]; [reflexivity|]. intros H.
  rewrite includes_cons in H. apply orb_false_iff in H as [H1 H2].
  destruct (Str.includes "__" (drop_last_underscore (String c s))) eqn:E; [|reflexivity].
  exfalso. rewrite drop_last_underscore_cons in E.
  destruct (Str.is_empty s) eqn:Es.
  - destruct s; [|discriminate]. destruct (Char.is_char "_" c); [cbv in E; discriminate E|].
    rewrite includes_cons, starts_with_cons, starts_with_nil, andb_false_r in E.
    cbv in E. discriminate E.
  - rewrite includes_cons in E. apply orb_true_iff in E as [E|E].
    + pose proof (starts_with_drop_last (String c s)) as Hs.
      rewrite drop_last_underscore_cons, Es in Hs. rewrite (Hs E) in H1. discriminate.
    + rewrite (IH H2) in E. discriminate.
Qed.

Lemma first_is_drop_last (p : ascii -> bool) (s : string) :
  Str.first_is p s = false -> Str.first_is p (drop_last_underscore s) = false.
Proof.
  destruct s as [|c s]; [reflexivity|]. rewrite drop_last_underscore_cons.
  destruct (Str.is_empty s); [destruct (Char.is_char "_" c); auto | auto].
Qed.

(** with no two underscores adjacent, none is left at the end *)
Lemma last_is_drop_last (s : string) :
  Str.includes "__" s = false ->
  Str.last_is (Char.is_char "_") (drop_last_underscore s) = false.
Proof.
  induction s as [|c s IH]; [reflexivity|]. intros H.
  rewrite includes_cons in H. apply orb_false_iff in H as [H1 H2].
  rewrite drop_last_underscore_cons. destruct s as [|d s]; cbn [Str.is_empty].
  - destruct (Char.is_char "_" c) eqn:E; [reflexivity|]. simpl. exact E.
  - rewrite last_is_cons. specialize (IH H2).
    destruct (Str.is_empty (drop_last_underscore (String d s))) eqn:Ee; [|exact IH].
    rewrite drop_last_underscore_cons in Ee. destruct s as [|e s]; cbn [Str.is_empty] in Ee.
    + destruct (Char.is_char "_" d) eqn:Ed; [|discriminate Ee].
      rewrite !starts_with_cons in H1. rewrite Ed in H1.
      simpl in H1. rewrite andb_true_r in H1. exact H1.
    + discriminate Ee.
Qed.

Lemma includes_tail (w : string) (c : ascii) (s : string) :
  Str.includes w (String c s) = false -> Str.includes w s = false.
Proof. rewrite includes_cons. intros H. now apply orb_false_iff in H as [_ H]. Qed.

Lemma trim_underscores_sanitized (s : string) :
  allChars is_safe_char s = true -> Str.includes "__" s = false ->
  sanitized (trim_underscores s) = true.
Proof.
  intros Ha Hi. unfold sanitized, trim_underscores.
  destruct s as [|c r]; [reflexivity|].
  simpl in Ha. apply andb_true_iff in Ha as [Hc Hr].
  destruct (Char.is_char "_" c) eqn:E.
  - rewrite (allChars_drop_last _ _ Hr), (includes_drop_last _ (includes_tail _ _ _ Hi)),
      (last_is_drop_last _ (includes_tail _ _ _ Hi)).
    rewrite first_is_drop_last; [reflexivity|].
    rewrite includes_cons in Hi. apply orb_false_iff in Hi as [Hi _].
    destruct r as [|d r]; [reflexivity|].
    rewrite !starts_with_cons in Hi. rewrite E in Hi. simpl in Hi.
    rewrite andb_true_r in Hi. simpl. exact Hi.
  - rewrite allChars_drop_last by (simpl; now rewrite Hc, Hr).
    rewrite (includes_drop_last _ Hi), (last_is_drop_last _ Hi).
    rewrite first_is_drop_last; [reflexivity | exact E].
Qed.

Lemma sanitizeImageFilename_sanitized (originalName : string) :
  sanitized (sanitizeImageFilename originalName) = true.
Proof.
  unfold sanitizeImageFilename. apply trim_underscores_sanitized.
  - apply allChars_replace_runs; [reflexivity|].
    apply allChars_replace_class; [reflexivity|].
    intros c H. apply negb_false_iff in H. unfold is_safe_char. now rewrite H.
  - apply collapsed_underscores.
Qed.

Lemma toLower_safe (c : ascii) : is_safe_char c = true -> Char.toLower c = c.
Proof.
  destruct c as [[] [] [] [] [] [] [] []]; vm_compute; intros H; try discriminate H;
    reflexivity.
Qed.

Lemma safe_underscore (c : ascii) :
  is_safe_char c = true -> is_filename_char c = false -> c = "_"%char.
Proof.
  unfold is_safe_char. intros H1 H2. rewrite H2 in H1. simpl in H1.
  now apply is_char_true in H1.
Qed.

Lemma replace_runs_collapsed (b : bool) (s : string) :
  Str.includes "__" s = false -> (b = true -> Str.first_is (Char.is_char "_") s = false) ->
  Str.replace_runs (Char.is_char "_") "_" b s = s.
Proof.
  revert b. induction s as [|c s IH]; intros b Hi Hb; [reflexivity|]. simpl.
  pose proof (includes_tail _ _ _ Hi) as Ht.
  destruct (Char.is_char "_" c) eqn:E.
  - destruct b; [specialize (Hb eq_refl); simpl in Hb; congruence|].
    rewrite IH; [now rewrite (is_char_true _ _ E) | exact Ht |].
    intros _. rewrite includes_cons in Hi. apply orb_false_iff in Hi as [Hi _].
    destruct s as [|d s]; [reflexivity|].
    rewrite !starts_with_cons in Hi. rewrite E in Hi. simpl in Hi.
    rewrite andb_true_r in Hi. simpl. exact Hi.
  - rewrite IH; [reflexivity | exact Ht | discriminate].
Qed.

Lemma drop_last_kept (s : string) :
  Str.last_is (Char.is_char "_") s = false -> drop_last_underscore s = s.
Proof.
  induction s as [|c s IH]; [reflexivity|]. rewrite last_is_cons, drop_last_underscore_cons.
  destruct (Str.is_empty s); [now intros -> | intros H; now rewrite IH].
Qed.

(** a name that is sanitized already is left as it is *)
Lemma sanitizeImageFilename_fixed (s : string) :
  sanitized s = true -> sanitizeImageFilename s = s.
Proof.
  unfold sanitized. intros H.
  apply andb_true_iff in H as [H Hl]. apply andb_true_iff in H as [H Hf].
  apply andb_true_iff in H as [Ha Hi].
  apply negb_true_iff in Hl, Hf, Hi. unfold sanitizeImageFilename.
  assert (H1 : Str.toLowerCase s = s).
  { clear -Ha. induction s as [|c s IH]; [reflexivity|]. simpl in *.
    apply andb_true_iff in Ha as [Hc Hs]. unfold Str.toLowerCase in *. simpl.
    now rewrite (toLower_safe _ Hc), IH. }
  assert (H2 : Str.replace_class (fun c => negb (is_filename_char c)) "_" s = s).
  { clear -Ha. induction s as [|c s IH]; [reflexivity|]. simpl in *.
    apply andb_true_iff in Ha as [Hc Hs]. rewrite (IH Hs).
    destruct (is_filename_char c) eqn:E; [reflexivity|]. simpl.
    now rewrite (safe_underscore _ Hc E). }
  rewrite H1, H2, replace_runs_collapsed by (auto; discriminate).
  unfold trim_underscores. destruct s as [|c r]; [reflexivity|].
  simpl in Hf. rewrite Hf. now apply drop_last_kept.
Qed.

(** X3: a sanitized name holds lower-case letters, digits, dots and single
    underscores only, with no underscore at either end; sanitizing it
    again changes nothing *)
Theorem sanitized_filename (originalName : string) :
  sanitized (sanitizeImageFilename originalName) = true
  /\ sanitizeImageFilename (sanitizeImageFilename originalName)
     = sanitizeImageFilename originalName.
Proof.
  split; [apply sanitizeImageFilename_sanitized|].
  apply sanitizeImageFilename_fixed, sanitizeImageFilename_sanitized.
Qed.

(** ** The drafts of the structural parser *)

Lemma blockLoop_invariant (P : ParseState -> Prop) :
  (forall i d st, P st -> P (step i d st)) ->
  forall ds i st, P st -> P (blockLoop i ds st).
Proof.
  intros Hstep. induction ds as [|d ds IH]; intros i st H; simpl; [exact H|].
  destruct (isEmptyBlock d); [now apply IH|].
  destruct (re_answer_key (e_text d)); [exact H|].
  apply IH, Hstep, H.
Qed.

(** a property of questions that every operation of the loop keeps holds
    of all the drafts *)
Lemma step_drafts (P : Question -> Prop) :
  (forall q acc, P q -> P (finalize q acc)) ->
  (forall q s l rest acc,
     optionMatch s = Some (l, rest) -> P q -> P (add_option q l rest acc)) ->
  (forall q t, P q -> P (append_text q t)) ->
  (forall b q, P q -> P (mark_images b q)) ->
  (forall n t b, P {| number := n; type := inferQuestionType t []; text := t;
                      options := []; images := []; hasImages := b |}) ->
  forall i d st, Forall P (drafts st) -> Forall P (drafts (step i d st)).
Proof.
  intros Hf Ha Ht Hm Hn i d st H. unfold step, drafts in *.
  apply Forall_app in H as [Hq Hc].
  destruct (questionStartMatch (e_text d)) as [[digits rest]|];
    cbn [questions currentQuestion].
  - apply Forall_app. split; [|repeat constructor; apply Hn].
    unfold push_finalized. destruct (currentQuestion st) as [q|]; [|exact Hq].
    apply Forall_app. split; [exact Hq|]. repeat constructor. apply Hf.
    now inversion Hc.
  - destruct (currentQuestion st) as [q|]; cbn [questions currentQuestion].
    + assert (Pq : P q) by now inversion Hc.
      destruct (optionMatch (e_text d)) as [[l rest]|] eqn:Eo;
        cbn [questions currentQuestion];
        (apply Forall_app; split; [exact Hq|]); repeat constructor.
      * apply Hm. now apply (Ha q (e_text d)).
      * apply Hm. destruct (Str.is_empty (e_text d)); [exact Pq | apply Ht, Pq].
    + apply Forall_app. split; [exact Hq | constructor].
Qed.

Lemma parsed_drafts (P : Question -> Prop) :
  (forall q acc, P q -> P (finalize q acc)) ->
  (forall q s l rest acc,
     optionMatch s = Some (l, rest) -> P q -> P (add_option q l rest acc)) ->
  (forall q t, P q -> P (append_text q t)) ->
  (forall b q, P q -> P (mark_images b q)) ->
  (forall n t b, P {| number := n; type := inferQuestionType t []; text := t;
                      options := []; images := []; hasImages := b |}) ->
  forall uuid body, Forall P (p_questions (parseQuestions uuid body)).
Proof.
  intros Hf Ha Ht Hm Hn uuid body. rewrite parseQuestions_blocks.
  unfold parseBlocks. cbn [p_questions].
  assert (H : Forall P (drafts (blockLoop 0 (blocks uuid 0 body) initialState))).
  { apply (blockLoop_invariant (fun st => Forall P (drafts st))).
    - now apply step_drafts.
    - constructor. }
  unfold drafts, push_finalized in *. apply Forall_app in H as [Hq Hc].
  destruct (currentQuestion _) as [q|]; [|exact Hq].
  apply Forall_app. split; [exact Hq|]. repeat constructor. apply Hf. now inversion Hc.
Qed.

Lemma inferQuestionType_inferable (t : string) (opts : list Opt) :
  inferable (inferQuestionType t opts) = true.
Proof.
  unfold inferQuestionType. cbv zeta.
  repeat match goal with |- context [if ?b then _ else _] => destruct b end;
    try reflexivity; destruct opts; reflexivity.
Qed.

Lemma parsed_inferable (uuid : nat -> N) (body : Body) :
  Forall (fun q => inferable (type q) = true) (p_questions (parseQuestions uuid body)).
Proof.
  apply parsed_drafts; try (intros; assumption).
  - intros q s l rest acc _ H. unfold add_option. cbn [type].
    destruct (keeps_type (type q)); [exact H|].
    now destruct (_ && _).
  - intros n t b. apply inferQuestionType_inferable.
Qed.

(** X4: the parser never gives a question the types MULTIPLE_CHOICE_MULTI,
    FILL_IN_BLANK_NUMERIC or ESSAY *)
Theorem parsed_types_inferable (uuid : nat -> N) (body : Body) :
  Forall (fun q => inferable (type q) = true) (p_questions (parseQuestions uuid body)).
Proof. apply parsed_inferable. Qed.

Lemma toUpper_alpha (c : ascii) : Char.is_alpha c = true -> Char.is_upper (Char.toUpper c) = true.
Proof.
  destruct c as [[] [] [] [] [] [] [] []]; vm_compute; intros H; try discriminate H;
    reflexivity.
Qed.

Lemma optionMatch_alpha (s : string) (l : ascii) (rest : string) :
  optionMatch s = Some (l, rest) -> Char.is_alpha l = true.
Proof.
  unfold optionMatch, Re.one. intros H.
  destruct (Re.ws s) as [|c r] eqn:E; simpl in H; [discriminate|].
  destruct (Char.is_alpha c) eqn:Ec; simpl in H.
  - destruct (Re.ws r) as [|c1 r1]; simpl in H; [discriminate|].
    destruct (is_option_mark c1); simpl in H; [|discriminate].
    destruct (Re.ws1 r1); simpl in H; [|discriminate].
    now inversion H; subst.
  - destruct (Char.is_char "(" c); simpl in H; [|discriminate].
    destruct (Re.ws r) as [|c1 r1]; simpl in H; [discriminate|].
    destruct (Char.is_alpha c1) eqn:E1; simpl in H; [|discriminate].
    destruct (Re.ws r1) as [|c2 r2]; simpl in H; [discriminate|].
    destruct (Char.is_char ")" c2); simpl in H; [|discriminate].
    destruct (Re.ws1 r2); simpl in H; [|discriminate].
    now inversion H; subst.
Qed.

(** X5: every option letter of every parsed question is one upper-case
    letter *)
Theorem parsed_letters_upper (uuid : nat -> N) (body : Body) :
  Forall (fun q => Forall (fun o => isUpperLetter (letter o) = true) (options q))
    (p_questions (parseQuestions uuid body)).
Proof.
  apply parsed_drafts; try (intros; assumption).
  - intros q s l rest acc Hm H. unfold add_option. cbn [options].
    apply Forall_app. split; [exact H|]. repeat constructor. cbn [letter isUpperLetter].
    apply toUpper_alpha. now apply optionMatch_alpha in Hm.
  - intros n t b. constructor.
Qed.

Lemma lastNumbered_snoc (n : N) (l : list Question) (q : Question) :
  lastNumbered n (l ++ [q]) = if N.eqb (number q) n then Some q else lastNumbered n l.
Proof.
  unfold lastNumbered. rewrite List.filter_app. simpl.
  destruct (N.eqb (number q) n); [apply last_snoc | now rewrite app_nil_r].
Qed.

Lemma lastNumbered_push_finalized (n : N) (st : ParseState) (acc : list ImageMeta) :
  type <$> lastNumbered n (push_finalized st acc) = type <$> lastNumbered n (drafts st).
Proof.
  unfold push_finalized, drafts. destruct (currentQuestion st) as [q|]; simpl.
  - rewrite !lastNumbered_snoc. unfold finalize. cbn [number].
    now destruct (N.eqb (number q) n).
  - now rewrite app_nil_r.
Qed.

Lemma step_typesFollowDrafts (i : nat) (d : ElementData) (st : ParseState) :
  typesFollowDrafts st -> typesFollowDrafts (step i d st).
Proof.
  intros [Hty Hcur]. unfold step.
  destruct (questionStartMatch (e_text d)) as [[digits rest]|].
  - split; cbn [questionTypes currentQuestion currentQuestionNumber questions drafts].
    + intros n. unfold drafts. cbn [questions currentQuestion option_list option_rect].
      rewrite lastNumbered_snoc. cbn [number].
      destruct (N.eqb_spec (Str.parseInt digits) n) as [->|Hne].
      * now rewrite lookup_insert_eq.
      * rewrite lookup_insert_ne by exact Hne.
        rewrite lastNumbered_push_finalized. apply Hty.
    + intros q [= <-]. reflexivity.
  - destruct (currentQuestion st) as [q|] eqn:Ecur.
    + pose proof (Hcur q eq_refl) as Hnum.
      assert (Hold : forall n, questionTypes st !! n
                = type <$> (if N.eqb (number q) n then Some q else lastNumbered n (questions st))).
      { intros n. rewrite Hty. unfold drafts. rewrite Ecur. simpl.
        now rewrite lastNumbered_snoc. }
      destruct (optionMatch (e_text d)) as [[l rest]|].
      * split; cbn [questionTypes currentQuestion currentQuestionNumber questions].
        -- intros n. unfold drafts. cbn [questions currentQuestion option_list option_rect].
           rewrite lastNumbered_snoc. unfold mark_images, add_option. cbn [number type].
           destruct (keeps_type (type q)).
           ++ rewrite Hold. now destruct (N.eqb (number q) n).
           ++ rewrite Hnum. destruct (N.eqb_spec (number q) n) as [->|Hne].
              ** now rewrite lookup_insert_eq.
              ** rewrite lookup_insert_ne by exact Hne. rewrite Hold.
                 now destruct (N.eqb_spec (number q) n).
        -- intros q' [= <-]. exact Hnum.
      * split; cbn [questionTypes currentQuestion currentQuestionNumber questions].
        -- intros n. unfold drafts. cbn [questions currentQuestion option_list option_rect].
           rewrite lastNumbered_snoc, Hold. unfold mark_images. cbn [number].
           destruct (Str.is_empty (e_text d)); cbn [number append_text];
             now destruct (N.eqb (number q) n).
        -- intros q' [= <-]. unfold mark_images. cbn [number].
           now destruct (Str.is_empty (e_text d)).
    + split; cbn [questionTypes currentQuestion currentQuestionNumber questions].
      * intros n. rewrite Hty. unfold drafts. now rewrite Ecur.
      * intros q H. discriminate H.
Qed.

Lemma parsed_typesFollow (uuid : nat -> N) (body : Body) (n : N) :
  p_questionTypes (parseQuestions uuid body) !! n
  = type <$> lastNumbered n (p_questions (parseQuestions uuid body)).
Proof.
  rewrite parseQuestions_blocks. unfold parseBlocks. cbn [p_questionTypes p_questions].
  rewrite lastNumbered_push_finalized.
  apply (blockLoop_invariant typesFollowDrafts).
  - apply step_typesFollowDrafts.
  - split; [intros m; apply lookup_empty | intros q H; discriminate H].
Qed.

Lemma lastNumbered_distinct (qs : list Question) (q : Question) :
  NoDup (number <$> qs) -> q ∈ qs -> lastNumbered (number q) qs = Some q.
Proof.
  intros Hnd Hq.
  induction qs as [|x qs IH] using rev_ind; [now apply elem_of_nil in Hq|].
  rewrite lastNumbered_snoc. rewrite fmap_app in Hnd. apply NoDup_app in Hnd as (Hn1 & Hn2 & _).
  apply elem_of_app in Hq as [Hq|Hq].
  - destruct (N.eqb_spec (number x) (number q)) as [He|Hne]; [|now apply IH].
    exfalso. apply (Hn2 (number q)).
    + apply list_elem_of_fmap. now exists q.
    + simpl. rewrite He. apply list_elem_of_singleton. reflexivity.
  - apply list_elem_of_singleton in Hq. subst x. now rewrite N.eqb_refl.
Qed.

(** when the numbers are pairwise distinct, the map gives every parsed
    question its own type *)
Lemma type_map_of_distinct_numbers (uuid : nat -> N) (body : Body) (q : Question) :
  NoDup (number <$> p_questions (parseQuestions uuid body)) ->
  q ∈ p_questions (parseQuestions uuid body) ->
  p_questionTypes (parseQuestions uuid body) !! number q = Some (type q).
Proof.
  intros Hnd Hq. rewrite parsed_typesFollow. now rewrite (lastNumbered_distinct _ _ Hnd Hq).
Qed.

(** X6: the type map that the parser leaves behind gives, for every number,
    the type of the last parsed question with that number, and nothing
    for a number that no question carries *)
Theorem type_map_follows_questions (uuid : nat -> N) (body : Body) (n : N) :
  p_questionTypes (parseQuestions uuid body) !! n
  = type <$> lastNumbered n (p_questions (parseQuestions uuid body)).
Proof. apply parsed_typesFollow. Qed.

Lemma blocks_app (uuid : nat -> N) (pre l : list Element) (k : nat) :
  exists k', blocks uuid k (pre ++ l) = blocks uuid k pre ++ blocks uuid k' l.
Proof.
  revert k. induction pre as [|e pre IH]; intros k; simpl; [now exists k|].
  destruct (processElement uuid k e) as [d k1]. destruct (IH k1) as [k' Hk'].
  exists k'. now rewrite Hk'.
Qed.

Lemma re_answer_key_nonempty (s : string) : re_answer_key s = true -> Str.is_empty s = false.
Proof. now destruct s. Qed.

(** the loop leaves at the header: what follows it is not read *)
Lemma blockLoop_header (ds rest : list ElementData) (h : ElementData) (i : nat) (st : ParseState) :
  re_answer_key (e_text h) = true ->
  blockLoop i (ds ++ h :: rest) st = blockLoop i ds st.
Proof.
  intros Hh. revert i st. induction ds as [|d ds IH]; intros i st; simpl.
  - unfold isEmptyBlock. rewrite (re_answer_key_nonempty _ Hh), Hh. reflexivity.
  - destruct (isEmptyBlock d); [apply IH|].
    destruct (re_answer_key (e_text d)); [reflexivity | apply IH].
Qed.

(** X7: an element that reads Answer Key ends the structural parse: the
    elements after it, whatever they are, change nothing of the result *)
Theorem nothing_read_after_header (uuid : nat -> N) (pre rest : list Element) (e : Element) :
  (forall k, re_answer_key (e_text (processElement uuid k e).1) = true) ->
  parseQuestions uuid (pre ++ e :: rest) = parseQuestions uuid pre.
Proof.
  intros He. rewrite !parseQuestions_blocks.
  destruct (blocks_app uuid pre (e :: rest) 0) as [k Hk]. rewrite Hk. simpl.
  specialize (He k). destruct (processElement uuid k e) as [d k1]. simpl in He.
  unfold parseBlocks. now rewrite (blockLoop_header _ _ _ _ _ He).
Qed.

Lemma nothing_read_after_header_witness :
  parseQuestions no_uuid (paragraph <$> ["1. What is 2+2?"; "A. 3"; "B. 4"; "Answer Key"; "1. B"])
  = parseQuestions no_uuid (paragraph <$> ["1. What is 2+2?"; "A. 3"; "B. 4"]).
Proof.
  exact (nothing_read_after_header no_uuid
           (paragraph <$> ["1. What is 2+2?"; "A. 3"; "B. 4"])
           (paragraph <$> ["1. B"]) (paragraph "Answer Key") (fun k => eq_refl)).
Defined.

Lemma filter_subseteq {A} (f : A -> bool) (l : list A) : List.filter f l ⊆ l.
Proof. intros x Hx. apply list_elem_of_In, List.filter_In in Hx as [Hx _]. now apply list_elem_of_In. Qed.

Lemma imagesOf_snoc (q : Question) (o : Opt) (all : list ImageMeta) :
  imagesOf q ⊆ all -> o_images o ⊆ all ->
  images q ++ mjoin (o_images <$> (options q ++ [o])) ⊆ all.
Proof.
  unfold imagesOf. intros Hq Ho x Hx.
  rewrite fmap_app, join_app in Hx. simpl in Hx. rewrite app_nil_r in Hx.
  rewrite !elem_of_app in Hx. destruct Hx as [Hx|[Hx|Hx]].
  - apply Hq, elem_of_app. now left.
  - apply Hq, elem_of_app. now right.
  - now apply Ho.
Qed.

Lemma step_imagesKept (i : nat) (d : ElementData) (st : ParseState) :
  imagesKept st -> imagesKept (step i d st).
Proof.
  intros [Hn Ha Hd]. unfold step.
  set (newImages := name_image (currentQuestion st) i <$> e_images d).
  assert (Hnamed : Forall (fun m => named m = true) (allImages st ++ newImages)).
  { apply Forall_app. split; [exact Hn|]. unfold newImages. apply Forall_fmap.
    apply Forall_forall. intros m _. unfold named, name_image. cbn [filename].
    apply generateImageFilename_isFileName. }
  assert (Hacc : accumulatedImages st ++ newImages ⊆ allImages st ++ newImages).
  { intros x Hx. apply elem_of_app in Hx as [Hx|Hx]; apply elem_of_app; auto. }
  assert (Hmono : forall q, imagesOf q ⊆ allImages st -> imagesOf q ⊆ allImages st ++ newImages).
  { intros q Hq x Hx. apply elem_of_app. left. now apply Hq. }
  unfold drafts in Hd. apply Forall_app in Hd as [Hq Hc].
  assert (Hqs : Forall (fun q => imagesOf q ⊆ allImages st ++ newImages) (questions st)).
  { eapply Forall_impl; [exact Hq | exact Hmono]. }
  destruct (questionStartMatch (e_text d)) as [[digits rest]|].
  - constructor; cbn [allImages accumulatedImages]; [exact Hnamed | |].
    + etransitivity; [apply filter_subseteq | exact Hacc].
    + unfold drafts. cbn [questions currentQuestion allImages option_list option_rect].
      apply Forall_app. split.
      * unfold push_finalized. destruct (currentQuestion st) as [q|]; [|exact Hqs].
        apply Forall_app. split; [exact Hqs|]. repeat constructor.
        inversion Hc as [|x l Hx _]; subst. unfold imagesOf, finalize in *. cbn [images options].
        intros x Hx'. apply elem_of_app in Hx' as [Hx'|Hx'].
        -- apply Hacc. now apply filter_subseteq in Hx'.
        -- apply elem_of_app. left. apply Hx, elem_of_app. now right.
      * repeat constructor. unfold imagesOf. simpl. apply list_subseteq_nil.
  - destruct (currentQuestion st) as [q|].
    + inversion Hc as [|x l Hx _]; subst.
      destruct (optionMatch (e_text d)) as [[l rest]|];
        (constructor; cbn [allImages accumulatedImages]; [exact Hnamed | exact Hacc |]);
        unfold drafts; cbn [questions currentQuestion allImages option_list option_rect];
        (apply Forall_app; split; [exact Hqs|]); repeat constructor.
      * unfold imagesOf, mark_images, add_option. cbn [images options].
        apply imagesOf_snoc; [now apply Hmono|]. cbn [o_images].
        etransitivity; [apply filter_subseteq | exact Hacc].
      * unfold imagesOf, mark_images. cbn [images options].
        destruct (Str.is_empty (e_text d)); [now apply Hmono|].
        unfold append_text. cbn [images options]. now apply Hmono.
    + constructor; cbn [allImages accumulatedImages]; [exact Hnamed | exact Hacc |].
      unfold drafts. cbn [questions currentQuestion allImages option_list option_rect].
      apply Forall_app. split; [exact Hqs | constructor].
Qed.

(** X8: the images linked to the questions and to their options are among the
    images that the parser returns for the exporter, and each of these has
    a file name *)
Theorem parsed_images_kept (uuid : nat -> N) (body : Body) :
  Forall (fun m => named m = true) (p_images (parseQuestions uuid body))
  /\ Forall (fun q => imagesOf q ⊆ p_images (parseQuestions uuid body))
       (p_questions (parseQuestions uuid body)).
Proof.
  rewrite parseQuestions_blocks. unfold parseBlocks. cbn [p_images p_questions].
  assert (H : imagesKept (blockLoop 0 (blocks uuid 0 body) initialState)).
  { apply (blockLoop_invariant imagesKept); [apply step_imagesKept|].
    constructor; simpl; [constructor | apply list_subseteq_nil | constructor]. }
  destruct H as [Hn Ha Hd]. split; [exact Hn|].
  unfold drafts, push_finalized in *. apply Forall_app in Hd as [Hq Hc].
  destruct (currentQuestion _) as [q|]; [|exact Hq].
  apply Forall_app. split; [exact Hq|]. repeat constructor.
  inversion Hc as [|x l Hx _]; subst. unfold imagesOf, finalize in *. cbn [images options].
  intros x Hx'. apply elem_of_app in Hx' as [Hx'|Hx'].
  - apply Ha. now apply filter_subseteq in Hx'.
  - apply Hx, elem_of_app. now right.
Qed.

(** ** The answers of the key *)

Lemma parseAnswerKey_lookup (types : gmap N QuestionType) (body : Body) (n : N) :
  fst (parseAnswerKey types body) !! n = keyAnswer types body n.
Proof.
  unfold parseAnswerKey, keyAnswer.
  pose proof (answerKeyLoop_lines types body (∅, [])) as Hl.
  destruct (answerKeyLoop types body false (∅, [])) as [found [answers log]].
  simpl in Hl. cbn [fst].
  pose proof (recordAll_lookup types (answerLines body) ∅ [] n) as Hlook.
  rewrite <- Hl in Hlook. simpl in Hlook. rewrite Hlook.
  destruct (last _); [reflexivity | apply lookup_empty].
Qed.

(** *** A document without a header *)

Lemma answerKeyLoop_no_header (types : gmap N QuestionType) (els : list Element)
    (acc : gmap N AnswerData * list Warning) :
  Forall (fun t => isAnswerKeyHeader t = false) (lineTexts els) ->
  answerKeyLoop types els false acc = (false, acc).
Proof.
  unfold lineTexts. induction els as [|e els IH]; intros H; [reflexivity|].
  simpl in *. unfold isTextElement in H at 1.
  destruct (getType e); simpl in *; try (now apply IH);
    inversion H as [|x l Hx Hl]; subst; rewrite Hx; simpl; now apply IH.
Qed.

(** X9: without a header line the answer map is empty and the missing header
    is the one warning *)
Theorem no_header_no_answers (types : gmap N QuestionType) (body : Body) :
  Forall (fun t => isAnswerKeyHeader t = false) (lineTexts body) ->
  parseAnswerKey types body = (∅, [AnswerKeyHeaderNotFound]).
Proof.
  intros H. unfold parseAnswerKey. now rewrite answerKeyLoop_no_header.
Qed.

Lemma no_header_no_answers_witness :
  parseAnswerKey mcTypes (paragraph <$> ["1. Pick"; "A. x"; "B. y"; "1. A"])
  = (∅, [AnswerKeyHeaderNotFound]).
Proof.
  apply (no_header_no_answers mcTypes (paragraph <$> ["1. Pick"; "A. x"; "B. y"; "1. A"])).
  repeat constructor.
Defined.

(** *** The shape of the answers *)

Lemma singleLetterMatch_alpha (s : string) (l : ascii) :
  singleLetterMatch s = Some l -> Char.is_alpha l = true.
Proof.
  unfold singleLetterMatch, Re.one. destruct s as [|c r]; simpl; [discriminate|].
  destruct (Char.is_alpha c) eqn:E; simpl; [|discriminate].
  destruct (Str.first_is Char.is_word r); [discriminate|]. now intros [= <-].
Qed.

Lemma upper_of_alpha_upper (c : ascii) :
  Char.is_alpha (Char.toUpper c) = true -> Char.is_upper (Char.toUpper c) = true.
Proof.
  destruct c as [[] [] [] [] [] [] [] []]; vm_compute; intros H; try discriminate H;
    reflexivity.
Qed.

Lemma lettersMatch_upper (s : string) :
  forallb isUpperLetter (lettersMatch (Str.toUpperCase s)) = true.
Proof.
  induction s as [|c s IH]; [reflexivity|]. simpl.
  destruct (Char.is_alpha (Char.toUpper c)) eqn:E; [|exact IH].
  simpl. now rewrite (upper_of_alpha_upper _ E).
Qed.

Lemma unique_sublist (seen l : list string) (x : string) : x ∈ unique seen l -> x ∈ l.
Proof.
  revert seen. induction l as [|y l IH]; intros seen; simpl; [auto|].
  destruct (bool_decide (y ∈ seen)).
  - intros H. right. now apply (IH seen).
  - intros H. apply elem_of_cons in H as [->|H]; [now left | right; now apply (IH (y :: seen))].
Qed.

Lemma unique_fresh (seen l : list string) (x : string) : x ∈ seen -> x ∉ unique seen l.
Proof.
  revert seen. induction l as [|y l IH]; intros seen Hx; simpl; [apply not_elem_of_nil|].
  destruct (bool_decide (y ∈ seen)) eqn:E; [now apply IH|].
  apply bool_decide_eq_false in E. intros H. apply elem_of_cons in H as [->|H]; [auto|].
  revert H. apply IH. now right.
Qed.

Lemma unique_NoDup (seen l : list string) : NoDup (unique seen l).
Proof.
  revert seen. induction l as [|y l IH]; intros seen; simpl; [constructor|].
  destruct (bool_decide (y ∈ seen)); [apply IH|].
  constructor; [|apply IH]. apply unique_fresh. now left.
Qed.

Lemma unique_complete (seen l : list string) (x : string) :
  x ∈ l -> x ∉ seen -> x ∈ unique seen l.
Proof.
  revert seen. induction l as [|y l IH]; intros seen Hx Hs; [now apply elem_of_nil in Hx|].
  simpl. apply elem_of_cons in Hx as [->|Hx].
  - rewrite bool_decide_eq_false_2 by exact Hs. now left.
  - destruct (bool_decide (y ∈ seen)); [now apply IH|].
    destruct (decide (x = y)) as [->|Hne]; [now left|].
    right. apply IH; [exact Hx|]. intros H. apply elem_of_cons in H as [H|H]; auto.
Qed.

Lemma insert_sorted_Permutation (x : string) (l : list string) : insert_sorted x l ≡ₚ x :: l.
Proof.
  induction l as [|y l IH]; simpl; [reflexivity|].
  destruct (String.leb x y); [reflexivity|]. rewrite IH. apply Permutation_swap.
Qed.

Lemma sort_Permutation (l : list string) : sort l ≡ₚ l.
Proof.
  induction l as [|x l IH]; [reflexivity|]. unfold sort in *. simpl.
  rewrite insert_sorted_Permutation. now rewrite IH.
Qed.

Lemma insert_sorted_ascending (x : string) (l : list string) :
  ascending l = true -> ascending (insert_sorted x l) = true.
Proof.
  induction l as [|y l IH]; intros H; [reflexivity|]. simpl.
  destruct (String.leb x y) eqn:E.
  - change (String.leb x y && ascending (y :: l) = true). now rewrite E.
  - assert (Hyx : String.leb y x = true).
    { destruct (String.leb_total x y) as [H1|H1]; [congruence | exact H1]. }
    destruct l as [|z l]; [simpl; now rewrite Hyx|].
    simpl in H. apply andb_true_iff in H as [Hyz Hl].
    specialize (IH Hl). simpl in IH |- *.
    destruct (String.leb x z); simpl; rewrite ?Hyx, ?Hyz; simpl; exact IH.
Qed.

Lemma sort_ascending (l : list string) : ascending (sort l) = true.
Proof.
  induction l as [|x l IH]; [reflexivity|]. now apply insert_sorted_ascending.
Qed.

Lemma sorted_unique_letters (s : string) :
  let ls := sort (unique [] (lettersMatch (Str.toUpperCase s))) in
  NoDup ls /\ ascending ls = true /\ forallb isUpperLetter ls = true
  /\ forall l, l ∈ ls <-> l ∈ lettersMatch (Str.toUpperCase s).
Proof.
  intros ls.
  assert (Hin : forall l, l ∈ ls <-> l ∈ lettersMatch (Str.toUpperCase s)).
  { intros l. unfold ls. rewrite sort_Permutation. split; [apply unique_sublist|].
    intros H. apply unique_complete; [exact H | apply not_elem_of_nil]. }
  split; [|split; [|split]].
  - unfold ls. rewrite sort_Permutation. apply unique_NoDup.
  - apply sort_ascending.
  - apply forallb_forall. intros l Hl. apply list_elem_of_In, Hin in Hl.
    pose proof (lettersMatch_upper s) as Hu.
    rewrite forallb_forall in Hu. apply Hu. now apply list_elem_of_In.
  - exact Hin.
Qed.

(** X10: the letters of a MULTIPLE_CHOICE_MULTI answer: each letter of the
    text once, in upper case and in ascending order *)
Theorem multi_answer_letters (n : N) (answerText : string) (ls : list string) :
  fst (decodeAnswer n MULTIPLE_CHOICE_MULTI answerText) = Some (AStrings ls) ->
  NoDup ls /\ ascending ls = true /\ forallb isUpperLetter ls = true
  /\ forall l, l ∈ ls <-> l ∈ lettersMatch (Str.toUpperCase answerText).
Proof.
  unfold decodeAnswer.
  destruct (lettersMatch (Str.toUpperCase answerText)) as [|x m] eqn:E; [discriminate|].
  cbn [fst]. intros [= <-].
  change (insert_sorted x (sort (unique [x] m))) with (sort (unique [] (x :: m))).
  rewrite <- E. apply sorted_unique_letters.
Qed.

Lemma multi_answer_letters_witness :
  fst (decodeAnswer 3 MULTIPLE_CHOICE_MULTI "c, a, B, a") = Some (AStrings ["A"; "B"; "C"])
  /\ NoDup ["A"; "B"; "C"] /\ ascending ["A"; "B"; "C"] = true.
Proof.
  destruct (multi_answer_letters 3 "c, a, B, a" ["A"; "B"; "C"] eq_refl) as (H1 & H2 & _).
  split; [reflexivity|]. split; [exact H1 | exact H2].
Defined.

Lemma forallb_filter {A} (f : A -> bool) (l : list A) : forallb f (List.filter f l) = true.
Proof.
  induction l as [|x l IH]; [reflexivity|]. simpl.
  destruct (f x) eqn:E; [simpl; now rewrite E | exact IH].
Qed.

Lemma decodeAnswer_fits (n : N) (ty : QuestionType) (answerText : string) (a : AnswerData) :
  fst (decodeAnswer n ty answerText) = Some a -> fits ty a = true.
Proof.
  unfold decodeAnswer. destruct ty.
  - destruct (singleLetterMatch answerText) as [l|] eqn:E; [|discriminate].
    intros [= <-]. apply toUpper_alpha. now apply singleLetterMatch_alpha in E.
  - destruct (lettersMatch (Str.toUpperCase answerText)) as [|x m] eqn:E; [discriminate|].
    cbn [fst]. intros [= <-].
    change (insert_sorted x (sort (unique [x] m))) with (sort (unique [] (x :: m))).
    rewrite <- E. cbn [fits].
    destruct (sorted_unique_letters answerText) as (_ & _ & Hu & Hin). rewrite Hu.
    assert (Hx : x ∈ sort (unique [] (lettersMatch (Str.toUpperCase answerText)))).
    { apply Hin. rewrite E. now left. }
    destruct (sort _); [now apply elem_of_nil in Hx | reflexivity].
  - destruct (singleLetterMatch answerText) as [l|] eqn:E; [|discriminate].
    intros [= <-]. apply toUpper_alpha. now apply singleLetterMatch_alpha in E.
  - intros [= <-]. apply forallb_filter.
  - destruct (parseFloat answerText); [|discriminate]. now intros [= <-].
  - intros [= <-]. apply forallb_filter.
  - intros [= <-]. apply forallb_filter.
  - destruct (matchingPairs n _) as [ps ws].
    destruct (nonempty ps) eqn:E; [|discriminate]. now intros [= <-].
  - match goal with |- context [nonempty ?l] => destruct (nonempty l) eqn:E end;
      [|discriminate].
    intros [= <-]. cbn [fits]. rewrite E. apply forallb_filter.
Qed.

Lemma parseAnswerLine_fits (types : gmap N QuestionType) (t : string) (pl : ParsedLine) :
  fst (parseAnswerLine types t) = Some pl ->
  exists ty, types !! l_number pl = Some ty /\ fits ty (l_answer pl) = true.
Proof.
  unfold parseAnswerLine.
  destruct (Str.is_empty t || Str.is_empty (Str.trim t)); [discriminate|].
  destruct (answerLineMatch (cleanAnswerKeyText t)) as [[digits rest]|]; [|discriminate].
  destruct (types !! Str.parseInt digits) as [ty|] eqn:Ety; [|discriminate].
  pose proof (decodeAnswer_fits (Str.parseInt digits) ty (Str.trim rest)) as Hf.
  destruct (decodeAnswer (Str.parseInt digits) ty (Str.trim rest)) as [[a|] ws];
    [|discriminate].
  cbn [fst mbind option_bind]. intros [= <-]. exists ty. cbn [l_number l_answer].
  split; [exact Ety | now apply Hf].
Qed.

Lemma decodedLines_fits (types : gmap N QuestionType) (lines : list string) :
  Forall (fun pl => exists ty, types !! l_number pl = Some ty /\ fits ty (l_answer pl) = true)
    (decodedLines types lines).
Proof.
  induction lines as [|t lines IH]; [constructor|].
  rewrite decodedLines_cons.
  destruct (fst (parseAnswerLine types t)) as [pl|] eqn:E; [|exact IH].
  constructor; [now apply (parseAnswerLine_fits types t) | exact IH].
Qed.

Lemma keyAnswer_fits (types : gmap N QuestionType) (body : Body) (n : N) (a : AnswerData) :
  keyAnswer types body n = Some a ->
  exists ty, types !! n = Some ty /\ fits ty a = true.
Proof.
  unfold keyAnswer. intros H.
  destruct (last _) as [pl|] eqn:El; [|discriminate]. injection H as <-.
  apply last_Some_elem_of in El. unfold decodedFor in El.
  apply list_elem_of_In, List.filter_In in El as [Hin Hn].
  apply N.eqb_eq in Hn. subst n.
  pose proof (decodedLines_fits types (answerLines body)) as Hall.
  rewrite Forall_forall in Hall. apply Hall. now apply list_elem_of_In.
Qed.

(** X11: every entry of the answer map is for a number that the type map knows,
    and has the shape that the type of that number asks for *)
Theorem answers_fit_types (types : gmap N QuestionType) (body : Body) (n : N) (a : AnswerData) :
  fst (parseAnswerKey types body) !! n = Some a ->
  exists ty, types !! n = Some ty /\ fits ty a = true.
Proof. rewrite parseAnswerKey_lookup. apply keyAnswer_fits. Qed.

Lemma answers_fit_types_witness :
  fst (parseAnswerKey mcTypes duplicateKeyDoc) !! 1%N = Some (AString "B")
  /\ exists ty, mcTypes !! 1%N = Some ty /\ fits ty (AString "B") = true.
Proof.
  assert (H : fst (parseAnswerKey mcTypes duplicateKeyDoc) !! 1%N = Some (AString "B"))
    by reflexivity.
  split; [exact H|]. exact (answers_fit_types mcTypes duplicateKeyDoc 1 (AString "B") H).
Defined.

(** *** The entries of the pipeline *)

Lemma pipeline_entries (uuid : nat -> N) (body : Body) :
  pipeline uuid body
  = (fun q => {| question := q;
                 correctAnswer := keyAnswer (p_questionTypes (parseQuestions uuid body)) body
                                    (number q) |})
      <$> p_questions (parseQuestions uuid body).
Proof.
  unfold pipeline.
  pose proof (parseAnswerKey_lookup (p_questionTypes (parseQuestions uuid body)) body) as H.
  destruct (parseAnswerKey (p_questionTypes (parseQuestions uuid body)) body) as [answers log].
  cbn [fst combineQuestionsAndAnswers] in *.
  apply list_fmap_ext. intros i q _. now rewrite H.
Qed.

(** X12: the pipeline yields one entry for each parsed question, in order: the
    question with the answer of the last decoded line of the key that
    carries its number, or without an answer when there is no such line *)
Theorem pipeline_answers (uuid : nat -> N) (body : Body) :
  question <$> pipeline uuid body = p_questions (parseQuestions uuid body)
  /\ correctAnswer <$> pipeline uuid body
     = keyAnswer (p_questionTypes (parseQuestions uuid body)) body
         <$> (number <$> p_questions (parseQuestions uuid body)).
Proof.
  rewrite pipeline_entries, <- !list_fmap_compose. split.
  - apply list_fmap_id.
  - reflexivity.
Qed.

(** X13: when the question numbers are pairwise distinct, the answer that the
    pipeline attaches to a question has the shape that the type of the
    question asks for *)
Theorem pipeline_answers_fit (uuid : nat -> N) (body : Body) :
  NoDup (number <$> p_questions (parseQuestions uuid body)) ->
  Forall (fun e => forall a, correctAnswer e = Some a -> fits (type (question e)) a = true)
    (pipeline uuid body).
Proof.
  intros Hnd. rewrite pipeline_entries. apply Forall_fmap, Forall_forall.
  intros q Hq a Ha. cbn [correctAnswer question] in *.
  apply keyAnswer_fits in Ha as (ty & Hty & Hf).
  rewrite (type_map_of_distinct_numbers uuid body q Hnd Hq) in Hty.
  now injection Hty as <-.
Qed.

Lemma pipeline_answers_fit_witness :
  NoDup (number <$> p_questions (parseQuestions no_uuid scenarioA))
  /\ Forall (fun e => forall a, correctAnswer e = Some a -> fits (type (question e)) a = true)
       (pipeline no_uuid scenarioA).
Proof.
  assert (H : NoDup (number <$> p_questions (parseQuestions no_uuid scenarioA))).
  { vm_compute. repeat constructor; apply not_elem_of_nil. }
  split; [exact H | exact (pipeline_answers_fit no_uuid scenarioA H)].
Defined.

(** ** The scoring of the multiple-choice item *)

Lemma string_eqb_true (a b : string) : String.eqb a b = true <-> a = b.
Proof. apply String.eqb_eq. Qed.

(** the identifiers that the loop over the options finds for the letter
    [l]: one for each option with that letter, all the same *)
Lemma matching_idents (l : string) (opts : list Opt) (g : nat -> Opt -> nat * Opt) :
  l <> "" -> (forall i o, snd (g i o) = o) ->
  let found :=
    omap (fun '(index, opt) =>
            if negb (Str.is_empty (letter opt)) && String.eqb l (letter opt)
            then Some (choiceIdent (choiceOf index opt)) else None)
         (imap g opts) in
  Forall (fun c => c = "choice_" +:+ l) found /\ (l ∈ letters_of opts <-> found <> []).
Proof.
  intros Hl. revert g. induction opts as [|o opts IH]; intros g Hg found.
  - split; [constructor|].
    split; [intros H; now apply elem_of_nil in H | intros H; exfalso; now apply H].
  - unfold found. specialize (IH (g ∘ S) (fun i o => Hg (S i) o)).
    cbv zeta in IH. destruct IH as [IH1 IH2].
    pose proof (Hg 0 o) as H0. rewrite imap_cons. cbn [omap list_omap].
    destruct (g 0 o) as [index opt]. simpl in H0. subst opt.
    destruct (String.eqb l (letter o)) eqn:E.
    + apply string_eqb_true in E. rewrite <- E.
      assert (Ht : negb (Str.is_empty l) = true) by (destruct l; [congruence | reflexivity]).
      rewrite Ht. cbn [andb]. split.
      * constructor; [|exact IH1]. unfold choiceOf. cbn [choiceIdent]. rewrite <- E.
        destruct l; [congruence | reflexivity].
      * split; [congruence|]. intros _. unfold letters_of.
        rewrite fmap_cons. apply elem_of_cons. now left.
    + rewrite andb_false_r. split; [exact IH1|].
      rewrite <- IH2. unfold letters_of. rewrite fmap_cons, elem_of_cons.
      split; [|tauto]. intros [->|H]; [|exact H].
      rewrite String.eqb_refl in E. discriminate E.
Qed.

Lemma last_all_equal {A} (x : A) (l : list A) :
  Forall (fun c => c = x) l -> l <> [] -> last l = Some x.
Proof.
  intros H Hne. destruct (last l) as [y|] eqn:E.
  - apply last_Some_elem_of in E. rewrite Forall_forall in H. now rewrite (H y E).
  - apply last_None in E. contradiction.
Qed.

(** X14: for an entry with options and a letter as its answer, the condition
    that sets SCORE to 100 binds to the choice of that letter when an
    option carries it, and to the choice of the first option when none
    does. *)
Theorem mc_item_scores_answer_letter (q : QuestionAnswer) (ident l : string) :
  options (question q) <> [] ->
  correctAnswer q = Some (AString l) -> l <> "" ->
  let it := QTI_createMultipleChoiceSingleItem q ident in
  (l ∈ letters_of (options (question q)) ->
     fullScore it = [varequal (responseIdent it) ("choice_" +:+ l)])
  /\ (l ∉ letters_of (options (question q)) ->
      exists o, head (options (question q)) = Some o
                /\ fullScore it = [varequal (responseIdent it) (choiceIdent (choiceOf 0 o))]).
Proof.
  intros Hne Hc Hl it. unfold it, QTI_createMultipleChoiceSingleItem.
  destruct (options (question q)) as [|o opts] eqn:Eo; [congruence|].
  rewrite Hc. unfold matchingChoice.
  assert (Ht : truthy (Some (AString l)) = true) by (destruct l; [congruence | reflexivity]).
  rewrite !Ht. cbn [andb is_letter].
  destruct (matching_idents l (o :: opts) pair Hl (fun _ _ => eq_refl)) as [Hall Hiff].
  split.
  - intros Hin. apply Hiff in Hin. rewrite (last_all_equal _ _ Hall Hin). reflexivity.
  - intros Hnot. exists o. split; [reflexivity|].
    assert (Hnil : omap (fun '(index, opt) =>
            if negb (Str.is_empty (letter opt)) && String.eqb l (letter opt)
            then Some (choiceIdent (choiceOf index opt)) else None)
         (imap pair (o :: opts)) = []).
    { destruct (omap _ _) eqn:E; [reflexivity|]. exfalso. apply Hnot, Hiff. congruence. }
    rewrite Hnil. cbn [last].
    cbn [andb nonempty firstChoice]. unfold fullScore, choiceOf.
    cbn [respconditions choiceIdent responseIdent]. cbn.
    destruct (Str.is_empty (letter o)); reflexivity.
Qed.

Lemma mc_item_scores_answer_letter_witness :
  fullScore (QTI_createMultipleChoiceSingleItem entryA "item_1")
  = [varequal "response_item_1" "choice_B"].
Proof.
  refine (proj1 (mc_item_scores_answer_letter entryA "item_1" "B" _ eq_refl _) _).
  - discriminate.
  - discriminate.
  - change ("B" ∈ ["A"; "B"]). right. left.
Defined.

(** ** The outcomes of a run *)

Section Outcomes.

Variable backend : list QuestionAnswer -> list ImageMeta -> string -> ExportResult.

Lemma pipeline_combined (uuid : nat -> N) (body : Body) :
  pipeline uuid body
  = fst (combineQuestionsAndAnswers (p_questions (parseQuestions uuid body))
           (fst (parseAnswerKey (p_questionTypes (parseQuestions uuid body)) body))).
Proof.
  unfold pipeline. now destruct (parseAnswerKey _ body).
Qed.

(** X15: a run reports success exactly when the parser found a question and the
    export backend reported success.  The backend is called at most once,
    and only when there is a question; a failed run ends with an alert, a
    successful one shows none and returns the address the backend gave. *)
Theorem run_outcomes (uuid : nat -> N) (docName timestamp : string) (body : Body) :
  let parsed := parseQuestions uuid body in
  let exported := backend (pipeline uuid body) (p_images parsed) docName in
  let result := fst (startConversion backend uuid docName timestamp body) in
  let events := snd (startConversion backend uuid docName timestamp body) in
  success result = nonempty (p_questions parsed) && e_success exported
  /\ List.filter calledExport events
     = (if nonempty (p_questions parsed)
        then [CalledExport (pipeline uuid body) (p_images parsed)] else [])
  /\ (if success result
      then fileUrl result = Some (e_fileUrl exported) /\ List.filter isAlert events = []
      else fileUrl result = None /\ exists t m, last events = Some (Alert t m)
                                               /\ message result = "Error: " +:+ m).
Proof.
  intros parsed exported result events.
  unfold result, events, exported, startConversion, conversion.
  rewrite pipeline_combined. fold parsed.
  destruct (p_questions parsed) as [|q0 qs] eqn:Eq.
  - simpl. split; [reflexivity|]. split; [reflexivity|].
    split; [reflexivity|]. eauto.
  - cbn [nonempty negb].
    destruct (parseAnswerKey (p_questionTypes parsed) body) as [answerMap log].
    cbn [fst combineQuestionsAndAnswers].
    destruct (e_success (backend _ (p_images parsed) docName)) eqn:Es; cbn [negb fst snd].
    + split; [reflexivity|]. split; [reflexivity|]. cbn. split; reflexivity.
    + split; [reflexivity|]. split; [reflexivity|].
      cbn [success fileUrl message]. split; [reflexivity|].
      eexists _, _. split; reflexivity.
Qed.

End Outcomes.

(** ** Image tokens in the generated text *)

Lemma plainChar_first (c : ascii) (w s : string) :
  plainChar c = true -> Str.strip_prefix (String "[" w) (String c s) = None.
Proof.
  intros H. rewrite strip_prefix_cons. unfold plainChar in H.
  apply negb_true_iff in H. now rewrite H.
Qed.

Lemma replace_first_cons (w r : string) (c : ascii) (s : string) :
  Str.replace_first w r (String c s) =
  match Str.strip_prefix w (String c s) with
  | Some rest => r +:+ rest
  | None => String c (Str.replace_first w r s)
  end.
Proof. reflexivity. Qed.

(** a search for a token passes over what holds no opening bracket *)
Lemma replace_first_skip (w r p x : string) :
  allChars plainChar p = true ->
  Str.replace_first (String "[" w) r (p +:+ x) = p +:+ Str.replace_first (String "[" w) r x.
Proof.
  induction p as [|c p IH]; intros H; [reflexivity|].
  simpl in H. apply andb_true_iff in H as [Hc Hp].
  rewrite !append_cons, replace_first_cons, (plainChar_first c w _ Hc). now rewrite IH.
Qed.

Lemma strip_prefix_app (w x : string) : Str.strip_prefix w (w +:+ x) = Some x.
Proof.
  induction w as [|c w IH]; [now destruct x|].
  rewrite append_cons, strip_prefix_cons, is_char_refl. exact IH.
Qed.

Lemma placeholder_cons (i : string) :
  placeholder i = String "[" (String "I" (String "M" (String "G" (String ":" (i +:+ "]"))))).
Proof. reflexivity. Qed.

Lemma token_placeholder (i x : string) : token i x = placeholder i +:+ x.
Proof. unfold token, placeholder. now rewrite !append_assoc. Qed.

Lemma replace_first_here (i r x : string) :
  Str.replace_first (placeholder i) r (token i x) = r +:+ x.
Proof.
  rewrite token_cons, replace_first_cons, <- token_cons, token_placeholder.
  now rewrite strip_prefix_app.
Qed.

(** the characters of a token after its opening bracket *)
Lemma token_tail_plain (j : string) :
  allid j = true -> allChars plainChar ("IMG:" +:+ j +:+ "]") = true.
Proof.
  intros Hj. apply allChars_app; [reflexivity|].
  apply allChars_app; [now apply allid_plain | reflexivity].
Qed.

(** a search for the token of [i] passes over the token of another
    identifier *)
Lemma replace_first_other (i j r x : string) :
  isImageId i = true -> isImageId j = true -> i <> j ->
  Str.replace_first (placeholder i) r (token j x) = token j (Str.replace_first (placeholder i) r x).
Proof.
  unfold isImageId. intros Hi Hj Hne.
  apply andb_true_iff in Hi as [Hi Li]. apply andb_true_iff in Hj as [Hj Lj].
  apply Nat.eqb_eq in Li, Lj.
  assert (Hs : Str.strip_prefix (placeholder i) (token j x) = None).
  { pose proof (includes_token i j "" Hi Hj ltac:(lia)) as H.
    assert (Hst : Str.starts_with (placeholder i) (token j x) = false).
    { rewrite placeholder_cons, token_cons, !starts_with_cons, !is_char_refl. simpl.
      rewrite (starts_with_ids i j x Hi Hj ltac:(lia)).
      now apply String.eqb_neq. }
    unfold Str.starts_with in Hst. now destruct (Str.strip_prefix _ _). }
  rewrite token_cons at 1. rewrite replace_first_cons, <- token_cons, Hs.
  change (String "I" (String "M" (String "G" (String ":" (j +:+ String "]" x)))))
    with ("IMG:" +:+ (j +:+ String "]" x)).
  replace ("IMG:" +:+ (j +:+ String "]" x)) with (("IMG:" +:+ j +:+ "]") +:+ x)
    by (rewrite !append_assoc; reflexivity).
  rewrite placeholder_cons at 1. rewrite replace_first_skip by now apply token_tail_plain.
  rewrite token_cons. rewrite !append_assoc. reflexivity.
Qed.

(** *** The tokens that the expression finds *)

Lemma placeholderIds_cons (skip : nat) (c : ascii) (s : string) :
  placeholderIds skip (String c s) =
  match skip with
  | S k => placeholderIds k s
  | O =>
      match placeholderAt (String c s) with
      | Some imageId => imageId :: placeholderIds (String.length imageId + 5) s
      | None => placeholderIds 0 s
      end
  end.
Proof. reflexivity. Qed.

Lemma placeholderIds_plain (p x : string) :
  allChars plainChar p = true -> placeholderIds 0 (p +:+ x) = placeholderIds 0 x.
Proof.
  induction p as [|c p IH]; intros H; [reflexivity|].
  simpl in H. apply andb_true_iff in H as [Hc Hp].
  rewrite append_cons, placeholderIds_cons. unfold placeholderAt.
  rewrite (plainChar_first c "IMG:" _ Hc). simpl. now apply IH.
Qed.

Lemma placeholderIds_skip (p x : string) :
  placeholderIds (String.length p) (p +:+ x) = placeholderIds 0 x.
Proof. induction p as [|c p IH]; [reflexivity|]. rewrite append_cons. simpl. exact IH. Qed.

Lemma take_while_ids (i x : string) :
  allid i = true ->
  Str.take_while not_bracket (i +:+ String "]" x) = i
  /\ Str.drop_while not_bracket (i +:+ String "]" x) = String "]" x.
Proof.
  induction i as [|c i IH]; intros H; [split; reflexivity|].
  simpl in H. apply andb_true_iff in H as [Hc Hi]. rewrite append_cons. simpl.
  destruct (idchar_facts c Hc) as (_ & _ & _ & Hb & _).
  unfold not_bracket at 1 3. rewrite (is_char_false _ _ Hb). simpl.
  destruct (IH Hi) as [-> ->]. split; reflexivity.
Qed.

Lemma placeholderAt_token (i x : string) :
  isImageId i = true -> placeholderAt (token i x) = Some i.
Proof.
  unfold isImageId. intros H. apply andb_true_iff in H as [Hi Li]. apply Nat.eqb_eq in Li.
  unfold placeholderAt, token. rewrite strip_prefix_app. cbn [mbind option_bind]. unfold Re.many1.
  change ("]" +:+ x) with (String "]" x).
  destruct (take_while_ids i x Hi) as [Ht Hd]. rewrite Ht, Hd.
  destruct i as [|c i]; [discriminate Li|]. rewrite append_cons. simpl in Hi |- *.
  apply andb_true_iff in Hi as [Hc _].
  destruct (idchar_facts c Hc) as (_ & _ & _ & Hb & _).
  unfold not_bracket. rewrite (is_char_false _ _ Hb). simpl.
  reflexivity.
Qed.

Lemma placeholderIds_token (i x : string) :
  isImageId i = true -> placeholderIds 0 (token i x) = i :: placeholderIds 0 x.
Proof.
  intros H. rewrite token_cons at 1. rewrite placeholderIds_cons, <- token_cons.
  rewrite (placeholderAt_token i x H). f_equal.
  change (String "I" (String "M" (String "G" (String ":" (i +:+ String "]" x)))))
    with ("IMG:" +:+ (i +:+ String "]" x)).
  replace ("IMG:" +:+ (i +:+ String "]" x)) with (("IMG:" +:+ i +:+ "]") +:+ x)
    by (rewrite !append_assoc; reflexivity).
  replace (String.length i + 5) with (String.length ("IMG:" +:+ i +:+ "]")).
  - apply placeholderIds_skip.
  - rewrite !string_length_app. simpl. lia.
Qed.

Lemma imageIds_plain (s : string) (segs : list Segment) :
  imageIds (Plain s :: segs) = imageIds segs.
Proof. reflexivity. Qed.

Lemma imageIds_image (i : string) (segs : list Segment) :
  imageIds (Image i :: segs) = i :: imageIds segs.
Proof. reflexivity. Qed.

Lemma placeholderIds_textOf (segs : list Segment) :
  forallb wellFormed segs = true -> placeholderIds 0 (textOf segs) = imageIds segs.
Proof.
  induction segs as [|[s|i] segs IH]; intros H; [reflexivity| |];
    simpl in H; apply andb_true_iff in H as [Hs Hr]; cbn [textOf].
  - rewrite imageIds_plain, placeholderIds_plain by exact Hs. now apply IH.
  - rewrite imageIds_image, placeholderIds_token by exact Hs. now rewrite IH.
Qed.

(** *** The tag of an image *)

Lemma allChars_digits (d : Decimal.uint) :
  allChars Char.is_digit (NilEmpty.string_of_uint d) = true.
Proof. induction d; simpl; auto. Qed.

Lemma digit_plain (c : ascii) : Char.is_digit c = true -> plainChar c = true.
Proof.
  destruct c as [[] [] [] [] [] [] [] []]; vm_compute; intros H; try discriminate H;
    reflexivity.
Qed.

Lemma of_N_plain (n : N) : allChars plainChar (Str.of_N n) = true.
Proof. apply (allChars_impl Char.is_digit); [apply digit_plain | apply allChars_digits]. Qed.

Lemma imgTag_plain (imageMeta : ImageMeta) (file : string) :
  allChars plainChar file = true -> allChars plainChar (imgTag imageMeta file) = true.
Proof.
  intros H. unfold imgTag, sanitizeHtml, attr. cbv zeta.
  unfold Str.dq. rewrite !replace_class_same.
  destruct (_ && _);
    repeat first [reflexivity | exact H | apply of_N_plain | apply allChars_app].
Qed.

Lemma fileChar_plain (c : ascii) : fileChar c = true -> plainChar c = true.
Proof.
  destruct c as [[] [] [] [] [] [] [] []]; vm_compute; intros H; try discriminate H;
    reflexivity.
Qed.

Lemma tagOf_plain (questionImages : list ImageMeta) (i tag : string) :
  plainFiles questionImages -> tagOf questionImages i = Some tag ->
  allChars plainChar tag = true.
Proof.
  unfold plainFiles, tagOf, imageMeta_of. intros Hf H.
  destruct (last _) as [m|] eqn:El; [|discriminate]. cbn [mbind option_bind] in H.
  destruct (filename m) as [f|] eqn:Ef; [|discriminate]. cbn [mbind option_bind] in H.
  destruct (Str.is_empty f); [discriminate|]. injection H as <-.
  apply imgTag_plain. apply last_Some_elem_of in El.
  apply list_elem_of_In, List.filter_In in El as [Hin _].
  rewrite Forall_forall in Hf. apply (allChars_impl fileChar); [apply fileChar_plain|].
  apply (Hf m); [now apply list_elem_of_In | exact Ef].
Qed.

(** *** The replacement *)

Lemma foldl_same {A B} (f g : A -> B -> A) (l : list B) (a : A) :
  (forall x y, f x y = g x y) -> foldl f a l = foldl g a l.
Proof.
  intros H. revert a. induction l as [|y l IH]; intros a; [reflexivity|].
  simpl. now rewrite H, IH.
Qed.

Lemma replaceImagePlaceholdersWithHtml_fold (text : string) (questionImages : list ImageMeta) :
  replaceImagePlaceholdersWithHtml text questionImages
  = if Str.is_empty text || negb (nonempty questionImages) then text
    else foldl (replaceOne questionImages) text (placeholderIds 0 text).
Proof.
  unfold replaceImagePlaceholdersWithHtml.
  destruct (_ || _); [reflexivity|]. apply foldl_same. intros processedText imageId.
  unfold replaceOne, tagOf.
  destruct (imageMeta_of questionImages imageId) as [m|]; [|reflexivity].
  cbn [mbind option_bind]. destruct (filename m) as [f|]; [|reflexivity].
  cbn [mbind option_bind]. now destruct (Str.is_empty f).
Qed.

Lemma passedOver_plain (questionImages : list ImageMeta) (R p : string) :
  passedOver questionImages R -> allChars plainChar p = true ->
  passedOver questionImages (R +:+ p).
Proof.
  intros HR Hp i tag r x Hi Ht. rewrite !append_assoc, (HR i tag r _ Hi Ht).
  rewrite placeholder_cons at 1. rewrite replace_first_skip by exact Hp.
  now rewrite <- placeholder_cons.
Qed.

Lemma passedOver_token (questionImages : list ImageMeta) (R j : string) :
  passedOver questionImages R -> isImageId j = true -> tagOf questionImages j = None ->
  passedOver questionImages (R +:+ placeholder j).
Proof.
  intros HR Hj Hn i tag r x Hi Ht. rewrite !append_assoc, (HR i tag r _ Hi Ht).
  rewrite <- !token_placeholder. rewrite replace_first_other; auto. congruence.
Qed.

Lemma foldl_rendered (questionImages : list ImageMeta) (segs : list Segment) :
  plainFiles questionImages -> forallb wellFormed segs = true ->
  forall R, passedOver questionImages R ->
    foldl (replaceOne questionImages) (R +:+ textOf segs) (imageIds segs)
    = R +:+ rendered questionImages segs.
Proof.
  intros Hf. induction segs as [|[s|i] segs IH]; intros H R HR; [reflexivity| |];
    simpl in H; apply andb_true_iff in H as [Hs Hr]; cbn [textOf rendered].
  - rewrite imageIds_plain, <- !append_assoc. apply (IH Hr). now apply passedOver_plain.
  - rewrite imageIds_image. cbn [foldl]. unfold replaceOne at 2.
    destruct (tagOf questionImages i) as [tag|] eqn:Et.
    + rewrite (HR i tag tag _ Hs Et), replace_first_here. cbn [default from_option id].
      rewrite <- !append_assoc. apply (IH Hr). apply passedOver_plain; [exact HR|].
      now apply (tagOf_plain questionImages i).
    + cbn [default from_option id]. rewrite token_placeholder, <- !append_assoc.
      apply (IH Hr). now apply passedOver_token.
Qed.

(** X16: in a text made of runs without an opening bracket and of tokens of
    minted identifiers, every token whose image is in the list with a file
    name is replaced by the tag of that image, and every other token and
    all the rest of the text is left as it is. *)
Theorem tokens_replaced_by_tags (segs : list Segment) (questionImages : list ImageMeta) :
  plainFiles questionImages -> forallb wellFormed segs = true ->
  replaceImagePlaceholdersWithHtml (textOf segs) questionImages
  = rendered questionImages segs.
Proof.
  intros Hf Hw. rewrite replaceImagePlaceholdersWithHtml_fold.
  destruct (Str.is_empty (textOf segs) || negb (nonempty questionImages)) eqn:E.
  - apply orb_true_iff in E as [E|E].
    + destruct (textOf segs) eqn:Et; [|discriminate]. clear E.
      induction segs as [|[s|i] segs IH]; [reflexivity| |].
      * simpl in *. apply andb_true_iff in Hw as [_ Hw].
        destruct s; [|discriminate Et]. now apply IH.
      * discriminate Et.
    + destruct questionImages; [|discriminate]. clear.
      induction segs as [|[s|i] segs IH]; simpl; [reflexivity| |].
      * now rewrite IH.
      * rewrite token_placeholder. now rewrite IH.
  - rewrite (placeholderIds_textOf _ Hw).
    apply (foldl_rendered questionImages segs Hf Hw "").
    intros i tag r x _ _. reflexivity.
Qed.

Lemma tokens_replaced_by_tags_witness :
  replaceImagePlaceholdersWithHtml
    ("See [IMG:00000000000000000000000000000005] and [IMG:00000000000000000000000000000006].")
    [figure]
  = "See <img src=" +:+ Str.dq +:+ "resources/q1_elem0_img0000_05.png" +:+ Str.dq
    +:+ " alt=" +:+ Str.dq +:+ Str.dq +:+ " width=" +:+ Str.dq +:+ "10" +:+ Str.dq
    +:+ " height=" +:+ Str.dq +:+ "20" +:+ Str.dq
    +:+ " /> and [IMG:00000000000000000000000000000006].".
Proof.
  refine (tokens_replaced_by_tags
            [Plain "See "; Image (uuid_string 5); Plain " and "; Image (uuid_string 6); Plain "."]
            [figure] _ eq_refl).
  repeat constructor. intros f [= <-]. reflexivity.
Defined.

(** ** The images of the package *)

Lemma concat_cons2 (sep x y : string) (l : list string) :
  String.concat sep (x :: y :: l) = x +:+ sep +:+ String.concat sep (y :: l).
Proof. reflexivity. Qed.

(** joining the parts of a split gives the text back *)
Lemma concat_split (d : ascii) (s : string) :
  String.concat (String d "") (Str.split (Char.is_char d) s) = s.
Proof.
  induction s as [|c s IH]; [reflexivity|]. simpl.
  pose proof (split_nonempty (Char.is_char d) s) as Hne.
  destruct (Str.split (Char.is_char d) s) as [|h t]; [congruence|].
  destruct (Char.is_char d c) eqn:E.
  - rewrite concat_cons2, IH. rewrite (is_char_true _ _ E). reflexivity.
  - unfold Str.cons_head. destruct t as [|h' t].
    + simpl in *. now rewrite IH.
    + rewrite concat_cons2 in *. rewrite append_cons. now rewrite IH.
Qed.

Lemma concat_removelast (sep : string) (l : list string) (x : string) :
  last l = Some x ->
  String.concat sep l
  = String.concat sep (removelast l) +:+ (if nonempty (removelast l) then sep else "") +:+ x.
Proof.
  induction l as [|a l IH]; [discriminate|]. intros H.
  destruct l as [|b l]; [injection H as ->; reflexivity|].
  rewrite last_cons_cons in H. specialize (IH H).
  change (removelast (a :: b :: l)) with (a :: removelast (b :: l)).
  rewrite concat_cons2, IH. cbn [nonempty].
  destruct (removelast (b :: l)) as [|c m] eqn:E; cbn [nonempty].
  - reflexivity.
  - rewrite concat_cons2. now rewrite !append_assoc.
Qed.

(** the name with a counter is longer than the name *)
Lemma withCounter_longer (f : string) (counter : N) :
  String.length f < String.length (withCounter f counter).
Proof.
  unfold withCounter. cbv zeta.
  pose proof (concat_split "." f) as Hf.
  pose proof (split_nonempty (Char.is_char ".") f) as Hne.
  destruct (last (Str.split (Char.is_char ".") f)) as [x|] eqn:El;
    [|apply last_None in El; congruence].
  rewrite (concat_removelast _ _ _ El) in Hf. cbn [default from_option Datatypes.id].
  apply (f_equal String.length) in Hf. rewrite !string_length_app in *.
  assert (Hsep : String.length (if nonempty (removelast (Str.split (Char.is_char ".") f))
                                then "." else "") <= 1) by (destruct (nonempty _); simpl; lia).
  destruct (Str.is_empty x) eqn:Ex.
  - destruct x; [|discriminate]. simpl in *. lia.
  - simpl. lia.
Qed.

Lemma filter_length_lt {A} (p q : A -> bool) (l : list A) (y : A) :
  (forall x, p x = true -> q x = true) -> y ∈ l -> q y = true -> p y = false ->
  length (List.filter p l) < length (List.filter q l).
Proof.
  intros Hpq Hy Hq Hp. induction l as [|x l IH]; [now apply elem_of_nil in Hy|].
  assert (Hle : forall m : list A, length (List.filter p m) <= length (List.filter q m)).
  { induction m as [|z m IHm]; [reflexivity|]. simpl.
    destruct (p z) eqn:E; [rewrite (Hpq z E); simpl; lia|].
    destruct (q z); simpl; lia. }
  apply elem_of_cons in Hy as [<-|Hy]; simpl.
  - rewrite Hq, Hp. simpl. specialize (Hle l). lia.
  - specialize (IH Hy). destruct (p x) eqn:E; [rewrite (Hpq x E); simpl; lia|].
    destruct (q x); simpl; lia.
Qed.

(** the inner loop ends with a name that was not seen, within as many
    rounds as there are seen names that are not shorter than the name *)
Lemma uniqueFilename_fresh (fuel : nat) (seen : list string) :
  forall f counter,
    length (List.filter (fun s => String.length f <=? String.length s) seen) <= fuel ->
    exists f', uniqueFilename fuel seen f counter = Some f' /\ f' ∉ seen.
Proof.
  induction fuel as [|fuel IH]; intros f counter Hfuel; simpl.
  - destruct (bool_decide (f ∈ seen)) eqn:E.
    + apply bool_decide_eq_true in E. exfalso.
      assert (Hin : f ∈ List.filter (fun s => String.length f <=? String.length s) seen).
      { apply list_elem_of_In, List.filter_In. split; [now apply list_elem_of_In|].
        apply Nat.leb_le. lia. }
      destruct (List.filter _ seen); [now apply elem_of_nil in Hin | simpl in Hfuel; lia].
    + apply bool_decide_eq_false in E. eauto.
  - destruct (bool_decide (f ∈ seen)) eqn:E.
    + apply bool_decide_eq_true in E. apply IH.
      pose proof (withCounter_longer f counter) as Hl.
      pose proof (filter_length_lt
                    (fun s => String.length (withCounter f counter) <=? String.length s)
                    (fun s => String.length f <=? String.length s) seen f) as Hlt.
      cbv beta in Hlt. unfold lt in Hlt.
      assert (H1 : forall x, (String.length (withCounter f counter) <=? String.length x) = true
                             -> (String.length f <=? String.length x) = true).
      { intros x Hx. apply Nat.leb_le in Hx. apply Nat.leb_le. lia. }
      specialize (Hlt H1 E).
      assert (H2 : (String.length f <=? String.length f) = true) by (apply Nat.leb_le; lia).
      assert (H3 : (String.length (withCounter f counter) <=? String.length f) = false)
        by (apply Nat.leb_gt; lia).
      specialize (Hlt H2 H3). lia.
    + apply bool_decide_eq_false in E. eauto.
Qed.

Lemma filter_length_le {A} (p : A -> bool) (l : list A) :
  length (List.filter p l) <= length l.
Proof. induction l as [|x l IH]; simpl; [lia|]. destruct (p x); simpl; lia. Qed.

Section CopiedNames.

Variable createFile : string -> Blob -> bool.

Lemma mapSet_values (k v : string) (m : list (string * string)) (e : string * string) :
  e ∈ mapSet k v m -> e ∈ m \/ e = (k, v).
Proof.
  unfold mapSet. destruct (existsb _ m).
  - intros H. apply list_elem_of_fmap in H as (x & -> & Hx).
    destruct (String.eqb x.1 k); auto.
  - intros H. apply elem_of_app in H as [H|H]; [auto|].
    apply list_elem_of_singleton in H. auto.
Qed.

Lemma copyImage_copiedOnce (st : Copied) (imgMeta : ImageMeta) :
  copiedOnce st -> copiedOnce (copyImage createFile st imgMeta).
Proof.
  intros [Hnd Hmap]. unfold copyImage.
  destruct (validFilename imgMeta) as [f|]; [|now split].
  destruct (uniqueFilename_fresh (length (seenFilenames st)) (seenFilenames st) f 1
              (filter_length_le _ _)) as (f' & -> & Hfresh).
  destruct (createFile f' (blob imgMeta)); [|now split].
  split; cbn [seenFilenames imageFilenameMap].
  - apply NoDup_app. split; [exact Hnd|]. split; [|apply NoDup_singleton].
    intros x Hx Hx'. apply list_elem_of_singleton in Hx'. now subst x.
  - intros e He. apply mapSet_values in He as [He| ->]; apply elem_of_app.
    + left. now apply Hmap.
    + right. now apply list_elem_of_singleton.
Qed.

Lemma foldl_copiedOnce (l : list ImageMeta) (st : Copied) :
  copiedOnce st -> copiedOnce (foldl (copyImage createFile) st l).
Proof.
  revert st. induction l as [|m l IH]; intros st H; [exact H|].
  simpl. now apply IH, copyImage_copiedOnce.
Qed.

(** X17: no two files of the resources folder get the same name: the names
    under which the images are copied are pairwise distinct, and every
    name of the map from identifiers to names is one of them.  The loop
    that looks for a free name ends within as many rounds as there are
    names seen, with a name that was not seen before. *)
Theorem copied_names_distinct (allImages : list ImageMeta) :
  let copied := QTI_processAndCopyImages createFile allImages in
  NoDup (seenFilenames copied)
  /\ Forall (fun e => snd e ∈ seenFilenames copied) (imageFilenameMap copied)
  /\ forall seen f, exists finalFilename,
       uniqueFilename (length seen) seen f 1 = Some finalFilename /\ finalFilename ∉ seen.
Proof.
  intros copied.
  assert (H : copiedOnce copied).
  { apply foldl_copiedOnce. split; [constructor | intros e He; now apply elem_of_nil in He]. }
  destruct H as [H1 H2]. split; [exact H1|]. split; [now apply Forall_forall|].
  intros seen f. apply uniqueFilename_fresh, filter_length_le.
Qed.

End CopiedNames.

(** ** The items of the other types *)

Lemma keyedLabels_keys (prefix : string) (opts : list Opt) (g : nat -> Opt -> nat * Opt) :
  (forall i o, snd (g i o) = o) ->
  fst <$> omap (fun '(index, opt) =>
          if Str.is_empty (keyOf opt) then None
          else Some (keyOf opt,
                     {| labelIdent := prefix +:+ letterOrIndex index opt;
                        labelHtml :=
                          cdata (replaceImagePlaceholdersWithHtml (o_text opt) (o_images opt)) |}))
       (imap g opts)
  = keysOf opts.
Proof.
  revert g. induction opts as [|o opts IH]; intros g Hg; [reflexivity|].
  rewrite imap_cons. cbn [omap list_omap]. unfold keysOf. rewrite fmap_cons. cbn [List.filter].
  pose proof (Hg 0 o) as H0. destruct (g 0 o) as [index opt]. simpl in H0. subst opt.
  specialize (IH (g ∘ S) (fun i o => Hg (S i) o)). unfold keysOf in IH.
  destruct (Str.is_empty (keyOf o)); cbn [negb]; [exact IH|].
  rewrite fmap_cons. cbn [fst]. now rewrite IH.
Qed.

(** the map of the loop knows a key exactly when an option has it *)
Lemma identOf_is_Some (prefix : string) (opts : list Opt) (k : string) :
  is_Some (identOf (keyedLabels prefix opts) k) <-> k ∈ keysOf opts.
Proof.
  unfold identOf. rewrite fmap_is_Some.
  rewrite <- (keyedLabels_keys prefix opts pair (fun _ _ => eq_refl)).
  fold (keyedLabels prefix opts). generalize (keyedLabels prefix opts) as keyed. intros keyed.
  split.
  - intros [e He]. apply last_Some_elem_of in He.
    apply list_elem_of_In, List.filter_In in He as [Hin Hk].
    apply String.eqb_eq in Hk. subst k. apply list_elem_of_fmap. exists e.
    split; [reflexivity | now apply list_elem_of_In].
  - intros H. apply list_elem_of_fmap in H as (e & -> & He).
    destruct (last (List.filter (fun e0 => String.eqb e0.1 e.1) keyed)) eqn:El; [eauto|].
    apply last_None in El. exfalso.
    assert (Hin : e ∈ List.filter (fun e0 => String.eqb e0.1 e.1) keyed).
    { apply list_elem_of_In, List.filter_In. split; [now apply list_elem_of_In|].
      apply String.eqb_refl. }
    rewrite El in Hin. now apply elem_of_nil in Hin.
Qed.

Lemma omap_length_all {A B} (f : A -> option B) (l : list A) :
  length (omap f l) = length l <-> Forall (fun x => is_Some (f x)) l.
Proof.
  unfold omap.
  assert (Hle : forall m : list A, length (list_omap _ _ f m) <= length m).
  { induction m as [|y m IHm]; simpl; [lia|]. destruct (f y); simpl; lia. }
  induction l as [|x l IH]; simpl.
  - split; [constructor | reflexivity].
  - destruct (f x) eqn:E; simpl.
    + split.
      * intros H. constructor; [rewrite E; eauto|]. apply IH. lia.
      * intros H. inversion H as [|? ? _ Hl]; subst. apply IH in Hl. lia.
    + split.
      * intros H. specialize (Hle l). lia.
      * intros H. inversion H as [|? ? Hx _]; subst. rewrite E in Hx.
        destruct Hx as [? Hx]. discriminate Hx.
Qed.

(** X18: an ordering item is generated exactly when every item of the answer
    sequence is the key of an option, its letter or, without a letter, its
    text; one item that names no option and the question gets no item. *)
Theorem ordering_item_generated (q : QuestionAnswer) (itemIdent : string)
    (sequence : list string) :
  options (question q) <> [] -> sequence <> [] ->
  correctAnswer q = Some (AStrings sequence) ->
  (is_Some (QTI_createOrderingItem q itemIdent)
   <-> Forall (fun a => a ∈ keysOf (options (question q))) sequence).
Proof.
  intros Ho Hs Hc. unfold QTI_createOrderingItem. rewrite Hc.
  destruct (options (question q)) as [|o opts] eqn:Eo; [congruence|].
  destruct sequence as [|a l]; [congruence|]. cbv zeta.
  rewrite <- (Forall_iff (fun x => is_Some (identOf (keyedLabels "choice_" (o :: opts)) x)))
    by (intros x; apply identOf_is_Some).
  rewrite <- omap_length_all.
  destruct (Nat.eqb_spec (length (omap (identOf (keyedLabels "choice_" (o :: opts))) (a :: l)))
              (length (a :: l))) as [He|Hne]; cbn [negb].
  - split; [intros _; exact He | eauto].
  - split; [intros [x Hx]; discriminate Hx | intros H; contradiction].
Qed.

Lemma ordering_item_generated_witness :
  is_Some (QTI_createOrderingItem orderingEntry "item_4").
Proof.
  apply (ordering_item_generated orderingEntry "item_4" ["C"; "A"; "B"]);
    [discriminate | discriminate | reflexivity |].
  change (Forall (fun a => a ∈ ["A"; "B"; "C"]) ["C"; "A"; "B"]).
  repeat constructor.
Defined.

(** an item of the answer in another case than the letter of the option
    names no option *)
Example ordering_item_case :
  QTI_createOrderingItem
    {| question := question orderingEntry; correctAnswer := Some (AStrings ["c"; "a"; "b"]) |}
    "item_4" = None
  /\ order_correctSequence <$> QTI_createOrderingItem orderingEntry "item_4"
     = Some "choice_C choice_A choice_B".
Proof. split; reflexivity. Qed.

(** *** Matching *)

Lemma is_empty_concat (sep x : string) (l : list string) :
  Str.is_empty x = false -> Str.is_empty (String.concat sep (x :: l)) = false.
Proof.
  destruct x as [|c x]; [discriminate|]. intros _. destruct l; [reflexivity|].
  rewrite concat_cons2, append_cons. reflexivity.
Qed.

Lemma uniqueResponses_spec (pairs : list Pair) (v : string) :
  v ∈ uniqueResponses pairs <-> v <> "" /\ v ∈ response <$> pairs.
Proof.
  unfold uniqueResponses. rewrite list_elem_of_In, List.filter_In, <- list_elem_of_In.
  rewrite sort_Permutation. split.
  - intros [H1 H2]. split; [destruct v; [discriminate | congruence]|].
    now apply unique_sublist in H1.
  - intros [H1 H2]. split; [|destruct v; [congruence | reflexivity]].
    apply unique_complete; [exact H2 | apply not_elem_of_nil].
Qed.

Lemma pairIdents_is_Some (prefix : string) (opts : list Opt) (pairs : list Pair) (p : Pair) :
  p ∈ pairs ->
  (is_Some (pairIdents (keyedLabels prefix opts) (uniqueResponses pairs) p)
   <-> premise p ∈ keysOf opts /\ response p <> "").
Proof.
  intros Hp. unfold pairIdents. rewrite <- identOf_is_Some with (prefix := prefix).
  destruct (identOf (keyedLabels prefix opts) (premise p)) as [pIdent|];
    cbn [mbind option_bind].
  - destruct (bool_decide (response p ∈ uniqueResponses pairs)) eqn:E.
    + apply bool_decide_eq_true, uniqueResponses_spec in E as [E _].
      split; [intros _; split; [eauto | exact E] | eauto].
    + apply bool_decide_eq_false in E. split; [intros [x Hx]; discriminate Hx|].
      intros [_ Hr]. exfalso. apply E, uniqueResponses_spec. split; [exact Hr|].
      apply list_elem_of_fmap. now exists p.
  - split; [intros [x Hx]; discriminate Hx | intros [[x Hx] _]; discriminate Hx].
Qed.

Lemma pairIdents_nonempty (keyed : list (string * Label)) (responses : list string)
    (p : Pair) (s : string) :
  pairIdents keyed responses p = Some s -> Str.is_empty s = false.
Proof.
  unfold pairIdents. destruct (identOf keyed (premise p)) as [pIdent|]; [|discriminate].
  cbn [mbind option_bind]. destruct (bool_decide _); [|discriminate].
  intros [= <-]. change ("." +:+ ?x) with (String "." x). apply is_empty_app.
Qed.

(** X19: a matching item is generated exactly when some pair of the answer has
    the key of an option as its premise and a response that is not empty;
    pairs whose premise names no option are left out of the scoring, and
    when all are, the question gets no item. *)
Theorem matching_item_generated (q : QuestionAnswer) (itemIdent : string) (pairs : list Pair) :
  options (question q) <> [] ->
  correctAnswer q = Some (APairs pairs) ->
  (is_Some (QTI_createMatchingItem q itemIdent)
   <-> Exists (fun p => premise p ∈ keysOf (options (question q)) /\ response p <> "") pairs).
Proof.
  intros Ho Hc. unfold QTI_createMatchingItem. rewrite Hc.
  destruct (options (question q)) as [|o opts] eqn:Eo; [congruence|].
  destruct pairs as [|p0 ps].
  - split; [intros [x Hx]; discriminate Hx | intros H; inversion H].
  - cbv zeta. set (pairs := p0 :: ps).
    set (found := omap (pairIdents (keyedLabels "premise_" (o :: opts)) (uniqueResponses pairs))
                    pairs).
    assert (Hfound : found <> [] <->
              Exists (fun p => premise p ∈ keysOf (o :: opts) /\ response p <> "") pairs).
    { unfold found. rewrite Exists_exists. split.
      - intros H. destruct (omap _ pairs) as [|s l] eqn:E; [congruence|].
        assert (Hs : s ∈ omap (pairIdents (keyedLabels "premise_" (o :: opts))
                                 (uniqueResponses pairs)) pairs) by (rewrite E; left).
        apply list_elem_of_omap in Hs as (p & Hp & Hps). exists p. split; [exact Hp|].
        apply (pairIdents_is_Some "premise_" (o :: opts) pairs p Hp). eauto.
      - intros (p & Hp & Hk).
        apply (pairIdents_is_Some "premise_" (o :: opts) pairs p Hp) in Hk as [s Hs].
        intros Hnil.
        assert (Hin : s ∈ omap (pairIdents (keyedLabels "premise_" (o :: opts))
                                  (uniqueResponses pairs)) pairs).
        { apply list_elem_of_omap. eauto. }
        rewrite Hnil in Hin. now apply elem_of_nil in Hin. }
    rewrite <- Hfound.
    destruct found as [|s l] eqn:E.
    + simpl. split; [intros [x Hx]; discriminate Hx | congruence].
    + assert (Hs : Str.is_empty s = false).
      { assert (Hin : s ∈ found) by (rewrite E; left). unfold found in Hin.
        apply list_elem_of_omap in Hin as (p & _ & Hp).
        now apply pairIdents_nonempty in Hp. }
      rewrite (is_empty_concat " " s l Hs). split; [congruence | eauto].
Qed.

Lemma matching_item_generated_witness :
  is_Some (QTI_createMatchingItem matchingEntry "item_2").
Proof.
  apply (matching_item_generated matchingEntry "item_2"
           [ {| premise := "A"; response := "1" |}; {| premise := "Z"; response := "9" |};
             {| premise := "B"; response := "2" |} ]);
    [discriminate | reflexivity |].
  left. split; [change ("A" ∈ ["A"; "B"]); left | discriminate].
Defined.

Example matching_item_pairs :
  match_correctPairs <$> QTI_createMatchingItem matchingEntry "item_2"
  = Some "premise_A.response_1 premise_B.response_2".
Proof. reflexivity. Qed.

(** ** The items of the package *)

Lemma packageItems_itemAt (l : list QuestionAnswer) :
  packageItems l = omap (fun p => itemAt p.1 p.2) (imap pair l).
Proof.
  unfold packageItems, omap. generalize (imap pair l). intros ps.
  induction ps as [|[index q] ps IH]; [reflexivity|].
  cbn [list_omap fst snd]. cbv zeta. unfold itemAt at 1.
  destruct (QTI_createItemXML q (itemIdentifier index q));
    cbn [mbind option_bind fmap option_fmap option_map]; now rewrite IH.
Qed.

Lemma packageItems_app (l1 l2 : list QuestionAnswer) :
  packageItems (l1 ++ l2)
  = packageItems l1
    ++ omap (fun p => itemAt p.1 p.2) (imap (fun i => pair (length l1 + i)) l2).
Proof.
  rewrite !packageItems_itemAt, imap_app, omap_app. reflexivity.
Qed.

(** X20: every question of the pipeline whose type is neither MATCHING
    nor ORDERING gets its own item in the package: the generator returns
    an item for it under the identifier of its position, and this item
    stands in the package right after the items of the questions before
    it. *)
Theorem pipeline_question_gets_item (uuid : nat -> N) (body : Body) (index : nat)
    (e : QuestionAnswer) :
  pipeline uuid body !! index = Some e ->
  type (question e) <> MATCHING -> type (question e) <> ORDERING ->
  exists doc,
    QTI_createItemXML e (itemIdentifier index e) = Some doc
    /\ packageItems (pipeline uuid body)
         !! length (packageItems (take index (pipeline uuid body)))
       = Some (itemIdentifier index e, doc).
Proof.
  intros He Hm Ho.
  assert (Hinf : inferable (type (question e)) = true).
  { pose proof (parsed_inferable uuid body) as H. rewrite Forall_forall in H.
    apply H. rewrite pipeline_entries in He. rewrite list_lookup_fmap in He.
    destruct (p_questions (parseQuestions uuid body) !! index) as [q|] eqn:Eq; [|discriminate].
    injection He as <-. cbn [question]. now apply list_elem_of_lookup_2 in Eq. }
  assert (Hdoc : is_Some (QTI_createItemXML e (itemIdentifier index e))).
  { unfold QTI_createItemXML. destruct (type (question e)); try discriminate; eauto;
      congruence. }
  destruct Hdoc as [doc Hdoc]. exists doc. split; [exact Hdoc|].
  assert (E : packageItems (pipeline uuid body)
              = packageItems (take index (pipeline uuid body)
                              ++ e :: drop (S index) (pipeline uuid body)))
    by now rewrite take_drop_middle.
  rewrite E, packageItems_app.
  rewrite lookup_app_r by lia. rewrite Nat.sub_diag.
  rewrite length_take_le by (apply lookup_lt_Some in He; lia).
  rewrite imap_cons. cbn [omap list_omap fst snd]. unfold itemAt at 1.
  rewrite Nat.add_0_r, Hdoc. reflexivity.
Qed.

Lemma pipeline_question_gets_item_witness :
  exists doc,
    QTI_createItemXML entryA "item_1" = Some doc
    /\ packageItems (pipeline no_uuid scenarioA) !! 0 = Some ("item_1", doc).
Proof.
  refine (pipeline_question_gets_item no_uuid scenarioA 0 entryA eq_refl _ _);
    discriminate.
Defined.

(** two questions whose identifiers collide, the first numbered 0 and the
    second 1: each has its item, at its own place *)
Example colliding_identifiers :
  fst <$> packageItems
    [ {| question := {| number := 0; type := SHORT_ANSWER; text := "first";
                        options := []; images := []; hasImages := false |};
         correctAnswer := None |};
      {| question := {| number := 1; type := ESSAY; text := "second";
                        options := []; images := []; hasImages := false |};
         correctAnswer := None |} ]
  = ["item_1"; "item_1"].
Proof. reflexivity. Qed.

(** a question of type MULTIPLE_CHOICE_MULTI has no generator: it gets no
    item, with or without an answer *)
Example multi_gets_no_item :
  packageItems
    [ {| question := {| number := 3; type := MULTIPLE_CHOICE_MULTI; text := "Pick all";
                        options := [plainOpt "A" "x"; plainOpt "B" "y"];
                        images := []; hasImages := false |};
         correctAnswer := Some (AStrings ["A"; "B"]) |} ] = [].
Proof. reflexivity. Qed.

(** *** The accepted answers of a fill-in-the-blank item *)

Lemma trimEnd_idempotent (s : string) : Str.trimEnd (Str.trimEnd s) = Str.trimEnd s.
Proof.
  induction s as [|c s IH]; [reflexivity|]. simpl.
  destruct (Char.is_space c && Str.is_empty (Str.trimEnd s)) eqn:E; [reflexivity|].
  simpl. now rewrite IH, E.
Qed.

Lemma trimStart_first (s : string) :
  Str.first_is Char.is_space (Str.trimStart s) = false.
Proof.
  induction s as [|c s IH]; [reflexivity|]. unfold Str.trimStart in *. simpl.
  destruct (Char.is_space c) eqn:E; [exact IH | simpl; exact E].
Qed.

Lemma trimStart_kept (s : string) :
  Str.first_is Char.is_space s = false -> Str.trimStart s = s.
Proof. destruct s as [|c s]; [reflexivity|]. unfold Str.trimStart. simpl. now intros ->. Qed.

Lemma trimEnd_first (s : string) :
  Str.first_is Char.is_space s = false -> Str.first_is Char.is_space (Str.trimEnd s) = false.
Proof.
  destruct s as [|c s]; [reflexivity|]. simpl. intros E. rewrite E. simpl. exact E.
Qed.

Lemma trim_idempotent (s : string) : Str.trim (Str.trim s) = Str.trim s.
Proof.
  unfold Str.trim. rewrite (trimStart_kept (Str.trimEnd _)).
  - apply trimEnd_idempotent.
  - apply trimEnd_first, trimStart_first.
Qed.

Lemma acceptedAnswers_trimmed (l : list string) :
  acceptedAnswers
    (Some (AStrings (List.filter (fun a => negb (Str.is_empty a)) (Str.trim <$> l))))
  = List.filter (fun a => negb (Str.is_empty a)) (Str.trim <$> l).
Proof.
  unfold acceptedAnswers, omap.
  induction l as [|x l IH]; [reflexivity|].
  rewrite fmap_cons. cbn [List.filter].
  destruct (Str.is_empty (Str.trim x)) eqn:E; cbn [negb]; [exact IH|].
  cbn [list_omap]. rewrite trim_idempotent, E. cbn [negb andb].
  unfold sanitizeHtml at 1, Str.dq. rewrite !replace_class_same.
  cbn [default from_option Datatypes.id]. now rewrite IH.
Qed.

(** X21: the alternatives that the key lists for a fill-in-the-blank or
    short-answer question, separated by commas or semicolons, are exactly
    the answers that the item accepts, in the order of the key. *)
Theorem key_alternatives_accepted (n : N) (ty : QuestionType) (answerText : string)
    (q : Question) (itemIdent : string) :
  ty = FILL_IN_BLANK_TEXT \/ ty = SHORT_ANSWER ->
  fib_correctAnswers
    (QTI_createFillInBlankTextItem
       {| question := q; correctAnswer := fst (decodeAnswer n ty answerText) |} itemIdent)
  = splitAnswers answerText.
Proof.
  intros [-> | ->]; cbn [QTI_createFillInBlankTextItem fib_correctAnswers correctAnswer
                          decodeAnswer fst]; apply acceptedAnswers_trimmed.
Qed.

Lemma key_alternatives_accepted_witness :
  fib_correctAnswers
    (QTI_createFillInBlankTextItem
       {| question := {| number := 5; type := SHORT_ANSWER; text := "Largest planet?";
                         options := []; images := []; hasImages := false |};
          correctAnswer := fst (decodeAnswer 5 SHORT_ANSWER " Jupiter ; jupiter,, ") |}
       "item_5")
  = ["Jupiter"; "jupiter"].
Proof.
  rewrite (key_alternatives_accepted 5 SHORT_ANSWER " Jupiter ; jupiter,, " _ "item_5"
             (or_intror eq_refl)).
  reflexivity.
Defined.

(** *** Names that are distinct already *)

Section KeptNames.

Variable createFile : string -> Blob -> bool.

Hypothesis created : forall name b, createFile name b = true.

Lemma uniqueFilename_unseen (fuel : nat) (seen : list string) (f : string) (counter : N) :
  f ∉ seen -> uniqueFilename fuel seen f counter = Some f.
Proof. intros H. destruct fuel; simpl; now rewrite bool_decide_eq_false_2. Qed.

Lemma mapSet_new (k v : string) (m : list (string * string)) :
  k ∉ fst <$> m -> mapSet k v m = m ++ [(k, v)].
Proof.
  intros H. unfold mapSet.
  destruct (existsb (fun e => String.eqb e.1 k) m) eqn:E; [|reflexivity].
  exfalso. apply H. apply existsb_exists in E as (e & He & Hk).
  apply String.eqb_eq in Hk. subst k. apply list_elem_of_fmap. exists e.
  split; [reflexivity | now apply list_elem_of_In].
Qed.

Lemma omap_cons_Some {A B : Type} (f : A -> option B) (x : A) (y : B) (l : list A) :
  f x = Some y -> omap f (x :: l) = y :: omap f l.
Proof. intros H. unfold omap. cbn [list_omap]. now rewrite H. Qed.

Lemma omap_cons_None {A B : Type} (f : A -> option B) (x : A) (l : list A) :
  f x = None -> omap f (x :: l) = omap f l.
Proof. intros H. unfold omap. cbn [list_omap]. now rewrite H. Qed.

Lemma foldl_copyImage_distinct (l : list ImageMeta) (st : Copied) :
  NoDup (seenFilenames st ++ omap validFilename l) ->
  NoDup ((fst <$> imageFilenameMap st) ++ (fst <$> omap ownEntry l)) ->
  foldl (copyImage createFile) st l
  = {| imageFilenameMap := imageFilenameMap st ++ omap ownEntry l;
       seenFilenames := seenFilenames st ++ omap validFilename l |}.
Proof.
  revert st. induction l as [|m l IH]; intros st Hs Hk.
  - simpl. rewrite !app_nil_r. now destruct st.
  - cbn [foldl]. destruct (validFilename m) as [f|] eqn:Ev.
    + assert (Eo : ownEntry m = Some (id m, f)) by (unfold ownEntry; now rewrite Ev).
      rewrite (omap_cons_Some _ _ _ _ Ev) in Hs |- *.
      rewrite (omap_cons_Some _ _ _ _ Eo) in Hk |- *.
      assert (Hf : f ∉ seenFilenames st).
      { apply NoDup_app in Hs as (_ & Hs & _). intros H. apply (Hs f H). left. }
      assert (Hid : id m ∉ fst <$> imageFilenameMap st).
      { apply NoDup_app in Hk as (_ & Hk & _). intros H. apply (Hk (id m) H).
        rewrite fmap_cons. left. }
      assert (Ec : copyImage createFile st m
                   = {| imageFilenameMap := imageFilenameMap st ++ [(id m, f)];
                        seenFilenames := seenFilenames st ++ [f] |}).
      { unfold copyImage. rewrite Ev, (uniqueFilename_unseen _ _ _ _ Hf), created.
        now rewrite (mapSet_new _ _ _ Hid). }
      rewrite Ec, IH; cbn [imageFilenameMap seenFilenames].
      * now rewrite <- !app_assoc.
      * now rewrite <- app_assoc.
      * rewrite fmap_app, <- app_assoc. exact Hk.
    + assert (Eo : ownEntry m = None) by (unfold ownEntry; now rewrite Ev).
      rewrite (omap_cons_None _ _ _ Ev) in Hs |- *.
      rewrite (omap_cons_None _ _ _ Eo) in Hk |- *.
      assert (Ec : copyImage createFile st m = st) by (unfold copyImage; now rewrite Ev).
      rewrite Ec. now apply IH.
Qed.

(** X22: when the Drive creates every file and the valid images have pairwise
    distinct file names and identifiers, no name gets a counter: every
    image is copied under its own file name and the map sends its
    identifier to that name. *)
Theorem distinct_names_kept (allImages : list ImageMeta) :
  NoDup (omap validFilename allImages) ->
  NoDup (fst <$> omap ownEntry allImages) ->
  QTI_processAndCopyImages createFile allImages
  = {| imageFilenameMap := omap ownEntry allImages;
       seenFilenames := omap validFilename allImages |}.
Proof.
  intros Hs Hk. unfold QTI_processAndCopyImages.
  now rewrite foldl_copyImage_distinct.
Qed.

End KeptNames.

Lemma distinct_names_kept_witness :
  seenFilenames (QTI_processAndCopyImages (fun _ _ => true) [figure; secondFigure])
  = ["q1_elem0_img0000_05.png"; "q1_elem1_img0000_06.png"].
Proof.
  rewrite (distinct_names_kept (fun _ _ => true) (fun _ _ => eq_refl) [figure; secondFigure]).
  - reflexivity.
  - apply (bool_decide_unpack _). vm_compute. exact I.
  - apply (bool_decide_unpack _). vm_compute. exact I.
Defined.

(** two images with one file name: the second gets a counter, and a third
    a counter after the counter *)
Example same_name_gets_counter :
  seenFilenames (QTI_processAndCopyImages (fun _ _ => true) [figure; figure; figure])
  = ["q1_elem0_img0000_05.png"; "q1_elem0_img0000_05_1.png"; "q1_elem0_img0000_05_1_2.png"].
Proof. reflexivity. Qed.

(** ** The type of a parsed question *)

(** *** Matches in a text that is continued *)

Lemma last_is_app (p : ascii -> bool) (s : string) (c : ascii) (r : string) :
  Str.last_is p (s +:+ String c r) = Str.last_is p (String c r).
Proof.
  induction s as [|a s IH]; [reflexivity|].
  rewrite append_cons, last_is_cons, is_empty_app. exact IH.
Qed.

Lemma wordKept_tail (c : ascii) (s u : string) : wordKept (String c s) u -> wordKept s u.
Proof.
  intros [H|H]; [|now right]. destruct s as [|a s]; [now left|].
  left. now rewrite last_is_cons in H.
Qed.

Lemma wordKept_rest (w r u : string) : wordKept (w +:+ r) u -> wordKept r u.
Proof.
  induction w as [|c w IH]; [auto|]. rewrite append_cons. intros H.
  apply wordKept_tail in H. now apply IH.
Qed.

Lemma strip_prefix_Some (w s r : string) : Str.strip_prefix w s = Some r -> s = w +:+ r.
Proof.
  revert s. induction w as [|a w IH]; intros s H.
  - destruct s; simpl in H; now inversion H.
  - destruct s as [|c s]; [discriminate|]. rewrite strip_prefix_cons in H.
    destruct (Char.is_char a c) eqn:E; [|discriminate].
    apply is_char_true in E. subst c. rewrite append_cons. f_equal. now apply IH.
Qed.

Lemma strip_prefix_more (w s r u : string) :
  Str.strip_prefix w s = Some r -> Str.strip_prefix w (s +:+ u) = Some (r +:+ u).
Proof.
  intros H. apply strip_prefix_Some in H. subst s. rewrite append_assoc.
  apply strip_prefix_app.
Qed.

Lemma starts_with_more (w s u : string) :
  Str.starts_with w s = true -> Str.starts_with w (s +:+ u) = true.
Proof.
  unfold Str.starts_with. destruct (Str.strip_prefix w s) as [r|] eqn:E; [|discriminate].
  now rewrite (strip_prefix_more _ _ _ u E).
Qed.

Lemma includes_more (w s u : string) :
  Str.includes w s = true -> Str.includes w (s +:+ u) = true.
Proof.
  induction s as [|c s IH].
  - simpl. rewrite orb_false_r. intros H. apply (starts_with_more _ _ u) in H.
    rewrite append_empty_l in *. destruct u; simpl; now rewrite H.
  - rewrite append_cons, !includes_cons. intros H.
    apply orb_true_iff in H as [H|H]; apply orb_true_iff.
    + left. apply (starts_with_more _ _ u) in H. now rewrite append_cons in H.
    + right. now apply IH.
Qed.

Lemma includes_after (w a s : string) :
  Str.includes w s = true -> Str.includes w (a +:+ s) = true.
Proof.
  intros H. induction a as [|c a IH]; [exact H|].
  rewrite append_cons, includes_cons, IH. apply orb_true_r.
Qed.

Lemma any_lasting : lastingRest Re.any.
Proof. intros s u _ _. reflexivity. Qed.

Lemma boundary_more (pw : bool) (c : ascii) (s u : string) :
  Re.boundary pw (String c s +:+ u) = Re.boundary pw (String c s).
Proof. reflexivity. Qed.

Lemma word_here_lasting (a : ascii) (w : string) (k : string -> bool) :
  lastingRest k -> lasting (Re.word_here (String a w) k).
Proof.
  intros Hk pw s u Hu H. unfold Re.word_here in *.
  apply andb_true_iff in H as [Hb H].
  destruct (Str.strip_prefix (String a w) s) as [r|] eqn:E; [|discriminate].
  apply andb_true_iff in H as [Hr Hkr].
  pose proof (strip_prefix_Some _ _ _ E) as Es.
  rewrite (strip_prefix_more _ _ _ u E).
  assert (Hb' : Re.boundary pw (s +:+ u) = true).
  { destruct s as [|c s]; [discriminate Es | exact Hb]. }
  rewrite Hb'. cbn [andb]. apply andb_true_iff. split.
  - destruct r as [|d r]; [|exact Hr].
    rewrite append_empty_l. rewrite append_empty_r in Es. subst s.
    unfold Re.boundary in *. cbn [Str.first_is] in Hr. rewrite xorb_false_r in Hr.
    rewrite Hr. destruct Hu as [Hu|Hu]; [congruence | now rewrite Hu].
  - apply Hk; [|exact Hkr]. rewrite Es in Hu. now apply wordKept_rest in Hu.
Qed.

Lemma search_from_start (M : bool -> string -> bool) (pw : bool) (s : string) :
  M pw s = true -> Re.search_from M pw s = true.
Proof. intros H. destruct s; simpl; now rewrite H. Qed.

Lemma search_lasting (M : bool -> string -> bool) :
  lasting M -> lasting (Re.search_from M).
Proof.
  intros HM pw s. revert pw. induction s as [|c s IH]; intros pw u Hu H.
  - simpl in H. rewrite orb_false_r in H. apply search_from_start.
    now apply (HM pw "" u).
  - rewrite append_cons, search_from_cons. rewrite search_from_cons in H.
    apply orb_true_iff in H as [H|H]; apply orb_true_iff.
    + left. rewrite <- append_cons. now apply HM.
    + right. apply IH; [|exact H]. now apply wordKept_tail in Hu.
Qed.

Lemma on_line_start (M : bool -> string -> bool) (pw : bool) (s : string) :
  M pw s = true -> Re.on_line M pw s = true.
Proof. intros H. destruct s; simpl; now rewrite H. Qed.

Lemma on_line_lasting (M : bool -> string -> bool) :
  lasting M -> lasting (Re.on_line M).
Proof.
  intros HM pw s. revert pw. induction s as [|c s IH]; intros pw u Hu H.
  - simpl in H. rewrite orb_false_r in H. apply on_line_start.
    now apply (HM pw "" u).
  - rewrite append_cons, on_line_cons. rewrite on_line_cons in H.
    apply orb_true_iff in H as [H|H]; apply orb_true_iff.
    + left. rewrite <- append_cons. now apply HM.
    + right. destruct (Char.is_line_terminator c); [discriminate|].
      apply IH; [|exact H]. now apply wordKept_tail in Hu.
Qed.

Lemma has_word_more (a : ascii) (w s u : string) :
  wordKept s u -> has_word (String a w) s = true -> has_word (String a w) (s +:+ u) = true.
Proof.
  intros Hu. unfold has_word, Re.search.
  apply search_lasting; [|exact Hu]. apply word_here_lasting, any_lasting.
Qed.

Lemma re_true_false_more (s u : string) :
  wordKept s u -> re_true_false s = true -> re_true_false (s +:+ u) = true.
Proof.
  intros Hu. unfold re_true_false, Re.search.
  apply search_lasting; [|exact Hu]. apply word_here_lasting.
  intros r v Hv. apply on_line_lasting; [|exact Hv].
  apply word_here_lasting, any_lasting.
Qed.

Lemma drop_while_more (p : ascii -> bool) (s u : string) :
  Str.is_empty (Str.drop_while p s) = false ->
  Str.drop_while p (s +:+ u) = Str.drop_while p s +:+ u.
Proof.
  induction s as [|c s IH]; [discriminate|]. rewrite append_cons. simpl.
  destruct (p c); [exact IH | now rewrite append_cons].
Qed.

Lemma strip_prefix_ci_more (w s r u : string) :
  Str.strip_prefix_ci w s = Some r -> Str.strip_prefix_ci w (s +:+ u) = Some (r +:+ u).
Proof.
  revert s. induction w as [|a w IH]; intros s H.
  - destruct s; simpl in *; inversion H; subst; [now destruct u | reflexivity].
  - destruct s as [|c s]; [discriminate|].
    rewrite append_cons, strip_prefix_ci_cons. rewrite strip_prefix_ci_cons in H.
    destruct (Char.is_char a (Char.toUpper c)); [now apply IH | discriminate].
Qed.

Lemma re_match_start_more (s u : string) :
  re_match_start s = true -> re_match_start (s +:+ u) = true.
Proof.
  unfold re_match_start, Re.ws, Str.trimStart. intros H.
  destruct (Str.strip_prefix_ci "MATCH" (Str.drop_while Char.is_space s)) as [r|] eqn:E;
    [|discriminate].
  rewrite drop_while_more by (destruct (Str.drop_while Char.is_space s); [discriminate | reflexivity]).
  rewrite (strip_prefix_ci_more _ _ _ u E).
  destruct r as [|c r]; [discriminate | exact H].
Qed.

Lemma toUpperCase_app (s u : string) :
  Str.toUpperCase (s +:+ u) = Str.toUpperCase s +:+ Str.toUpperCase u.
Proof.
  unfold Str.toUpperCase. induction s as [|c s IH]; [reflexivity|].
  rewrite append_cons. simpl. now rewrite IH, append_cons.
Qed.

Lemma is_word_toUpper (c : ascii) : Char.is_word (Char.toUpper c) = Char.is_word c.
Proof. destruct c as [[] [] [] [] [] [] [] []]; reflexivity. Qed.

Lemma first_is_word_toUpperCase (s : string) :
  Str.first_is Char.is_word (Str.toUpperCase s) = Str.first_is Char.is_word s.
Proof. destruct s as [|c s]; [reflexivity|]. simpl. apply is_word_toUpper. Qed.

Lemma last_is_word_toUpperCase (s : string) :
  Str.last_is Char.is_word (Str.toUpperCase s) = Str.last_is Char.is_word s.
Proof.
  unfold Str.toUpperCase. induction s as [|c s IH]; [reflexivity|].
  simpl Str.map. rewrite !last_is_cons, IH, is_word_toUpper. now destruct s.
Qed.

Lemma wordKept_toUpperCase (s u : string) :
  wordKept s u -> wordKept (Str.toUpperCase s) (Str.toUpperCase u).
Proof.
  unfold wordKept. now rewrite last_is_word_toUpperCase, first_is_word_toUpperCase.
Qed.

(** a stem that matches no keyword rule continues a first line that
    matched none *)
Lemma noKeyword_start (start t : string) :
  continues start t -> noKeyword t -> noKeyword start.
Proof.
  intros (u & -> & Hu) (H1 & H2 & H3 & H4 & H5 & H6 & H7 & H8).
  cbv zeta in *. rewrite toUpperCase_app in *.
  pose proof (wordKept_toUpperCase _ _ Hu) as HU.
  repeat split.
  - destruct (re_true_false (Str.toUpperCase start)) eqn:E; [|reflexivity].
    now rewrite (re_true_false_more _ _ HU E) in H1.
  - destruct (Str.includes "TRUE/FALSE" (Str.toUpperCase start)) eqn:E; [|reflexivity].
    now rewrite (includes_more _ _ _ E) in H2.
  - destruct (has_word "MATCHING" (Str.toUpperCase start)) eqn:E; [|reflexivity].
    now rewrite (has_word_more _ _ _ _ HU E) in H3.
  - destruct (re_match_start start) eqn:E; [|reflexivity].
    now rewrite (re_match_start_more _ _ E) in H4.
  - destruct (has_word "ORDERING" (Str.toUpperCase start)) eqn:E; [|reflexivity].
    now rewrite (has_word_more _ _ _ _ HU E) in H5.
  - destruct (has_word "ORDER" (Str.toUpperCase start)) eqn:E; [|reflexivity].
    now rewrite (has_word_more _ _ _ _ HU E) in H6.
  - destruct (has_word "SEQUENCE" (Str.toUpperCase start)) eqn:E; [|reflexivity].
    now rewrite (has_word_more _ _ _ _ HU E) in H7.
  - destruct (Str.includes "___" start) eqn:E; [|reflexivity].
    now rewrite (includes_more _ _ _ E) in H8.
Qed.

(** *** The drafts of the loop *)

Lemma space_not_word (c : ascii) : Char.is_space c = true -> Char.is_word c = false.
Proof. destruct c as [[] [] [] [] [] [] [] []]; vm_compute; congruence. Qed.

Lemma punctuation_not_word (c : ascii) :
  is_closing_punctuation c = true -> Char.is_word c = false.
Proof. destruct c as [[] [] [] [] [] [] [] []]; vm_compute; congruence. Qed.

Lemma last_is_weaken (p q : ascii -> bool) (s : string) :
  (forall c, p c = true -> q c = false) -> Str.last_is p s = true -> Str.last_is q s = false.
Proof.
  intros Hpq. induction s as [|c s IH]; [discriminate|]. rewrite !last_is_cons.
  destruct (Str.is_empty s); [apply Hpq | exact IH].
Qed.

Lemma continues_append (start : string) (q : Question) (elementText : string) :
  continues start (text q) -> continues start (text (append_text q elementText)).
Proof.
  intros (u & Et & Hu). unfold append_text. cbn [text].
  exists (u +:+ (if negb (Str.is_empty (text q)) && negb (Str.last_is Char.is_space (text q))
                    && negb (Str.first_is is_closing_punctuation elementText)
                 then " " else "") +:+ elementText).
  split; [rewrite Et; now rewrite append_assoc|].
  destruct u as [|c u].
  - rewrite append_empty_r in Et. rewrite Et. rewrite append_empty_l.
    destruct (Str.last_is Char.is_word start) eqn:Ew; [right | now left].
    destruct start as [|a start]; [discriminate|]. cbn [Str.is_empty negb andb].
    destruct (Str.last_is Char.is_space (String a start)) eqn:Es.
    { apply (last_is_weaken _ Char.is_word) in Es; [congruence | apply space_not_word]. }
    cbn [negb andb].
    destruct elementText as [|e r]; [now destruct (negb _)|].
    cbn [Str.first_is]. destruct (is_closing_punctuation e) eqn:Ep; cbn [negb].
    + rewrite append_empty_l. cbn [Str.first_is]. now apply punctuation_not_word.
    + reflexivity.
  - destruct Hu as [Hu|Hu]; [now left | right]. rewrite !append_cons. exact Hu.
Qed.

Lemma single_letter_not_T_and_F (o : Opt) :
  includes_letter "T" (letters_of [o]) && includes_letter "F" (letters_of [o]) = false.
Proof.
  unfold includes_letter, letters_of. cbn [fmap list_fmap].
  destruct (bool_decide ("T" ∈ [letter o])) eqn:ET; [|reflexivity].
  apply bool_decide_eq_true in ET. apply list_elem_of_singleton in ET.
  apply bool_decide_eq_false. intros EF. apply list_elem_of_singleton in EF. congruence.
Qed.

Lemma keeps_typeFrom (t0 : QuestionType) (o : Opt) (opts : list Opt) :
  keeps_type (typeFrom t0 (o :: opts)) = true.
Proof. unfold typeFrom. now destruct t0. Qed.

Lemma typedFromStart_add_option (q : Question) (l : ascii) (rest : string)
    (acc : list ImageMeta) :
  typedFromStart q -> typedFromStart (add_option q l rest acc).
Proof.
  intros (start & Hc & Ht). exists start. split; [exact Hc|].
  unfold add_option. cbn [type options]. rewrite Ht.
  destruct (options q) as [|o opts] eqn:Eo.
  - cbn [typeFrom app]. destruct (keeps_type (inferQuestionType start [])); [reflexivity|].
    now rewrite single_letter_not_T_and_F.
  - rewrite keeps_typeFrom. reflexivity.
Qed.

Lemma parsed_typedFromStart (uuid : nat -> N) (body : Body) :
  Forall typedFromStart (p_questions (parseQuestions uuid body)).
Proof.
  apply parsed_drafts.
  - intros q acc H. exact H.
  - intros q s l rest acc _ H. now apply typedFromStart_add_option.
  - intros q t (start & Hc & Ht). exists start. split; [|exact Ht].
    now apply continues_append.
  - intros b q H. exact H.
  - intros n t b. exists t. split; [|reflexivity].
    exists "". split; [now rewrite append_empty_r | now right].
Qed.

(** C3, as the specification states it, fails: in a document whose first
    question has a stem without keywords and the single option A, the
    parser gives the question the type MULTIPLE_CHOICE_SINGLE, not
    SHORT_ANSWER. *)
Lemma single_option_question_type :
  exists q, p_questions (parseQuestions no_uuid oneOptionDoc) = [q]
            /\ noKeyword (text q) /\ letters_of (options q) = ["A"]
            /\ type q = MULTIPLE_CHOICE_SINGLE /\ type q <> SHORT_ANSWER.
Proof.
  exists {| number := 1; type := MULTIPLE_CHOICE_SINGLE; text := "Capital of France?";
            options := [plainOpt "A" "Paris"]; images := []; hasImages := false |}.
  split; [vm_compute; reflexivity|]. cbn [text type options].
  split; [unfold noKeyword; repeat split; vm_compute; reflexivity|].
  repeat split. discriminate.
Qed.

(** C3, amended: a question that the parser returns and whose stem matches
    none of the keyword rules is of type SHORT_ANSWER exactly when it has no
    option, and of type MULTIPLE_CHOICE_SINGLE when it has at least one
    option and its option letters do not include both T and F. *)
Theorem parsed_type_structural (uuid : nat -> N) (body : Body) (q : Question) :
  q ∈ p_questions (parseQuestions uuid body) -> noKeyword (text q) ->
  (type q = SHORT_ANSWER <-> options q = [])
  /\ (options q <> [] -> ~ (hasLetter "T" (options q) /\ hasLetter "F" (options q)) ->
      type q = MULTIPLE_CHOICE_SINGLE).
Proof.
  intros Hq Hk.
  pose proof (parsed_typedFromStart uuid body) as H. rewrite Forall_forall in H.
  destruct (H q Hq) as (start & Hc & Ht).
  pose proof (noKeyword_start _ _ Hc Hk) as Hs.
  destruct (inferQuestionType_structural start [] Hs) as (_ & _ & Hsa).
  rewrite (proj2 Hsa eq_refl) in Ht. rewrite Ht.
  destruct (options q) as [|o opts]; cbn [typeFrom keeps_type].
  - split; [tauto | intros Hn; now exfalso].
  - split; [split; discriminate | reflexivity].
Qed.

Lemma parsed_type_structural_witness :
  exists q, q ∈ p_questions (parseQuestions no_uuid scenarioA) /\ noKeyword (text q)
            /\ options q <> [] /\ type q = MULTIPLE_CHOICE_SINGLE.
Proof.
  exists (question entryA).
  assert (Hq : question entryA ∈ p_questions (parseQuestions no_uuid scenarioA)).
  { change (question entryA ∈ [question entryA]). left. }
  assert (Hk : noKeyword (text (question entryA))).
  { unfold noKeyword. repeat split; reflexivity. }
  split; [exact Hq|]. split; [exact Hk|]. split; [discriminate|].
  apply (parsed_type_structural no_uuid scenarioA (question entryA) Hq Hk).
  - discriminate.
  - intros [HT _]. unfold hasLetter in HT. vm_compute in HT.
    apply list_elem_of_In in HT. simpl in HT. destruct HT as [HT|[HT|[]]]; discriminate.
Defined.

(** ** Freshly minted identifiers *)

(** *** Identifiers in texts *)

Lemma starts_with_empty (s : string) : Str.starts_with "" s = true.
Proof. now destruct s. Qed.

Lemma starts_with_other (f : string) (c : ascii) (s : string) :
  allid f = true -> Str.is_empty f = false -> idchar c = false ->
  Str.starts_with f (String c s) = false.
Proof.
  destruct f as [|a f]; [discriminate|]. simpl. intros Ha _ Hc.
  apply andb_true_iff in Ha as [Ha _]. rewrite starts_with_cons.
  destruct (Char.is_char a c) eqn:E; [|reflexivity].
  apply is_char_true in E. congruence.
Qed.

(** an identifier read across the place where two texts meet ends the
    first text and begins the second *)
Lemma starts_with_junction (f x y : string) :
  allid f = true -> Str.starts_with f (x +:+ y) = true ->
  Str.starts_with f x = true
  \/ (Str.is_empty x || Str.last_is idchar x = true) /\ Str.first_is idchar y = true.
Proof.
  revert x. induction f as [|a f IH]; intros x Hf H.
  - left. apply starts_with_empty.
  - simpl in Hf. apply andb_true_iff in Hf as [Ha Hf].
    destruct x as [|c x].
    + right. split; [reflexivity|]. rewrite append_empty_l in H.
      destruct y as [|d y]; [discriminate|]. rewrite starts_with_cons in H.
      apply andb_true_iff in H as [E _]. apply is_char_true in E. now subst d.
    + rewrite append_cons, starts_with_cons in H. apply andb_true_iff in H as [E H].
      rewrite starts_with_cons, E. cbn [andb].
      destruct (IH x Hf H) as [H1|[H1 H2]]; [now left | right].
      split; [|exact H2]. cbn [Str.is_empty orb]. rewrite last_is_cons.
      apply is_char_true in E. subst c.
      destruct (Str.is_empty x); [exact Ha | exact H1].
Qed.

Lemma includes_junction (f x y : string) :
  allid f = true ->
  Str.last_is idchar x = false \/ Str.first_is idchar y = false ->
  Str.includes f x = false -> Str.includes f y = false ->
  Str.includes f (x +:+ y) = false.
Proof.
  intros Hf. induction x as [|c x IH]; intros Hc Hx Hy; [exact Hy|].
  rewrite includes_cons in Hx. apply orb_false_iff in Hx as [Hs Hx].
  rewrite append_cons, includes_cons. apply orb_false_iff. split.
  - destruct (Str.starts_with f (String c (x +:+ y))) eqn:E; [|reflexivity].
    rewrite <- append_cons in E.
    destruct (starts_with_junction _ _ _ Hf E) as [H|[H1 H2]]; [congruence|].
    cbn [Str.is_empty orb] in H1. destruct Hc; congruence.
  - apply IH; [|exact Hx | exact Hy].
    destruct Hc as [Hc|Hc]; [|now right]. left.
    rewrite last_is_cons in Hc. destruct x; [reflexivity | exact Hc].
Qed.

Lemma includes_short (f s : string) :
  String.length s < String.length f -> Str.includes f s = false.
Proof.
  intros Hl. induction s as [|c s IH].
  - destruct f; [simpl in Hl; lia | reflexivity].
  - rewrite includes_cons. apply orb_false_iff. split; [|apply IH; simpl in Hl; lia].
    destruct (Str.starts_with f (String c s)) eqn:E; [|reflexivity].
    unfold Str.starts_with in E.
    destruct (Str.strip_prefix f (String c s)) as [r|] eqn:Er; [|discriminate].
    apply strip_prefix_Some in Er. apply (f_equal String.length) in Er.
    rewrite string_length_app in Er. lia.
Qed.

Lemma includes_same_length (f a : string) :
  String.length f = String.length a -> f <> a -> Str.includes f a = false.
Proof.
  intros Hl Hne. destruct a as [|c a].
  - destruct f; [now elim Hne | reflexivity].
  - rewrite includes_cons. apply orb_false_iff. split.
    + destruct (Str.starts_with f (String c a)) eqn:E; [|reflexivity].
      unfold Str.starts_with in E.
      destruct (Str.strip_prefix f (String c a)) as [r|] eqn:Er; [|discriminate].
      apply strip_prefix_Some in Er. pose proof (f_equal String.length Er) as El.
      rewrite string_length_app in El.
      destruct r as [|x r]; [rewrite append_empty_r in Er; congruence|].
      change (String.length (String x r)) with (S (String.length r)) in El. lia.
    + apply includes_short. simpl in Hl. lia.
Qed.

Lemma includes_before (f x y : string) :
  Str.includes f (x +:+ y) = false -> Str.includes f x = false.
Proof.
  intros H. destruct (Str.includes f x) eqn:E; [|reflexivity].
  now rewrite (includes_more _ _ y E) in H.
Qed.

Lemma includes_behind (f x y : string) :
  Str.includes f (x +:+ y) = false -> Str.includes f y = false.
Proof.
  intros H. destruct (Str.includes f y) eqn:E; [|reflexivity].
  now rewrite (includes_after _ x _ E) in H.
Qed.

(** a token put into a text brings no identifier but its own *)
Lemma includes_token_between (f a x y : string) :
  allid f = true -> String.length f = String.length a -> f <> a ->
  Str.includes f (x +:+ y) = false ->
  Str.includes f (x +:+ placeholder a +:+ y) = false.
Proof.
  intros Hf Hl Hne H.
  assert (Hn : Str.is_empty f = false).
  { destruct f; [|reflexivity]. destruct a; [congruence | discriminate]. }
  apply includes_junction; [exact Hf | now right | now apply includes_before in H |].
  unfold placeholder. rewrite !append_assoc.
  apply (includes_junction f "[IMG:"); [exact Hf | now left | |].
  { destruct f as [|c f]; [discriminate|]. simpl in Hf.
    apply andb_true_iff in Hf as [Hc _].
    cbv [Str.includes]. rewrite !starts_with_cons, starts_with_nil.
    destruct c as [[] [] [] [] [] [] [] []]; try discriminate Hc; reflexivity. }
  apply includes_junction; [exact Hf | now right | now apply includes_same_length |].
  rewrite append_cons, append_empty_l, includes_cons.
  rewrite (starts_with_other f) by auto. now apply includes_behind in H.
Qed.

Lemma lacksIds_within (uuid : nat -> N) (n : nat) (x s : string) :
  within x s -> lacksIds uuid n s -> lacksIds uuid n x.
Proof.
  intros (a & b & ->) H k Hk. specialize (H k Hk).
  apply includes_behind in H. now apply includes_before in H.
Qed.

(** *** Parts of a text *)

Lemma within_refl (s : string) : within s s.
Proof. exists "", "". now rewrite append_empty_r. Qed.

Lemma within_trans (x y z : string) : within x y -> within y z -> within x z.
Proof.
  intros (a & b & ->) (c & d & ->). exists (c +:+ a), (b +:+ d).
  now rewrite !append_assoc.
Qed.

Lemma within_suffix (a x : string) : within x (a +:+ x).
Proof. exists a, "". now rewrite append_empty_r. Qed.

Lemma within_prefix (x b : string) : within x (x +:+ b).
Proof. now exists "", b. Qed.

Lemma take_drop_while (p : ascii -> bool) (s : string) :
  s = Str.take_while p s +:+ Str.drop_while p s.
Proof.
  induction s as [|c s IH]; [reflexivity|]. simpl.
  destruct (p c); [now rewrite append_cons, <- IH | reflexivity].
Qed.

Lemma within_drop_while (p : ascii -> bool) (s : string) : within (Str.drop_while p s) s.
Proof. rewrite (take_drop_while p s) at 2. apply within_suffix. Qed.

Lemma within_take_while (p : ascii -> bool) (s : string) : within (Str.take_while p s) s.
Proof. rewrite (take_drop_while p s) at 2. apply within_prefix. Qed.

Lemma trimEnd_prefix (s : string) : exists b, s = Str.trimEnd s +:+ b.
Proof.
  induction s as [|c s [b IH]]; [now exists ""|]. simpl.
  destruct (Char.is_space c && Str.is_empty (Str.trimEnd s)).
  - now exists (String c s).
  - exists b. rewrite append_cons. now f_equal.
Qed.

Lemma within_trimEnd (s : string) : within (Str.trimEnd s) s.
Proof. destruct (trimEnd_prefix s) as [b H]. rewrite H at 2. apply within_prefix. Qed.

Lemma within_trim (s : string) : within (Str.trim s) s.
Proof.
  unfold Str.trim, Str.trimStart.
  eapply within_trans; [apply within_trimEnd | apply within_drop_while].
Qed.

Lemma within_one (p : ascii -> bool) (s : string) (c : ascii) (r : string) :
  Re.one p s = Some (c, r) -> within r s.
Proof.
  destruct s as [|a s]; [discriminate|]. simpl. destruct (p a); [|discriminate].
  intros [= <- <-]. apply (within_suffix (String a "")).
Qed.

Lemma within_ws1 (s r : string) : Re.ws1 s = Some r -> within r s.
Proof.
  unfold Re.ws1. destruct (Str.first_is Char.is_space s); [|discriminate].
  intros [= <-]. apply within_drop_while.
Qed.

Lemma within_many1 (p : ascii -> bool) (s d r : string) :
  Re.many1 p s = Some (d, r) -> within r s.
Proof.
  unfold Re.many1. destruct (Str.first_is p s); [|discriminate].
  intros [= <- <-]. apply within_drop_while.
Qed.

Lemma within_ws (s : string) : within (Re.ws s) s.
Proof. apply within_drop_while. Qed.

Lemma within_rest_of_line (s : string) : within (Re.rest_of_line s) s.
Proof. apply within_take_while. Qed.

Lemma within_questionStart (s digits rest : string) :
  questionStartMatch s = Some (digits, rest) -> within rest s.
Proof.
  unfold questionStartMatch. intros H.
  destruct (Re.many1 Char.is_digit (Re.ws s)) as [[d r]|] eqn:E1; [|discriminate].
  cbn [mbind option_bind] in H.
  destruct (Re.one is_question_mark (Re.ws r)) as [[c r1]|] eqn:E2; [|discriminate].
  cbn [mbind option_bind] in H.
  destruct (Re.ws1 r1) as [r2|] eqn:E3; [|discriminate].
  cbn [mbind option_bind] in H. injection H as _ <-.
  eapply within_trans; [apply within_rest_of_line|].
  eapply within_trans; [apply (within_ws1 _ _ E3)|].
  eapply within_trans; [apply (within_one _ _ _ _ E2)|].
  eapply within_trans; [apply within_ws|].
  eapply within_trans; [apply (within_many1 _ _ _ _ E1)|].
  apply within_ws.
Qed.

Lemma within_option (s : string) (l : ascii) (rest : string) :
  optionMatch s = Some (l, rest) -> within rest s.
Proof.
  unfold optionMatch. intros H.
  assert (Hm : forall l r,
    match Re.one Char.is_alpha (Re.ws s) with
    | Some (l, r) => '(_, r) ← Re.one is_option_mark (Re.ws r); Some (l, r)
    | None =>
        '(_, r) ← Re.one (Char.is_char "(") (Re.ws s);
        '(l, r) ← Re.one Char.is_alpha (Re.ws r);
        '(_, r) ← Re.one (Char.is_char ")") (Re.ws r);
        Some (l, r)
    end = Some (l, r) -> within r s).
  { clear H. intros l0 r0 H.
    destruct (Re.one Char.is_alpha (Re.ws s)) as [[l1 r1]|] eqn:E1.
    - destruct (Re.one is_option_mark (Re.ws r1)) as [[c r2]|] eqn:E2; [|discriminate].
      cbn [mbind option_bind] in H. injection H as _ <-.
      eapply within_trans; [apply (within_one _ _ _ _ E2)|].
      eapply within_trans; [apply within_ws|].
      eapply within_trans; [apply (within_one _ _ _ _ E1)|]. apply within_ws.
    - destruct (Re.one (Char.is_char "(") (Re.ws s)) as [[c r1]|] eqn:E2; [|discriminate].
      cbn [mbind option_bind] in H.
      destruct (Re.one Char.is_alpha (Re.ws r1)) as [[l2 r2]|] eqn:E3; [|discriminate].
      cbn [mbind option_bind] in H.
      destruct (Re.one (Char.is_char ")") (Re.ws r2)) as [[d r3]|] eqn:E4; [|discriminate].
      cbn [mbind option_bind] in H. injection H as _ <-.
      eapply within_trans; [apply (within_one _ _ _ _ E4)|].
      eapply within_trans; [apply within_ws|].
      eapply within_trans; [apply (within_one _ _ _ _ E3)|].
      eapply within_trans; [apply within_ws|].
      eapply within_trans; [apply (within_one _ _ _ _ E2)|]. apply within_ws. }
  cbv zeta in H.
  destruct (match Re.one Char.is_alpha (Re.ws s) with
            | Some (l, r) => '(_, r) ← Re.one is_option_mark (Re.ws r); Some (l, r)
            | None =>
                '(_, r) ← Re.one (Char.is_char "(") (Re.ws s);
                '(l, r) ← Re.one Char.is_alpha (Re.ws r);
                '(_, r) ← Re.one (Char.is_char ")") (Re.ws r);
                Some (l, r)
            end) as [[l1 r1]|] eqn:E; [|discriminate].
  cbn [mbind option_bind] in H.
  destruct (Re.ws1 r1) as [r2|] eqn:E3; [|discriminate].
  cbn [mbind option_bind] in H. injection H as _ <-.
  eapply within_trans; [apply within_rest_of_line|].
  eapply within_trans; [apply (within_ws1 _ _ E3)|].
  now apply (Hm l1 r1).
Qed.

(** *** The texts of one run *)

Lemma space_not_id (c : ascii) : Char.is_space c = true -> idchar c = false.
Proof. destruct c as [[] [] [] [] [] [] [] []]; vm_compute; congruence. Qed.

Lemma punctuation_not_id (c : ascii) : is_closing_punctuation c = true -> idchar c = false.
Proof. destruct c as [[] [] [] [] [] [] [] []]; vm_compute; congruence. Qed.

Lemma uuid_string_nonempty (v : N) : Str.is_empty (uuid_string v) = false.
Proof.
  destruct (uuid_string_id v) as [_ Hl]. destruct (uuid_string v); [discriminate|reflexivity].
Qed.

Lemma lacksIds_empty (uuid : nat -> N) (n : nat) : lacksIds uuid n "".
Proof.
  intros k _. apply includes_short. destruct (uuid_string_id (uuid k)) as [_ ->]. simpl. lia.
Qed.

Lemma lacksIds_append_text (uuid : nat -> N) (n : nat) (q : Question) (t : string) :
  lacksIds uuid n (text q) -> lacksIds uuid n t -> lacksIds uuid n (text (append_text q t)).
Proof.
  intros Hq Ht k Hk. unfold append_text. cbn [text].
  destruct (uuid_string_id (uuid k)) as [Hid _].
  pose proof (uuid_string_nonempty (uuid k)) as Hne.
  specialize (Hq k Hk). specialize (Ht k Hk).
  destruct (Str.is_empty (text q)) eqn:Ee.
  { destruct (text q); [|discriminate]. cbn [negb andb]. now rewrite !append_empty_l. }
  cbn [negb andb].
  destruct (Str.last_is Char.is_space (text q)) eqn:Es; cbn [negb andb].
  { rewrite append_empty_l. apply includes_junction; [exact Hid | left | exact Hq | exact Ht].
    apply (last_is_weaken _ _ _ space_not_id Es). }
  destruct t as [|c t].
  { cbn [Str.first_is negb]. apply includes_junction; [exact Hid | now right | exact Hq|].
    rewrite append_empty_r. apply includes_short.
    destruct (uuid_string_id (uuid k)) as [_ ->]. simpl. lia. }
  cbn [Str.first_is]. destruct (is_closing_punctuation c) eqn:Ep; cbn [negb].
  - rewrite append_empty_l. apply includes_junction; [exact Hid | right | exact Hq | exact Ht].
    cbn [Str.first_is]. now apply punctuation_not_id.
  - apply includes_junction; [exact Hid | now right | exact Hq|].
    rewrite append_cons, append_empty_l, includes_cons.
    rewrite (starts_with_other _ " ") by auto. exact Ht.
Qed.

(** a property of questions kept by the operations of the loop on blocks
    whose text has the property [B] holds of all the drafts *)
Lemma step_drafts_from (B : string -> Prop) (P : Question -> Prop) :
  (forall q acc, P q -> P (finalize q acc)) ->
  (forall q s l rest acc,
     B s -> optionMatch s = Some (l, rest) -> P q -> P (add_option q l rest acc)) ->
  (forall q t, B t -> P q -> P (append_text q t)) ->
  (forall b q, P q -> P (mark_images b q)) ->
  (forall n s digits rest b,
     B s -> questionStartMatch s = Some (digits, rest) ->
     P {| number := n; type := inferQuestionType (Str.trim rest) []; text := Str.trim rest;
          options := []; images := []; hasImages := b |}) ->
  forall i d st, B (e_text d) -> Forall P (drafts st) -> Forall P (drafts (step i d st)).
Proof.
  intros Hf Ha Ht Hm Hn i d st Hd H. unfold step, drafts in *.
  apply Forall_app in H as [Hq Hc].
  destruct (questionStartMatch (e_text d)) as [[digits rest]|] eqn:Es;
    cbn [questions currentQuestion].
  - apply Forall_app. split; [|repeat constructor; now apply (Hn _ (e_text d) digits)].
    unfold push_finalized. destruct (currentQuestion st) as [q|]; [|exact Hq].
    apply Forall_app. split; [exact Hq|]. repeat constructor. apply Hf.
    now inversion Hc.
  - destruct (currentQuestion st) as [q|]; cbn [questions currentQuestion].
    + assert (Pq : P q) by now inversion Hc.
      destruct (optionMatch (e_text d)) as [[l rest]|] eqn:Eo;
        cbn [questions currentQuestion];
        (apply Forall_app; split; [exact Hq|]); repeat constructor.
      * apply Hm. now apply (Ha q (e_text d)).
      * apply Hm. destruct (Str.is_empty (e_text d)); [exact Pq | now apply Ht].
    + apply Forall_app. split; [exact Hq | constructor].
Qed.

Lemma step_clean (uuid : nat -> N) (n i : nat) (d : ElementData) (st : ParseState) :
  lacksIds uuid n (e_text d) ->
  Forall (cleanQuestion uuid n) (drafts st) ->
  Forall (cleanQuestion uuid n) (drafts (step i d st)).
Proof.
  apply (step_drafts_from (lacksIds uuid n) (cleanQuestion uuid n)).
  - intros q acc H. exact H.
  - intros q s l rest acc Hs Hm [Hq Ho]. split; [exact Hq|].
    unfold add_option. cbn [options]. apply Forall_app. split; [exact Ho|].
    repeat constructor. cbn [o_text].
    apply (lacksIds_within _ _ _ s); [|exact Hs].
    eapply within_trans; [apply within_trim | now apply (within_option _ l)].
  - intros q t Ht [Hq Ho]. split; [now apply lacksIds_append_text | exact Ho].
  - intros b q H. exact H.
  - intros m s digits rest b Hs Hm. split; [|constructor]. cbn [text].
    apply (lacksIds_within _ _ _ s); [|exact Hs].
    eapply within_trans; [apply within_trim | now apply (within_questionStart _ digits)].
Qed.

(** *** The blocks of one run *)

Section OneRun.

Variables own other : nat -> N.

Variable n : nat.

Hypothesis others : forall a b, a < n -> b < n -> uuid_string (own a) <> uuid_string (other b).

Lemma processChildren_lacks (cs : list Child) :
  forall k acc imgs,
    k + countImages cs <= n -> lacksIds other n (acc +:+ typedText cs) ->
    lacksIds other n (processChildren own k cs acc imgs).1.1.
Proof.
  induction cs as [|c cs IH]; intros k acc imgs Hk Ha.
  - simpl in *. now rewrite append_empty_r in Ha.
  - destruct c as [s|image|]; simpl in *.
    + apply IH; [exact Hk|]. now rewrite append_assoc.
    + destruct (getBlob image) as [b|]; apply IH; try lia; try exact Ha.
      rewrite append_assoc. intros m Hm.
      destruct (uuid_strings_anyIds (other m) (own k)) as (H1 & _ & H3).
      apply includes_token_between; auto.
      intros E. apply (others k m); [lia | exact Hm | now symmetry].
    + now apply IH.
Qed.

Lemma processElement_lacks (k : nat) (e : Element) :
  k + mintedBy e <= n -> lacksIds other n (typedText (getChildren e)) ->
  lacksIds other n (e_text (processElement own k e).1).
Proof.
  intros Hk He. unfold processElement, mintedBy in *.
  destruct (getType e).
  - pose proof (processChildren_lacks (getChildren e) k "" [] Hk He) as H.
    destruct (processChildren own k (getChildren e) "" []) as [[t i] m].
    cbn [fst snd e_text] in *. apply (lacksIds_within _ _ _ t); [apply within_trim | exact H].
  - pose proof (processChildren_lacks (getChildren e) k "" [] Hk He) as H.
    destruct (processChildren own k (getChildren e) "" []) as [[t i] m].
    cbn [fst snd e_text] in *. apply (lacksIds_within _ _ _ t); [apply within_trim | exact H].
  - cbn [fst e_text]. apply lacksIds_empty.
Qed.

End OneRun.

(** *** The tokens of two runs *)

Lemma related_starts_with (C : ascii -> bool) (T : string -> string -> Prop) (w : string) :
  lacks "[" w = true ->
  forall s t, related C T s t -> Str.starts_with w s = Str.starts_with w t.
Proof.
  induction w as [|a w IH]; intros Hw s t H.
  - now rewrite !starts_with_empty.
  - simpl in Hw. apply andb_true_iff in Hw as [Ha Hw].
    destruct H as [|c s t Hc H|i j s t Hij H].
    + reflexivity.
    + rewrite !starts_with_cons. now rewrite (IH Hw s t H).
    + rewrite !token_cons, !starts_with_cons. rewrite is_char_sym.
      apply negb_true_iff in Ha. now rewrite Ha.
Qed.

Lemma lacks_bracket_id (i : string) : allid i = true -> lacks "[" (i +:+ "]") = true.
Proof.
  induction i as [|c i IH]; [reflexivity|]. intros H. cbn [allid] in H.
  apply andb_true_iff in H as [Hc Hi]. rewrite append_cons. cbn [lacks].
  rewrite (IH Hi), andb_true_r.
  destruct (idchar_facts c Hc) as (_ & _ & _ & _ & _ & Hb & _).
  rewrite is_char_sym. now rewrite is_char_false.
Qed.

Lemma includes_start (w s : string) : Str.starts_with w s = true -> Str.includes w s = true.
Proof. intros H. destruct s; simpl; now rewrite H. Qed.

(** a token that is read where a typed bracket stands brings its
    identifier into the typed text *)
Lemma starts_with_typed (i s : string) :
  Str.starts_with (placeholder i) (String "[" s) = true -> Str.includes i (String "[" s) = true.
Proof.
  unfold Str.starts_with at 1. intros H.
  destruct (Str.strip_prefix (placeholder i) (String "[" s)) as [r|] eqn:E; [|discriminate].
  apply strip_prefix_Some in E. rewrite E. unfold placeholder.
  rewrite !append_assoc. apply includes_after, includes_start.
  unfold Str.starts_with. now rewrite strip_prefix_app.
Qed.

Section Fresh.

Variables uuid uuid' : nat -> N.

Variable n : nat.

Hypothesis distinct : distinctIds uuid n.

Hypothesis distinct' : distinctIds uuid' n.

Lemma corresponding_ids (i j : string) : corresponding uuid uuid' n i j -> anyIds i j.
Proof. intros (k & _ & -> & ->). apply uuid_strings_anyIds. Qed.

Lemma eqb_corresponding (k m : nat) :
  k < n -> m < n ->
  String.eqb (uuid_string (uuid k)) (uuid_string (uuid m))
  = String.eqb (uuid_string (uuid' k)) (uuid_string (uuid' m)).
Proof.
  intros Hk Hm.
  destruct (String.eqb_spec (uuid_string (uuid k)) (uuid_string (uuid m))) as [E|E];
  destruct (String.eqb_spec (uuid_string (uuid' k)) (uuid_string (uuid' m))) as [E'|E'];
    try reflexivity.
  - apply distinct in E; [|assumption..]. subst m. congruence.
  - apply distinct' in E'; [|assumption..]. subst m. congruence.
Qed.

Lemma token_typed_both (i : string) (c : ascii) (s t : string) :
  allid i = true -> related anyChar (corresponding uuid uuid' n) s t ->
  Str.starts_with (placeholder i) (String c s) = Str.starts_with (placeholder i) (String c t).
Proof.
  intros Hi H.
  change (placeholder i) with (String "[" ("IMG:" +:+ i +:+ "]")).
  rewrite !starts_with_cons. f_equal.
  apply (related_starts_with anyChar (corresponding uuid uuid' n)); [|exact H].
  change ("IMG:" +:+ i +:+ "]")
    with (String "I" (String "M" (String "G" (String ":" (i +:+ "]"))))).
  cbn [lacks]. now rewrite lacks_bracket_id.
Qed.

(** the token of an identifier is not read where the two runs have the
    same typed character, when one of the two texts lacks the identifier *)
Lemma token_not_typed (own : nat -> N) (k : nat) (c : ascii) (s t : string) :
  k < n -> related anyChar (corresponding uuid uuid' n) s t ->
  lacksIds own n (String c s) \/ lacksIds own n (String c t) ->
  Str.starts_with (placeholder (uuid_string (own k))) (String c s) = false
  /\ Str.starts_with (placeholder (uuid_string (own k))) (String c t) = false.
Proof.
  intros Hk H Hl. destruct (uuid_string_id (own k)) as [Hid _].
  pose proof (token_typed_both _ c s t Hid H) as E.
  destruct (Str.starts_with (placeholder (uuid_string (own k))) (String c t)) eqn:Et;
    [exfalso | now split].
  assert (Hc : c = "["%char).
  { change (placeholder (uuid_string (own k)))
      with (String "[" ("IMG:" +:+ uuid_string (own k) +:+ "]")) in Et.
    rewrite starts_with_cons in Et. apply andb_true_iff in Et as [Et _].
    now apply is_char_true in Et. }
  subst c. apply starts_with_typed in E. apply starts_with_typed in Et.
  destruct Hl as [Hl|Hl]; specialize (Hl k Hk); congruence.
Qed.

(** whether the token of an image is found in a text is the same in the
    two runs *)
Lemma includes_linked (k : nat) (s t : string) :
  k < n -> related anyChar (corresponding uuid uuid' n) s t ->
  lacksIds uuid' n s -> lacksIds uuid n t ->
  Str.includes (placeholder (uuid_string (uuid k))) s
  = Str.includes (placeholder (uuid_string (uuid' k))) t.
Proof.
  intros Hk. induction 1 as [|c s t Hc H IH|i j s t (m & Hm & -> & ->) H IH]; intros Hs Ht.
  - reflexivity.
  - rewrite !includes_cons.
    destruct (token_not_typed uuid k c s t Hk H (or_intror Ht)) as [-> _].
    destruct (token_not_typed uuid' k c s t Hk H (or_introl Hs)) as [_ ->].
    cbn [orb]. apply IH.
    + intros x Hx. apply (includes_behind _ (String c "")). exact (Hs x Hx).
    + intros x Hx. apply (includes_behind _ (String c "")). exact (Ht x Hx).
  - destruct (uuid_strings_anyIds (uuid k) (uuid m)) as (H1 & H2 & H3).
    destruct (uuid_strings_anyIds (uuid' k) (uuid' m)) as (H1' & H2' & H3').
    rewrite !includes_token by assumption.
    rewrite (eqb_corresponding k m Hk Hm). f_equal. apply IH.
    + intros x Hx. apply (includes_behind _ (placeholder (uuid_string (uuid m)))).
      exact (Hs x Hx).
    + intros x Hx. apply (includes_behind _ (placeholder (uuid_string (uuid' m)))).
      exact (Ht x Hx).
Qed.

End Fresh.

Section FreshRuns.

Variables uuid uuid' : nat -> N.

Variable n : nat.

Hypothesis distinct : distinctIds uuid n.

Hypothesis distinct' : distinctIds uuid' n.

Let T := corresponding uuid uuid' n.

Let I := sameImage uuid uuid' n.

Local Abbreviation linkedBlock := (linkedBlock uuid uuid' n).

Local Abbreviation imagesState := (imagesState uuid uuid' n).

Lemma linked_ids (i j : string) : T i j -> anyIds i j.
Proof. apply corresponding_ids. Qed.

Lemma linkedBlock_relBlock (d d' : ElementData) :
  linkedBlock d d' -> relBlock anyChar T d d'.
Proof. intros (Ht & Hi & _). split; [exact Ht | now apply Forall2_length in Hi]. Qed.

Lemma filter_images (f f' : ImageMeta -> bool) (l l' : list ImageMeta) :
  (forall m m', I m m' -> f m = f' m') ->
  Forall2 I l l' -> Forall2 I (List.filter f l) (List.filter f' l').
Proof.
  intros Hf. induction 1 as [|m m' l l' Hm _ IH]; simpl; [constructor|].
  rewrite (Hf _ _ Hm). destruct (f' m'); [constructor|]; assumption.
Qed.

Lemma includes_image (m m' : ImageMeta) (s t : string) :
  I m m' -> related anyChar T s t -> lacksIds uuid' n s -> lacksIds uuid n t ->
  Str.includes (placeholder (id m)) s = Str.includes (placeholder (id m')) t.
Proof.
  intros ((k & Hk & -> & ->) & _) H Hs Ht. now apply (includes_linked uuid uuid' n).
Qed.

Lemma linked_images (q q' : Question) (m m' : ImageMeta) :
  relQuestion anyChar T q q' -> cleanQuestion uuid' n q -> cleanQuestion uuid n q' ->
  I m m' -> linked q m = linked q' m'.
Proof.
  intros (_ & _ & Hx & Ho) [Hc Hco] [Hc' Hco'] Hm. unfold linked.
  rewrite (related_empty _ _ _ _ Hx), (includes_image _ _ _ _ Hm Hx Hc Hc'). f_equal.
  induction Ho as [|o o' os os' [_ Hot] _ IH]; simpl; [reflexivity|].
  inversion Hco as [|x l Ho1 Ho2]; subst. inversion Hco' as [|x' l' Ho1' Ho2']; subst.
  now rewrite (IH Ho2 Ho2'), (related_empty _ _ _ _ Hot),
    (includes_image _ _ _ _ Hm Hot Ho1 Ho1').
Qed.

Lemma name_image_same (cur cur' : option Question) (i : nat) (l l' : list ImageMeta) :
  agree (relQuestion anyChar T) cur cur' ->
  Forall2 I l l' -> Forall2 I (name_image cur i <$> l) (name_image cur' i <$> l').
Proof.
  intros Hcur.
  assert (Hn : match cur with Some q => number q | None => 0%N end
               = match cur' with Some q => number q | None => 0%N end).
  { destruct Hcur as [|q q' (Hq & _)]; [reflexivity | exact Hq]. }
  induction 1 as [|m m' l l' Hm _ IH]; rewrite ?fmap_cons; constructor; [|exact IH].
  destruct Hm as (H1 & H2 & H3 & H4 & H5 & H6 & _).
  unfold I, sameImage, name_image, sameFilename.
  cbn [id blob width height contentType originalName filename].
  repeat split; auto.
  exists (match cur with Some q => number q | None => 0%N end),
         ("elem" +:+ Str.of_N (N.of_nat i) +:+ "_img"),
         (getExtensionFromMimeType (contentType m)).
  rewrite !append_assoc. split; [reflexivity|]. now rewrite Hn, H5.
Qed.

Lemma finalize_images (q q' : Question) (acc acc' : list ImageMeta) :
  relQuestion anyChar T q q' -> cleanQuestion uuid' n q -> cleanQuestion uuid n q' ->
  sameImages uuid uuid' n q q' -> Forall2 I acc acc' ->
  sameImages uuid uuid' n (finalize q acc) (finalize q' acc').
Proof.
  intros Hq Hc Hc' (_ & _ & Ho) Ha. unfold finalize, sameImages. simpl.
  assert (Hf : Forall2 I (List.filter (linked q) acc) (List.filter (linked q') acc')).
  { apply filter_images; [|exact Ha]. intros m m' Hm. now apply linked_images. }
  split; [exact Hf|]. split; [|exact Ho].
  apply nonempty_length. now apply Forall2_length in Hf.
Qed.

Lemma current_clean (own : nat -> N) (st : ParseState) (q : Question) :
  Forall (cleanQuestion own n) (drafts st) -> currentQuestion st = Some q ->
  cleanQuestion own n q.
Proof.
  unfold drafts. intros H E. rewrite E in H. apply Forall_app in H as [_ H].
  now inversion H.
Qed.

Lemma push_finalized_images (st st' : ParseState) (acc acc' : list ImageMeta) :
  relState anyChar T st st' -> imagesState st st' ->
  Forall (cleanQuestion uuid' n) (drafts st) -> Forall (cleanQuestion uuid n) (drafts st') ->
  Forall2 I acc acc' ->
  Forall2 (sameImages uuid uuid' n) (push_finalized st acc) (push_finalized st' acc').
Proof.
  intros [_ Hc _ _] [Hq Hic _ _] Hcl Hcl' Ha. unfold push_finalized.
  pose proof (current_clean uuid' st) as Hcur. pose proof (current_clean uuid st') as Hcur'.
  specialize (Hcur). revert Hic Hcur Hcur'.
  destruct Hc as [|q q' Hqq]; intros Hic Hcur Hcur'; inversion Hic as [|x y Hxy]; subst;
    [exact Hq|].
  apply Forall2_app; [exact Hq|]. constructor; [|constructor].
  apply finalize_images; auto.
Qed.

(** a step of the loop keeps the images of the two runs the same *)
Lemma step_images (i : nat) (d d' : ElementData) (st st' : ParseState) :
  linkedBlock d d' -> relState anyChar T st st' -> imagesState st st' ->
  Forall (cleanQuestion uuid' n) (drafts st) -> Forall (cleanQuestion uuid n) (drafts st') ->
  imagesState (step i d st) (step i d' st').
Proof.
  intros (Ht & Hi & Hl & Hl') Hrel Himg Hcl Hcl'.
  pose proof (push_finalized_images st st'
                (accumulatedImages st ++ (name_image (currentQuestion st) i <$> e_images d))
                (accumulatedImages st' ++ (name_image (currentQuestion st') i <$> e_images d'))
                Hrel Himg Hcl Hcl') as Hpush.
  unfold step.
  assert (Hacc : Forall2 I
    (accumulatedImages st ++ (name_image (currentQuestion st) i <$> e_images d))
    (accumulatedImages st' ++ (name_image (currentQuestion st') i <$> e_images d'))).
  { apply Forall2_app; [now destruct Himg | apply name_image_same; [now destruct Hrel | exact Hi]]. }
  assert (Hall : Forall2 I
    (allImages st ++ (name_image (currentQuestion st) i <$> e_images d))
    (allImages st' ++ (name_image (currentQuestion st') i <$> e_images d'))).
  { apply Forall2_app; [now destruct Himg | apply name_image_same; [now destruct Hrel | exact Hi]]. }
  specialize (Hpush Hacc).
  destruct (questionStartMatch (e_text d)) as [[digits rest]|] eqn:Eq;
  destruct (questionStartMatch (e_text d')) as [[digits' rest']|] eqn:Eq';
    pose proof (questionStartMatch_related _ _ linked_ids _ _ Ht) as Hqs;
    rewrite Eq, Eq' in Hqs; inversion Hqs as [|a b [Hd Hr]]; subst.
  - assert (Hf : Forall2 I
      (List.filter (fun img => Str.includes (placeholder (id img)) (e_text d))
         (accumulatedImages st ++ (name_image (currentQuestion st) i <$> e_images d)))
      (List.filter (fun img => Str.includes (placeholder (id img)) (e_text d'))
         (accumulatedImages st' ++ (name_image (currentQuestion st') i <$> e_images d')))).
    { apply filter_images; [|exact Hacc]. intros m m' Hm. now apply includes_image. }
    constructor; cbn [questions currentQuestion accumulatedImages allImages]; auto.
    constructor. unfold sameImages. cbn [images hasImages options].
    split; [constructor|]. split; [|constructor].
    apply nonempty_length. now apply Forall2_length in Hf.
  - pose proof Hrel as [_ Hc _ _]. pose proof Himg as [Hq Hic _ _].
    destruct (currentQuestion st) as [q|] eqn:Ec;
    destruct (currentQuestion st') as [q'|] eqn:Ec';
      inversion Hc as [|a b Hqq]; inversion Hic as [|x y Hxy]; subst.
    2:{ constructor; cbn [questions currentQuestion accumulatedImages allImages]; auto. }
    destruct (optionMatch (e_text d)) as [[l r]|] eqn:Eo;
    destruct (optionMatch (e_text d')) as [[l' r']|] eqn:Eo';
      pose proof (optionMatch_related _ _ linked_ids _ _ Ht) as Hom;
      rewrite Eo, Eo' in Hom; inversion Hom as [|a b [Hle Hro]]; subst.
    + cbn [fst snd] in Hle, Hro. subst l'.
      constructor; cbn [questions currentQuestion accumulatedImages allImages]; auto.
      constructor. destruct Hxy as (H1 & H2 & H3).
      unfold sameImages, mark_images, add_option; cbn [images hasImages options].
      rewrite H2, (nonempty_length _ _ (Forall2_length _ _ _ Hi)).
      split; [exact H1|]. split; [reflexivity|].
      apply Forall2_app; [exact H3|]. constructor; [|constructor].
      unfold sameImagesOpt. cbn [o_images].
      apply filter_images; [|exact Hacc]. intros m m' Hm.
      apply includes_image; [exact Hm | now apply related_trim; [apply linked_ids|] | |].
      * apply (lacksIds_within _ _ _ (e_text d)); [|exact Hl].
        eapply within_trans; [apply within_trim | now apply (within_option _ l)].
      * apply (lacksIds_within _ _ _ (e_text d')); [|exact Hl'].
        eapply within_trans; [apply within_trim | now apply (within_option _ l)].
    + constructor; cbn [questions currentQuestion accumulatedImages allImages]; auto.
      constructor. rewrite (related_empty _ _ _ _ Ht).
      rewrite (nonempty_length _ _ (Forall2_length _ _ _ Hi)).
      destruct Hxy as (H1 & H2 & H3).
      destruct (Str.is_empty (e_text d')); unfold sameImages, mark_images, append_text;
        cbn [images hasImages options]; rewrite H2; auto.
Qed.

Lemma blockLoop_images (ds ds' : list ElementData) :
  Forall2 linkedBlock ds ds' ->
  forall i st st', relState anyChar T st st' -> imagesState st st' ->
    Forall (cleanQuestion uuid' n) (drafts st) -> Forall (cleanQuestion uuid n) (drafts st') ->
    relState anyChar T (blockLoop i ds st) (blockLoop i ds' st')
    /\ imagesState (blockLoop i ds st) (blockLoop i ds' st')
    /\ Forall (cleanQuestion uuid' n) (drafts (blockLoop i ds st))
    /\ Forall (cleanQuestion uuid n) (drafts (blockLoop i ds' st')).
Proof.
  induction 1 as [|d d' ds ds' Hd _ IH]; intros i st st' Hrel Himg Hcl Hcl'; simpl; [auto|].
  destruct (loop_branch_related _ _ linked_ids _ _ (linkedBlock_relBlock _ _ Hd)) as [-> ->].
  destruct (isEmptyBlock d'); [now apply IH|].
  destruct (re_answer_key (e_text d')); [auto|].
  apply IH.
  - apply step_related;
      [exact linked_ids | reflexivity | now apply linkedBlock_relBlock | exact Hrel].
  - now apply step_images.
  - apply step_clean; [now destruct Hd as (_ & _ & H & _) | exact Hcl].
  - apply step_clean; [now destruct Hd as (_ & _ & _ & H) | exact Hcl'].
Qed.

Lemma initialState_images : imagesState initialState initialState.
Proof. constructor; simpl; constructor. Qed.

Lemma parseBlocks_images (ds ds' : list ElementData) :
  Forall2 linkedBlock ds ds' ->
  Forall2 (sameImages uuid uuid' n) (p_questions (parseBlocks ds)) (p_questions (parseBlocks ds'))
  /\ Forall2 I (p_images (parseBlocks ds)) (p_images (parseBlocks ds')).
Proof.
  intros H. unfold parseBlocks. simpl.
  destruct (blockLoop_images _ _ H 0 initialState initialState
              (initialState_related anyChar T) initialState_images
              (Forall_nil_2 _) (Forall_nil_2 _)) as (Hrel & Himg & Hcl & Hcl').
  split; [|now destruct Himg].
  apply push_finalized_images; auto. now destruct Himg.
Qed.

End FreshRuns.

Lemma allChars_any (s : string) : allChars anyChar s = true.
Proof. induction s as [|c s IH]; [reflexivity | exact IH]. Qed.

Section FreshBlocks.

Variables uuid uuid' : nat -> N.

Variable n : nat.

Hypothesis others : apart uuid uuid' n.

Let T := corresponding uuid uuid' n.

Let I := sameImage uuid uuid' n.

Local Abbreviation linkedBlock := (linkedBlock uuid uuid' n).

Lemma linked_ids' (i j : string) : T i j -> anyIds i j.
Proof. apply corresponding_ids. Qed.

Lemma others' (a b : nat) : a < n -> b < n -> uuid_string (uuid' a) <> uuid_string (uuid b).
Proof. intros Ha Hb E. now apply (others b a). Qed.

(** the blocks of the two runs over a document *)
Lemma processChildren_linked (cs : list Child) :
  forall k acc acc' imgs imgs',
    k + countImages cs <= n ->
    related anyChar T acc acc' -> Forall2 I imgs imgs' ->
    related anyChar T (processChildren uuid k cs acc imgs).1.1
                      (processChildren uuid' k cs acc' imgs').1.1
    /\ Forall2 I (processChildren uuid k cs acc imgs).1.2
                 (processChildren uuid' k cs acc' imgs').1.2
    /\ (processChildren uuid k cs acc imgs).2 = k + countImages cs
    /\ (processChildren uuid' k cs acc' imgs').2 = k + countImages cs.
Proof.
  induction cs as [|c cs IH]; intros k acc acc' imgs imgs' Hk Ha Hi; simpl.
  - repeat split; auto.
  - destruct c as [s|image|]; simpl in *.
    + apply IH; auto. apply related_app; [exact Ha|]. apply related_refl, allChars_any.
    + destruct (getBlob image) as [b|].
      * destruct (IH (S k) (acc +:+ placeholder (uuid_string (uuid k)))
                    (acc' +:+ placeholder (uuid_string (uuid' k)))
                    (imgs ++ [{| id := uuid_string (uuid k); blob := b;
                                 contentType := getContentType b;
                                 originalName := if Str.is_empty (getName b)
                                                 then "image_" +:+ uuid_string (uuid k)
                                                 else getName b;
                                 width := getWidth image; height := getHeight image;
                                 filename := None |}])
                    (imgs' ++ [{| id := uuid_string (uuid' k); blob := b;
                                  contentType := getContentType b;
                                  originalName := if Str.is_empty (getName b)
                                                  then "image_" +:+ uuid_string (uuid' k)
                                                  else getName b;
                                  width := getWidth image; height := getHeight image;
                                  filename := None |}]) ltac:(lia))
          as (H1 & H2 & H3 & H4).
        -- apply related_app; [exact Ha|].
           change (related anyChar T (token (uuid_string (uuid k)) "")
                                     (token (uuid_string (uuid' k)) "")).
           apply rel_token; [|constructor]. exists k. repeat split. lia.
        -- apply Forall2_app; [exact Hi|]. constructor; [|constructor].
           split; [exists k; repeat split; lia|]. cbn [blob width height contentType originalName id].
           repeat split. destruct (Str.is_empty (getName b)); [now right | now left].
        -- repeat split; auto; lia.
      * destruct (IH (S k) acc acc' imgs imgs' ltac:(lia) Ha Hi) as (H1 & H2 & H3 & H4).
        repeat split; auto; lia.
    + apply IH; auto.
Qed.

Lemma processElement_linked (k : nat) (e : Element) :
  k + mintedBy e <= n ->
  lacksIds uuid n (typedText (getChildren e)) ->
  lacksIds uuid' n (typedText (getChildren e)) ->
  linkedBlock (processElement uuid k e).1 (processElement uuid' k e).1
  /\ (processElement uuid k e).2 = k + mintedBy e
  /\ (processElement uuid' k e).2 = k + mintedBy e.
Proof.
  intros Hk Hu Hu'.
  pose proof (processElement_lacks uuid uuid' n others k e Hk Hu') as Hl.
  pose proof (processElement_lacks uuid' uuid n others' k e Hk Hu) as Hl'.
  unfold processElement, mintedBy, linkedBlock in *.
  destruct (getType e).
  - destruct (processChildren_linked (getChildren e) k "" "" [] [] Hk
                (rel_nil _ _) (Forall2_nil_2 _ _ _)) as (H1 & H2 & H3 & H4).
    destruct (processChildren uuid k (getChildren e) "" []) as [[t i] m].
    destruct (processChildren uuid' k (getChildren e) "" []) as [[t' i'] m'].
    simpl in *. repeat split; auto. now apply related_trim; [apply linked_ids'|].
  - destruct (processChildren_linked (getChildren e) k "" "" [] [] Hk
                (rel_nil _ _) (Forall2_nil_2 _ _ _)) as (H1 & H2 & H3 & H4).
    destruct (processChildren uuid k (getChildren e) "" []) as [[t i] m].
    destruct (processChildren uuid' k (getChildren e) "" []) as [[t' i'] m'].
    simpl in *. repeat split; auto. now apply related_trim; [apply linked_ids'|].
  - simpl. repeat split; auto; constructor.
Qed.

Lemma blocks_linked (body : Body) (k : nat) :
  unseen uuid n body -> unseen uuid' n body -> k + mintedIn body <= n ->
  Forall2 linkedBlock (blocks uuid k body) (blocks uuid' k body).
Proof.
  revert k. induction body as [|e body IH]; intros k Hu Hu' Hk; simpl; [constructor|].
  inversion Hu as [|x l He Hb]; subst. inversion Hu' as [|x' l' He' Hb']; subst.
  simpl in Hk.
  destruct (processElement_linked k e ltac:(lia) He He') as (H1 & H2 & H3).
  destruct (processElement uuid k e) as [d m]. destruct (processElement uuid' k e) as [d' m'].
  simpl in *. subst m m'. constructor; [exact H1|]. apply IH; [exact Hb | exact Hb' | lia].
Qed.

End FreshBlocks.

(** with fresh identifiers the images of the questions are the same in
    the two runs *)
Lemma parse_images (uuid uuid' : nat -> N) (body : Body) :
  freshIds uuid uuid' body ->
  Forall2 (sameImages uuid uuid' (mintedIn body))
    (p_questions (parseQuestions uuid body)) (p_questions (parseQuestions uuid' body))
  /\ Forall2 (sameImage uuid uuid' (mintedIn body))
       (p_images (parseQuestions uuid body)) (p_images (parseQuestions uuid' body)).
Proof.
  intros [Hd Hd' Hu Hu' Ha]. rewrite !parseQuestions_blocks.
  apply parseBlocks_images; [exact Hd | exact Hd' |].
  apply blocks_linked; [exact Ha | exact Hu | exact Hu' | lia].
Qed.

(** C9: two runs of the pipeline over one document, with any two supplies
    of image identifiers, yield the same question numbers, the same option
    letters, the same types and the same answer data, and stems and option
    texts that are the same up to the identifiers inside the image tokens.
    When the identifiers are freshly minted (those of a run pairwise
    distinct, none occurring in the text typed into the document, those of
    the second run different from those of the first), the questions, their
    options and the image list of the parser carry the same images in both
    runs, with corresponding identifiers, and [hasImages] is the same: no
    field differs but through the identifiers. *)
Theorem runs_agree_up_to_ids (uuid uuid' : nat -> N) (body : Body) :
  let qs := p_questions (parseQuestions uuid body) in
  let qs' := p_questions (parseQuestions uuid' body) in
  (number <$> qs = number <$> qs' /\
   (fun q => letters_of (options q)) <$> qs = (fun q => letters_of (options q)) <$> qs' /\
   type <$> qs = type <$> qs' /\
   Forall2 sameQuestion qs qs' /\
   Forall2 sameEntry (pipeline uuid body) (pipeline uuid' body))
  /\ (freshIds uuid uuid' body ->
      Forall2 (sameImages uuid uuid' (mintedIn body)) qs qs'
      /\ Forall2 (sameImage uuid uuid' (mintedIn body))
           (p_images (parseQuestions uuid body)) (p_images (parseQuestions uuid' body))).
Proof.
  intros qs qs'. split.
  - destruct (parse_same uuid uuid' body) as [Hq _]. fold qs qs' in Hq.
    destruct (sameQuestions_fields _ _ Hq) as (H1 & H2 & H3).
    repeat split; auto using pipeline_same.
  - intros Hf. now apply parse_images.
Qed.

Lemma lacksIds_two (uuid : nat -> N) (s : string) :
  Str.includes (uuid_string (uuid 0)) s = false ->
  Str.includes (uuid_string (uuid 1)) s = false -> lacksIds uuid 2 s.
Proof. intros H0 H1 [|[|k]] Hk; [exact H0 | exact H1 | lia]. Qed.

Lemma runs_agree_up_to_ids_witness :
  freshIds uuidUp uuidDown blankPictureDoc /\
  Forall2 (sameImages uuidUp uuidDown 2)
    (p_questions (parseQuestions uuidUp blankPictureDoc))
    (p_questions (parseQuestions uuidDown blankPictureDoc)).
Proof.
  assert (Hf : freshIds uuidUp uuidDown blankPictureDoc).
  { split.
    - intros [|[|a]] [|[|b]] Ha Hb H; try (simpl in *; lia);
        try reflexivity; vm_compute in H; discriminate H.
    - intros [|[|a]] [|[|b]] Ha Hb H; try (simpl in *; lia);
        try reflexivity; vm_compute in H; discriminate H.
    - repeat constructor; apply lacksIds_two; vm_compute; reflexivity.
    - repeat constructor; apply lacksIds_two; vm_compute; reflexivity.
    - intros [|[|a]] [|[|b]] Ha Hb H; try (simpl in *; lia);
        vm_compute in H; discriminate H. }
  split; [exact Hf|].
  exact (proj1 (proj2 (runs_agree_up_to_ids uuidUp uuidDown blankPictureDoc) Hf)).
Defined.

(** the images found by the two runs over that document *)
Example runs_over_blankPictureDoc :
  (fun q => (text q, hasImages q, length (images q),
             (fun o => length (o_images o)) <$> options q))
    <$> p_questions (parseQuestions uuidUp blankPictureDoc)
  = [("The [blank] shape is [IMG:3f2504e04f8941d39a0c0305e82c3301]", true, 2, [0; 1])] /\
  (fun q => (text q, hasImages q, length (images q),
             (fun o => length (o_images o)) <$> options q))
    <$> p_questions (parseQuestions uuidDown blankPictureDoc)
  = [("The [blank] shape is [IMG:9b1deb4d3b7d4bad9bdd2b0d7b3dcb6d]", true, 2, [0; 1])].
Proof. vm_compute. repeat split. Qed.
